(** * Beat-grid engine: beat adjustment, click track, beat update and
      energy segmentation

    A shallow embedding of the pure parts of [backend/beat_detector.py],
    [backend/structure_analyzer.py] and the [update_beats] handler of
    [backend/app.py], together with the properties stated for them.

    Code that raises is embedded in an error monad ([Py.result]); loops are
    folds over the Python range with the loop variables as state; the
    in-memory store [analysis_results] is a finite map that the handler
    updates even when it ends in an exception.  Calls into librosa, numpy and
    scikit-learn are not embedded: [frames_to_time] is a parameter, and the
    functions start from the arrays those libraries return.

    Numbers.  Times, offsets, multipliers and envelope values are Python
    floats in the source.  A finite float is embedded as the rational it
    denotes, in canonical form ([Qc]), so Leibniz equality is equality of
    values and the comparisons are the exact order.  [Py.fl] rounds a rational
    to the nearest double; it is applied where the source compares a float
    with a literal or a product (the tolerance of the click track, the
    energy thresholds, the position rules of the labelling), and
    [Py.int_of_float] raises where the quotient it truncates has overflowed.  The arithmetic of [adjust_beats] and of the
    tempo is the exact one: its values differ from the doubles by rounding.
    NaN is outside this model, an infinity appears only as the outcome of a
    numpy division ([Np.scalar]).  Python integers are [Z]. *)

From Stdlib Require Import QArith Qcanon Qabs Qcabs Qround ZArith List String Ascii Lia Lqa.
From stdpp Require Import base decidable option numbers list strings gmap fin_maps sorting.

Local Open Scope Z_scope.

(** ** The fragment of the Python runtime the source relies on *)

Module Py.

(** Exceptions the embedded code can raise. *)
Inductive exn : Type :=
| ZeroDivisionError
| ValueError
| IndexError
| KeyError
| TypeError
| OverflowError.

(** A computation either returns or raises. *)
Inductive result (A : Type) : Type :=
| Ok (a : A)
| Raise (e : exn).
Global Arguments Ok {A} a.
Global Arguments Raise {A} e.

Global Instance exn_eq_dec : EqDecision exn.
Proof. solve_decision. Defined.
Global Instance result_eq_dec {A} `{EqDecision A} : EqDecision (result A).
Proof. solve_decision. Defined.

Global Instance result_ret : MRet result := λ A a, Ok a.
Global Instance result_bind : MBind result := λ A B f r,
  match r with
  | Ok a => f a
  | Raise e => Raise e
  end.

(** [for x in xs: s = body(s, x)], stopping at the first exception. *)
Fixpoint for_in {S I : Type} (xs : list I) (body : S → I → result S)
    (s : S) : result S :=
  match xs with
  | [] => Ok s
  | x :: xs' => s' ← body s x; for_in xs' body s'
  end.

(** [range(a, b)]. *)
Definition range (a b : Z) : list Z :=
  (λ k : nat, a + Z.of_nat k) <$> seq 0 (Z.to_nat (b - a)).

(** [len(l)]. *)
Definition len {A : Type} (l : list A) : Z := Z.of_nat (length l).

(** [l[i]], with Python's negative indices. *)
Definition getitem {A : Type} (l : list A) (i : Z) : result A :=
  let i' := if decide (i < 0) then i + len l else i in
  if decide (i' < 0) then Raise IndexError
  else match l !! Z.to_nat i' with
       | Some x => Ok x
       | None => Raise IndexError
       end.

(** Number of elements of [l[::step]] for a positive [step]. *)
Definition slice_len (n step : nat) : nat := (n + step - 1) / step.

(** [l[::step]] for a positive [step]: elements 0, step, 2*step, ... *)
Definition take_stride {A : Type} (step : nat) (l : list A) : list A :=
  omap (λ k : nat, l !! (k * step)%nat) (seq 0 (slice_len (length l) step)).

(** [l[::step]] for any integer [step]: a zero step is an error, a
    negative one walks the sequence backwards from its last element. *)
Definition slice_step {A : Type} (l : list A) (step : Z) : result (list A) :=
  if decide (step = 0) then Raise ValueError
  else if decide (0 < step) then Ok (take_stride (Z.to_nat step) l)
  else Ok (take_stride (Z.to_nat (- step)) (reverse l)).

(** [int(x)] on a float: truncation toward zero. *)
Definition int (x : Qc) : Z := Z.quot (Qnum (this x)) (Zpos (Qden (this x))).

(** [float(j)] for an integer [j]. *)
Definition float (j : Z) : Qc := Qc_of_Z j.

(** [x / y] on floats. *)
Definition truediv (x y : Qc) : result Qc :=
  if decide (y = 0%Qc) then Raise ZeroDivisionError else Ok (x / y)%Qc.

(** [abs(x)]. *)
Definition abs (x : Qc) : Qc := Qcabs x.

(** *** Double precision *)

(** [2 ^ z] for an integer [z] of either sign. *)
Definition pow2 (z : Z) : Q := Qpower 2 z.

(** The nearest integer, the even one of two equally near. *)
Definition round_half_even (x : Q) : Z :=
  let f := Qfloor x in
  match Qcompare (x - inject_Z f) (1 # 2) with
  | Lt => f
  | Gt => f + 1
  | Eq => if Z.even f then f else f + 1
  end.

(** The exponent of the last place of the double nearest to [q]: a double
    has 53 significant bits, and no place below [2 ^ -1074]. *)
Definition ulp_exponent (q : Q) : Z :=
  let a := Z.log2 (Z.abs (Qnum q)) - Z.log2 (Zpos (Qden q)) in
  let a := if Qlt_le_dec (Qabs q) (pow2 a) then a - 1 else a in
  Z.max (a - 52) (-1074).

(** The double nearest to [q], ties to even: what a float operation
    returns when its exact result is [q], and what a literal denotes.  A
    result beyond the largest double is left finite here; see
    [float_overflows]. *)
Definition fl (q : Qc) : Qc :=
  let e := ulp_exponent q in
  Q2Qc (inject_Z (round_half_even (q / pow2 e)) * pow2 e).

Global Arguments fl : simpl never.

(** A float operation whose exact result is [q] returns an infinity when
    [|q|] reaches [2 ^ 1024 - 2 ^ 970], halfway from the largest double to
    [2 ^ 1024]. *)
Definition float_overflows (q : Qc) : Prop :=
  (Q2Qc (pow2 1024 - pow2 970) ≤ Qcabs q)%Qc.

Global Instance float_overflows_dec (q : Qc) : Decision (float_overflows q).
Proof. unfold float_overflows. apply _. Defined.

(** [int(x)] where [x] is the float a division has returned for the exact
    quotient [q]: [int] raises [OverflowError] on an infinity. *)
Definition int_of_float (q : Qc) : result Z :=
  if decide (float_overflows q) then Raise OverflowError else Ok (int q).

End Py.

Import Py.

(** ** [backend/beat_detector.py] *)

Module BeatDetector.

(** [adjust_beats(self, beats, offset=0.0, bpm_multiplier=1.0)] *)
Definition adjust_beats (beats : list Qc) (offset bpm_multiplier : Qc)
    : result (list Qc) :=
  let beats := (λ b, b + offset)%Qc <$> beats in
  beats ←
    (if decide (bpm_multiplier ≠ 1%Qc) then
       if decide (1 < bpm_multiplier)%Qc then
         new_beats ←
           for_in (range 0 (len beats - 1))
             (λ new_beats i,
                bi ← getitem beats i;
                let new_beats := new_beats ++ [bi] in
                for_in (range 1 (int bpm_multiplier))
                  (λ new_beats j,
                     bi ← getitem beats i;
                     bi1 ← getitem beats (i + 1);
                     bi' ← getitem beats i;
                     r ← truediv (float j) bpm_multiplier;
                     let interp := (bi + (bi1 - bi') * r)%Qc in
                     Ok (new_beats ++ [interp]))
                  new_beats)
             [];
         last_beat ← getitem beats (-1);
         Ok (new_beats ++ [last_beat])
       else
         q ← truediv 1%Qc bpm_multiplier;
         step ← int_of_float q;
         slice_step beats step
     else Ok beats);
  Ok (filter (λ b, 0 ≤ b)%Qc beats).

(** The dictionaries appended to [clicks]. *)
Record click : Type := Click { time : Qc; accent : bool }.

Global Instance click_eq_dec : EqDecision click.
Proof. solve_decision. Defined.

(** [generate_click_track_times(self, beats, downbeats=None)] *)
Definition generate_click_track_times (beats : list Qc)
    (downbeats : option (list Qc)) : list click :=
  let downbeat_set : gset Qc :=
    match downbeats with
    | Some (d :: ds) => list_to_set (d :: ds)
    | _ => ∅
    end in
  foldl
    (λ clicks beat,
       let is_downbeat :=
         existsb (λ db, bool_decide (abs (fl (beat - db)) < fl (Q2Qc 0.01))%Qc)
                 (elements downbeat_set) in
       clicks ++ [Click beat is_downbeat])
    [] beats.

End BeatDetector.

(** ** [backend/structure_analyzer.py] *)

Module StructureAnalyzer.

(** [SECTION_COLORS] *)
Definition SECTION_COLORS : gmap string string :=
  list_to_map
    [ ("intro", "#4CAF50"); ("verse", "#2196F3"); ("chorus", "#FF9800");
      ("bridge", "#9C27B0"); ("outro", "#607D8B"); ("breakdown", "#00BCD4");
      ("buildup", "#FFEB3B"); ("drop", "#F44336"); ("unknown", "#9E9E9E") ]%string.

(** [self.SECTION_COLORS.get(label, self.SECTION_COLORS['unknown'])] *)
Definition section_color (label : string) : string :=
  default (SECTION_COLORS !!! "unknown"%string) (SECTION_COLORS !! label).

(** The dictionaries appended to [sections] and [energy_sections];
    [end_] is the key ['end']. *)
Record section : Type :=
  Section_ { start : Qc; end_ : Qc; label : string; color : string }.

Global Instance section_eq_dec : EqDecision section.
Proof. solve_decision. Defined.

(** The loop of [analyze_structure] that builds the section list from the
    boundary times and the labels of [_label_segments]. *)
Definition build_sections (bound_times : list Qc) (labels : list string)
    : result (list section) :=
  for_in (range 0 (len bound_times - 1))
    (λ sections i,
       s ← getitem bound_times i;
       e ← getitem bound_times (i + 1);
       l ← getitem labels i;
       l' ← getitem labels i;
       Ok (sections ++ [Section_ s e l (section_color l')]))
    [].

(** The values of [current_state]: ['normal'], ['high'], ['low']. *)
Inductive energy_state : Type := normal | high | low.

Global Instance energy_state_eq_dec : EqDecision energy_state.
Proof. solve_decision. Defined.

(** [threshold_high = 0.7] and [threshold_low = 0.3], the doubles the
    literals denote. *)
Definition threshold_high : Qc :=
  Q2Qc ltac:(let q := eval vm_compute in (this (fl (Q2Qc 0.7))) in exact q).
Definition threshold_low : Qc :=
  Q2Qc ltac:(let q := eval vm_compute in (this (fl (Q2Qc 0.3))) in exact q).

(** ['drop' if current_state == 'high' else 'breakdown' if
    current_state == 'low' else 'verse'] *)
Definition state_label (current_state : energy_state) : string :=
  if decide (current_state = high) then "drop"
  else if decide (current_state = low) then "breakdown"
  else "verse".

(** The value of [new_state] once the if/elif chain of one iteration has
    run on the frame value [v = rms_norm[i]]. *)
Definition next_state (current_state : energy_state) (v : Qc) : energy_state :=
  if decide ((threshold_high < v)%Qc ∧ current_state ≠ high) then high
  else if decide ((v < threshold_low)%Qc ∧ current_state ≠ low) then low
  else if decide ((threshold_low ≤ v)%Qc ∧ (v ≤ threshold_high)%Qc) then
    if decide (current_state ∈ [high; low]) then normal else current_state
  else current_state.

(** The variables the scanning loop of [detect_energy_sections] updates. *)
Record scan : Type :=
  Scan { current_state : energy_state;
         section_start : Z;
         energy_sections : list section }.

(** One iteration of [for i in range(1, len(rms_norm))]. *)
Definition scan_body (rms_norm times : list Qc) (st : scan) (i : Z)
    : result scan :=
  v ← getitem rms_norm i;
  let new_state := next_state (current_state st) v in
  if decide (new_state ≠ current_state st) then
    sections ←
      (if decide (section_start st ≠ i) then
         let label := state_label (current_state st) in
         s ← getitem times (section_start st);
         e ← getitem times i;
         Ok (energy_sections st ++ [Section_ s e label (section_color label)])
       else Ok (energy_sections st));
    Ok (Scan new_state i sections)
  else Ok st.

Section Scan.

(** [librosa.frames_to_time(., sr=sr)], a collaborator outside the
    repository: any function from frame numbers to seconds. *)
Variable frames_to_time : Z → Qc.

(** [detect_energy_sections], from [# Find energy transitions] on:
    [rms_norm] is the smoothed, normalised envelope and has the length of
    [rms]. *)
Definition detect_energy_sections (rms_norm : list Qc)
    : result (list section) :=
  let times := frames_to_time <$> range 0 (len rms_norm) in
  st ← for_in (range 1 (len rms_norm)) (scan_body rms_norm times)
              (Scan normal 0 []);
  if decide (section_start st < len times - 1) then
    let label := state_label (current_state st) in
    s ← getitem times (section_start st);
    e ← getitem times (-1);
    Ok (energy_sections st ++ [Section_ s e label (section_color label)])
  else Ok (energy_sections st).

End Scan.

End StructureAnalyzer.

(** ** [backend/app.py]: the [update_beats] handler *)

Module App.

(** The dictionary stored under [file_info['beats']]. *)
Record beat_grid : Type :=
  BeatGrid { beats : list Qc;
             downbeats : list Qc;
             beat_numbers : list Z;
             bpm : Qc;
             time_signature : string;
             confidence : Qc }.

(** An entry of [analysis_results]; the keys ['beats'] and ['structure']
    exist only once the file has been analysed. *)
Record file_info : Type :=
  FileInfo { filepath : string;
             filename : string;
             duration : Qc;
             status : string;
             info_beats : option beat_grid;
             info_structure : option (list StructureAnalyzer.section) }.

(** A value of the request body, as [float()] sees it: a number with a
    fraction or an exponent (a float), a whole number (an integer of any
    size), a boolean, a string together with the number [float()] reads from
    it ([None] when it reads none), [null], or a list or an object. *)
Inductive json_scalar : Type :=
| JNumber (x : Qc)
| JNull
| JInt (n : Z)
| JBool (b : bool)
| JString (parsed : option Qc)
| JCompound.

(** [float(v)]: an integer too large for a double raises [OverflowError],
    a string that is no number [ValueError], [null], a list and an object
    [TypeError]. *)
Definition to_float (v : json_scalar) : result Qc :=
  match v with
  | JNumber x => Ok x
  | JNull => Raise TypeError
  | JInt n =>
      if decide (float_overflows (float n)) then Raise OverflowError
      else Ok (fl (float n))
  | JBool b => Ok (if b then 1%Qc else 0%Qc)
  | JString (Some x) => Ok x
  | JString None => Raise ValueError
  | JCompound => Raise TypeError
  end.

(** The request body, with ['beats'] a list of numbers when present. *)
Record update_request : Type :=
  UpdateRequest { req_beats : option (list Qc);
                  req_offset : option json_scalar;
                  req_bpm : option json_scalar }.

Inductive response : Type :=
| NotFound
| NoData
| Failed (e : exn)
| Updated (file_id : string) (grid : beat_grid).

(** The body of the [try]: it mutates the entry in place, so what it has
    written stays written when a later statement raises. *)
Definition handler (A : Type) : Type := file_info → result A * file_info.

Definition pure {A} (a : A) : handler A := λ fi, (Ok a, fi).
Definition lift {A} (r : result A) : handler A := λ fi, (r, fi).
Definition and_then {A B} (m : handler A) (f : A → handler B) : handler B :=
  λ fi, match m fi with
        | (Ok a, fi') => f a fi'
        | (Raise e, fi') => (Raise e, fi')
        end.

(** [file_info['beats']] *)
Definition get_grid : handler beat_grid :=
  λ fi, match info_beats fi with
        | Some g => (Ok g, fi)
        | None => (Raise KeyError, fi)
        end.

(** [file_info['beats'][key] = value], as an update [f] of the grid. *)
Definition set_grid (f : beat_grid → beat_grid) : handler unit :=
  and_then get_grid (λ g fi,
    (Ok (), FileInfo (filepath fi) (filename fi) (duration fi) (status fi)
                     (Some (f g)) (info_structure fi))).

Definition set_beats (v : list Qc) (g : beat_grid) : beat_grid :=
  BeatGrid v (downbeats g) (beat_numbers g) (bpm g) (time_signature g)
           (confidence g).
Definition set_downbeats (v : list Qc) (g : beat_grid) : beat_grid :=
  BeatGrid (beats g) v (beat_numbers g) (bpm g) (time_signature g)
           (confidence g).
Definition set_beat_numbers (v : list Z) (g : beat_grid) : beat_grid :=
  BeatGrid (beats g) (downbeats g) v (bpm g) (time_signature g)
           (confidence g).
Definition set_bpm (v : Qc) (g : beat_grid) : beat_grid :=
  BeatGrid (beats g) (downbeats g) (beat_numbers g) v (time_signature g)
           (confidence g).

Definition when_present {A} (o : option A) (f : A → handler unit)
    : handler unit :=
  match o with
  | Some a => f a
  | None => pure ()
  end.

(** The statements between [try:] and [return jsonify(...)]. *)
Definition update_body (data : update_request) : handler beat_grid :=
  and_then
    (when_present (req_beats data) (λ new_beats,
       and_then (set_grid (set_beats new_beats)) (λ _,
       and_then (set_grid (set_downbeats (take_stride 4 new_beats))) (λ _,
       set_grid (set_beat_numbers
                   ((λ i, i `mod` 4 + 1) <$> range 0 (len new_beats)))))))
    (λ _,
  and_then
    (when_present (req_offset data) (λ v,
       and_then (lift (to_float v)) (λ offset,
       and_then get_grid (λ g,
       and_then (lift (BeatDetector.adjust_beats (beats g) offset 1%Qc))
         (λ adjusted_beats,
       and_then (set_grid (set_beats adjusted_beats)) (λ _,
       set_grid (set_downbeats (take_stride 4 adjusted_beats))))))))
    (λ _,
  and_then
    (when_present (req_bpm data) (λ v,
       and_then (lift (to_float v)) (λ x, set_grid (set_bpm x))))
    (λ _, get_grid))).

(** [update_beats(file_id)]: [data] is [None] when the body is missing or
    an empty object ([if not data]). *)
Definition update_beats (file_id : string) (data : option update_request)
    (analysis_results : gmap string file_info)
    : response * gmap string file_info :=
  match analysis_results !! file_id with
  | None => (NotFound, analysis_results)
  | Some file_info =>
      match data with
      | None => (NoData, analysis_results)
      | Some data =>
          let '(r, file_info') := update_body data file_info in
          let analysis_results' := <[file_id := file_info']> analysis_results in
          match r with
          | Ok grid => (Updated file_id grid, analysis_results')
          | Raise e => (Failed e, analysis_results')
          end
      end
  end.

End App.

(** ** Auxiliary definitions of the proofs *)

Module Aux.
Import BeatDetector StructureAnalyzer.

(** The block the outer loop of [adjust_beats] appends for index [i]: the
    beat itself, then the points between it and the next beat. *)
Definition densify_block (beats : list Qc) (m : Qc) (i : Z) : list Qc :=
  match getitem beats i, getitem beats (i + 1) with
  | Ok a, Ok b =>
      a :: ((λ j, a + (b - a) * (float j / m))%Qc <$> range 1 (int m))
  | _, _ => []
  end.

(** The loop variables of [detect_energy_sections] after the first [k]
    iterations of its loop, that is once the frames 1 .. [k] are scanned. *)
Definition scan_upto (frames_to_time : Z → Qc) (rms_norm : list Qc) (k : nat)
    : result scan :=
  let times := frames_to_time <$> range 0 (len rms_norm) in
  for_in (take k (range 1 (len rms_norm))) (scan_body rms_norm times)
         (Scan normal 0 []).

(** The section a transition at frame [i] closes in
    [detect_energy_sections]. *)
Definition closed_section (frames_to_time : Z → Qc) (st : scan) (i : Z)
    : section :=
  Section_ (frames_to_time (section_start st)) (frames_to_time i)
           (state_label (current_state st))
           (section_color (state_label (current_state st))).

Definition label_ok (s : section) : Prop :=
  label s ∈ ["drop"; "breakdown"; "verse"]%string.

(** What holds of the loop variables after [k] iterations. *)
Definition scan_invariant (k : nat) (st : scan) : Prop :=
  (0 ≤ section_start st ≤ Z.of_nat k)%Z ∧ Forall label_ok (energy_sections st).

End Aux.

(** ** numpy scalars and reductions *)

Module Np.

(** A numpy float that a division has produced: numpy does not raise on a
    zero divisor, it returns an infinity or NaN. *)
Inductive scalar : Type := Finite (x : Qc) | PosInf | NegInf | NaN.

Global Instance scalar_eq_dec : EqDecision scalar.
Proof. solve_decision. Defined.

(** [x / y] on numpy floats. *)
Definition divide (x y : Qc) : scalar :=
  if decide (y = 0%Qc) then
    if decide (0 < x)%Qc then PosInf
    else if decide (x < 0)%Qc then NegInf
    else NaN
  else Finite (x / y)%Qc.

(** The float a numpy operation returns when its exact result is [a]. *)
Definition round (a : scalar) : scalar :=
  match a with
  | Finite x => Finite (fl x)
  | _ => a
  end.

(** [x / y] when [y] is itself the result of a numpy reduction. *)
Definition divide_by (x : Qc) (y : scalar) : scalar :=
  match y with
  | Finite y => divide x y
  | PosInf | NegInf => Finite 0%Qc
  | NaN => NaN
  end.

(** [a < c] and [a > c] against a finite constant: false on NaN. *)
Definition lt (a : scalar) (c : Qc) : bool :=
  match a with
  | Finite x => bool_decide (x < c)%Qc
  | NegInf => true
  | PosInf | NaN => false
  end.

Definition gt (a : scalar) (c : Qc) : bool :=
  match a with
  | Finite x => bool_decide (c < x)%Qc
  | PosInf => true
  | NegInf | NaN => false
  end.

(** [np.diff(l)] *)
Fixpoint diff (l : list Qc) : list Qc :=
  match l with
  | a :: (b :: _) as rest => (b - a)%Qc :: diff rest
  | _ => []
  end.

(** [np.median(l)]: the middle element of the sorted values, the mean of
    the two middle ones for an even count, NaN for no value. *)
Definition median (l : list Qc) : scalar :=
  let s := merge_sort Qcle l in
  let n := length s in
  if decide (n = 0%nat) then NaN
  else if decide (n `mod` 2 = 1)%nat then
    match s !! (n / 2)%nat with
    | Some x => Finite x
    | None => NaN
    end
  else
    match s !! (n / 2 - 1)%nat, s !! (n / 2)%nat with
    | Some x, Some y => Finite ((x + y) / Q2Qc 2)%Qc
    | _, _ => NaN
    end.

(** [np.max(l)] and [np.min(l)]; an empty array raises [ValueError]. *)
Definition max (l : list Qc) : result Qc :=
  match l with
  | [] => Raise ValueError
  | x :: rest => Ok (foldl (λ m y, if decide (m < y)%Qc then y else m) x rest)
  end.

Definition min (l : list Qc) : result Qc :=
  match l with
  | [] => Raise ValueError
  | x :: rest => Ok (foldl (λ m y, if decide (y < m)%Qc then y else m) x rest)
  end.

End Np.

(** ** [backend/beat_detector.py]: detection *)

Module Detection.

(** The state [__init__] leaves behind: either madmom is used, with or
    without its downbeat processors, or librosa is. *)
Inductive detector : Type := Madmom (has_downbeat : bool) | Librosa.

(** [__init__(self, use_madmom=True)]: [downbeat_ready] says whether the
    construction of the downbeat processors went through. *)
Definition init (use_madmom MADMOM_AVAILABLE downbeat_ready : bool) : detector :=
  if use_madmom && MADMOM_AVAILABLE then Madmom downbeat_ready else Librosa.

(** The dictionary the detection functions return. *)
Record detection : Type :=
  Detection { beats : list Qc;
              downbeats : list Qc;
              beat_numbers : list Z;
              bpm : Np.scalar;
              time_signature : string;
              confidence : Qc }.

(** [range(a, b, step)] for a positive [step]. *)
Definition range_step (a b step : Z) : list Z :=
  (λ k : nat, a + Z.of_nat k * step)
    <$> seq 0 (Z.to_nat ((b - a + step - 1) `div` step)).

(** The two lines that assume 4/4 time:
    [beat_numbers = [(i % 4) + 1 for i in range(len(beats))]] and
    [downbeats = [beats[i] for i in range(0, len(beats), 4)]]. *)
Definition assume_four_four (beats : list Qc) : result (list Z * list Qc) :=
  let beat_numbers := (λ i, i `mod` 4 + 1) <$> range 0 (len beats) in
  downbeats ← for_in (range_step 0 (len beats) 4)
                     (λ acc i, b ← getitem beats i; Ok (acc ++ [b])) [];
  Ok (beat_numbers, downbeats).

(** [_detect_beats_madmom]: [tracked] is what the beat tracker returns for
    the file, [downbeat_info] the outcome of the downbeat processor and
    tracker, rows of [time, beat_number]. *)
Definition _detect_beats_madmom (has_downbeat MADMOM_AVAILABLE : bool)
    (tracked : list Qc) (downbeat_info : result (list (Qc * Qc)))
    : result detection :=
  let beats := tracked in
  let bpm :=
    if decide (1 < len beats) then
      let intervals := Np.diff beats in
      let median_interval := Np.median intervals in
      Np.divide_by (Q2Qc 60) median_interval
    else Np.Finite (Q2Qc 120) in
  '(beats, downbeats, beat_numbers) ←
    (if has_downbeat then
       match downbeat_info with
       | Ok rows =>
           let downbeats :=
             foldl (λ downbeats row,
                      if decide (row.2 = 1%Qc) then downbeats ++ [row.1]
                      else downbeats) [] rows in
           let beats := fst <$> rows in
           let beat_numbers := (λ row, int row.2) <$> rows in
           Ok (beats, downbeats, beat_numbers)
       | Raise _ =>
           '(beat_numbers, downbeats) ← assume_four_four beats;
           Ok (beats, downbeats, beat_numbers)
       end
     else
       '(beat_numbers, downbeats) ← assume_four_four beats;
       Ok (beats, downbeats, beat_numbers));
  Ok (Detection beats downbeats beat_numbers bpm "4/4"
                (if MADMOM_AVAILABLE then Q2Qc 0.9 else Q2Qc 0.7)).

(** What [librosa.beat.beat_track] returns as tempo: an array in newer
    versions, a scalar in older ones. *)
Inductive tempo_value : Type := TempoArray (l : list Qc) | TempoScalar (x : Qc).

(** [_detect_beats_librosa]: [tempo] and [beat_times] are what librosa
    returns for the file. *)
Definition _detect_beats_librosa (tempo : tempo_value) (beat_times : list Qc)
    : result detection :=
  bpm ← match tempo with
        | TempoArray l =>
            if decide (0 < len l) then getitem l 0 else Ok (Q2Qc 120)
        | TempoScalar x => Ok x
        end;
  '(beat_numbers, downbeats) ← assume_four_four beat_times;
  Ok (Detection beat_times downbeats beat_numbers (Np.Finite bpm) "4/4"
                (Q2Qc 0.7)).

(** [detect_beats]: the strategy chosen at construction decides. *)
Definition detect_beats (d : detector) (MADMOM_AVAILABLE : bool)
    (tracked : list Qc) (downbeat_info : result (list (Qc * Qc)))
    (tempo : tempo_value) (beat_times : list Qc) : result detection :=
  match d with
  | Madmom has_downbeat =>
      _detect_beats_madmom has_downbeat MADMOM_AVAILABLE tracked downbeat_info
  | Librosa => _detect_beats_librosa tempo beat_times
  end.

End Detection.

(** ** [backend/structure_analyzer.py]: labelling and assembly *)

Module Labelling.
Import StructureAnalyzer.

(** [cluster_counts[cl] = cluster_counts.get(cl, 0) + 1], the dictionary
    kept as its items in insertion order. *)
Fixpoint count_one (cl : Z) (counts : list (Z * Z)) : list (Z * Z) :=
  match counts with
  | [] => [(cl, 1)]
  | (k, c) :: rest =>
      if decide (k = cl) then (k, c + 1) :: rest
      else (k, c) :: count_one cl rest
  end.

(** [cluster_counts[cl]] *)
Definition count_of (counts : list (Z * Z)) (cl : Z) : result Z :=
  match list_find (λ kc, kc.1 = cl) counts with
  | Some (_, (_, c)) => Ok c
  | None => Raise KeyError
  end.

(** [max(cluster_counts, key=cluster_counts.get)] on a non-empty
    dictionary: the first key, in insertion order, of greatest count. *)
Definition most_common (first : Z * Z) (rest : list (Z * Z)) : Z :=
  (foldl (λ best kc, if decide (best.2 < kc.2) then kc else best) first rest).1.

(** [sorted(cluster_counts.items(), key=lambda x: x[1], reverse=True)]:
    by decreasing count, items of equal count in their original order. *)
Fixpoint insert_by_count (x : Z * Z) (sorted : list (Z * Z)) : list (Z * Z) :=
  match sorted with
  | [] => [x]
  | y :: rest =>
      if decide (y.2 ≤ x.2) then x :: y :: rest
      else y :: insert_by_count x rest
  end.

Definition sorted_by_count (counts : list (Z * Z)) : list (Z * Z) :=
  foldr insert_by_count [] counts.

(** [enumerate(l)] *)
Definition enumerate {A : Type} (l : list A) : list (Z * A) :=
  imap (λ i x, (Z.of_nat i, x)) l.

(** Steps 1 and 2 of the heuristic: the first segment is an intro when it
    starts in the first tenth, the last an outro when it starts after 85%.
    The two products are the rounded ones. *)
Definition label_by_position (num_segments : nat) (bound_times : list Qc)
    (duration : Qc) (labels : list string) : result (list string) :=
  first_bound ← getitem bound_times 0;
  let labels :=
    if decide (first_bound < fl (duration * fl (Q2Qc 0.1)))%Qc
    then <[0%nat := "intro"]> labels else labels in
  last_start ← getitem bound_times (-2);
  let labels :=
    if decide (fl (duration * fl (Q2Qc 0.85)) < last_start)%Qc
    then <[(num_segments - 1)%nat := "outro"]> labels else labels in
  Ok labels.

(** Step 3: the most repeated cluster is the chorus, the runner-up the
    verse, each only when it occurs more than once. *)
Definition label_by_cluster (cluster_labels : list Z)
    (cluster_counts : list (Z * Z)) (labels : list string)
    : result (list string) :=
  match cluster_counts with
  | [] => Ok labels
  | first :: rest =>
      let most_common_cluster := most_common first rest in
      let second_common :=
        if decide (1 < len cluster_counts) then
          match sorted_by_count cluster_counts !! 1%nat with
          | Some kc => Some kc.1
          | None => None
          end
        else None in
      for_in (enumerate cluster_labels)
        (λ labels '(i, cl),
           current ← getitem labels i;
           if decide (current = "unknown") then
             if decide (cl = most_common_cluster) then
               c ← count_of cluster_counts cl;
               if decide (1 < c) then Ok (<[Z.to_nat i := "chorus"]> labels)
               else
                 match second_common with
                 | Some second =>
                     if decide (cl = second) then
                       c ← count_of cluster_counts cl;
                       if decide (1 < c)
                       then Ok (<[Z.to_nat i := "verse"]> labels)
                       else Ok labels
                     else Ok labels
                 | None => Ok labels
                 end
             else
               match second_common with
               | Some second =>
                   if decide (cl = second) then
                     c ← count_of cluster_counts cl;
                     if decide (1 < c)
                     then Ok (<[Z.to_nat i := "verse"]> labels)
                     else Ok labels
                   else Ok labels
               | None => Ok labels
               end
           else Ok labels)
        labels
  end.

(** The label of a segment by its normalised midpoint [pos]. *)
Definition label_of_position (pos : Np.scalar) : string :=
  if Np.lt pos (fl (Q2Qc 0.15)) then "intro"
  else if Np.gt pos (fl (Q2Qc 0.9)) then "outro"
  else if Np.gt pos (fl (Q2Qc 0.4)) && Np.lt pos (fl (Q2Qc 0.6)) then "bridge"
  else "verse".

(** Step 4: what is still unknown is labelled by its position in the song. *)
Definition label_remaining (num_segments : nat) (bound_times : list Qc)
    (duration : Qc) (labels : list string) : result (list string) :=
  for_in (range 0 (Z.of_nat num_segments))
    (λ labels i,
       current ← getitem labels i;
       if decide (current = "unknown") then
         s ← getitem bound_times i;
         e ← getitem bound_times (i + 1);
         let pos := Np.round (Np.divide (fl (fl (s + e) / Q2Qc 2))%Qc duration) in
         Ok (<[Z.to_nat i := label_of_position pos]> labels)
       else Ok labels)
    labels.

(** [_label_segments(self, segments, bound_times, duration)]:
    [num_segments] is [len(segments)] and [fit_predict n_clusters] the
    outcome of clustering the segments with KMeans. *)
Definition _label_segments (fit_predict : Z → result (list Z))
    (num_segments : nat) (bound_times : list Qc) (duration : Qc)
    : result (list string) :=
  let labels := replicate num_segments "unknown" in
  if decide (num_segments = 0%nat) then Ok labels
  else
    let cluster_labels :=
      if decide (3 ≤ num_segments)%nat then
        let n_clusters := Z.min 4 (Z.of_nat num_segments) in
        match fit_predict n_clusters with
        | Ok predicted => predicted
        | Raise _ => range 0 (Z.of_nat num_segments)
        end
      else range 0 (Z.of_nat num_segments) in
    let cluster_counts :=
      foldl (λ counts cl, count_one cl counts) [] cluster_labels in
    labels ← label_by_position num_segments bound_times duration labels;
    labels ← label_by_cluster cluster_labels cluster_counts labels;
    label_remaining num_segments bound_times duration labels.

(** The dictionary [analyze_structure] returns. *)
Record structure : Type :=
  Structure { sections : list section; num_sections : Z; duration : Qc }.

Global Instance structure_eq_dec : EqDecision structure.
Proof. solve_decision. Defined.

(** [np.linspace(0, n_frames, num).astype(int)]: a negative [num] is an
    error, no point is the empty array and one point is the start alone;
    from two points on the first entry is 0, the last is [n_frames], set
    without arithmetic, and [interior] holds the truncated points in
    between, which depend on the rounding of the step. *)
Definition linspace_int (n_frames num : Z) (interior : list Z) : result (list Z) :=
  if decide (num < 0) then Raise ValueError
  else if decide (num = 0) then Ok []
  else if decide (num = 1) then Ok [0]
  else Ok ([0] ++ interior ++ [n_frames]).

(** The boundary frames: [agglomerative] is the outcome of
    [librosa.segment.agglomerative(features, num_sections)] and [n_frames]
    is [features.shape[1]]; when the clustering raises, the boundaries are
    uniform. *)
Definition segment_bounds (agglomerative : result (list Z))
    (n_frames num_sections : Z) (interior : list Z) : result (list Z) :=
  match agglomerative with
  | Ok bounds => Ok ([0] ++ bounds ++ [n_frames])
  | Raise _ => linspace_int n_frames (num_sections + 1) interior
  end.

(** [analyze_structure], from the segment boundaries on; [frames_to_time]
    is librosa's and [duration] is [librosa.get_duration(y=y, sr=sr)]. *)
Definition analyze_structure (frames_to_time : Z → Qc)
    (fit_predict : Z → result (list Z)) (agglomerative : result (list Z))
    (n_frames num_sections : Z) (interior : list Z) (duration : Qc)
    : result structure :=
  bound_frames ← segment_bounds agglomerative n_frames num_sections interior;
  let bound_times := frames_to_time <$> bound_frames in
  let num_segments := (length bound_frames - 1)%nat in
  labels ← _label_segments fit_predict num_segments bound_times duration;
  sections ← build_sections bound_times labels;
  Ok (Structure sections (len sections) duration).

End Labelling.

(** ** [backend/audio_processor.py] *)

Module AudioProcessor.

(** The outcome of one iteration of a loop that can [break]. *)
Inductive step (S : Type) : Type := Continue (s : S) | Break (s : S).
Global Arguments Continue {S} s.
Global Arguments Break {S} s.

(** [for x in xs: ...] with [break]. *)
Fixpoint for_in_break {S I : Type} (xs : list I)
    (body : S → I → result (step S)) (s : S) : result S :=
  match xs with
  | [] => Ok s
  | x :: xs' =>
      r ← body s x;
      match r with
      | Continue s' => for_in_break xs' body s'
      | Break s' => Ok s'
      end
  end.

(** [a // b] on integers. *)
Definition floordiv (a b : Z) : result Z :=
  if decide (b = 0) then Raise ZeroDivisionError else Ok (a `div` b).

(** [l[start:stop]] for non-negative [start] and [stop]. *)
Definition slice {A : Type} (l : list A) (start stop : Z) : list A :=
  drop (Z.to_nat start) (take (Z.to_nat stop) l).

(** The decoded samples and their rate, as [librosa.load] returns them. *)
Definition audio : Type := list Qc * Z.

(** [load_audio(self, filepath, sr=22050)] on the cache [self.audio_cache];
    [librosa_load filepath sr] is the outcome of
    [librosa.load(filepath, sr=sr, mono=True)]. *)
Definition load_audio (librosa_load : string → Z → result audio)
    (filepath : string) (sr : Z) (audio_cache : gmap string audio)
    : result audio * gmap string audio :=
  match audio_cache !! filepath with
  | Some cached => (Ok cached, audio_cache)
  | None =>
      match librosa_load filepath sr with
      | Ok loaded => (Ok loaded, <[filepath := loaded]> audio_cache)
      | Raise e => (Raise e, audio_cache)
      end
  end.

(** The dictionary [get_waveform_data] returns. *)
Record waveform : Type :=
  Waveform { peaks_positive : list Qc;
             peaks_negative : list Qc;
             duration : Qc;
             sample_rate : Z;
             num_points : Z }.

(** [get_waveform_data(self, filepath, num_points=2000)], once
    [load_audio] has returned [(y, sr)]; [get_duration y sr] is
    [librosa.get_duration(y=y, sr=sr)]. *)
Definition get_waveform_data (get_duration : list Qc → Z → Qc) (y : list Qc)
    (sr : Z) (num_points : Z) : result waveform :=
  let duration := get_duration y sr in
  samples_per_point ← floordiv (len y) num_points;
  let samples_per_point :=
    if decide (samples_per_point < 1) then 1 else samples_per_point in
  peaks ←
    for_in_break (range 0 num_points)
      (λ '(peaks_positive, peaks_negative) i,
         let start := i * samples_per_point in
         let stop := Z.min (start + samples_per_point) (len y) in
         if decide (len y ≤ start) then Ok (Break (peaks_positive, peaks_negative))
         else
           let segment := slice y start stop in
           top ← Np.max segment;
           let peaks_positive := peaks_positive ++ [top] in
           bottom ← Np.min segment;
           let peaks_negative := peaks_negative ++ [bottom] in
           Ok (Continue (peaks_positive, peaks_negative)))
      ([], []);
  Ok (Waveform peaks.1 peaks.2 duration sr (len peaks.1)).

(** [needle in hay] on strings. *)
Fixpoint contains (needle hay : string) : bool :=
  String.prefix needle hay
  || match hay with
     | EmptyString => false
     | String _ rest => contains needle rest
     end.

(** [cleanup(self, file_id)] *)
Definition cleanup (file_id : string) (audio_cache : gmap string audio)
    : gmap string audio :=
  let keys_to_remove :=
    filter (λ k, contains file_id k = true) (map_to_list audio_cache).*1 in
  foldl (λ cache key, delete key cache) audio_cache keys_to_remove.

End AudioProcessor.

(** ** [backend/app.py]: the other handlers *)

Module Handlers.
Import App.

(** [ALLOWED_EXTENSIONS] *)
Definition ALLOWED_EXTENSIONS : list string :=
  ["mp3"; "wav"; "flac"; "ogg"; "m4a"; "aac"]%string.

(** [c.lower()] on a character; only the letters A to Z change. *)
Definition lower_char (c : ascii) : ascii :=
  let n := nat_of_ascii c in
  if decide (65 <= n <= 90)%nat then ascii_of_nat (n + 32) else c.

(** [s.lower()] *)
Fixpoint lower (s : string) : string :=
  match s with
  | EmptyString => EmptyString
  | String c rest => String (lower_char c) (lower rest)
  end.

(** The part of [s] after its last ['.'], if it has one. *)
Fixpoint after_last_dot (s : string) : option string :=
  match s with
  | EmptyString => None
  | String c rest =>
      match after_last_dot rest with
      | Some ext => Some ext
      | None => if decide (c = "."%char) then Some rest else None
      end
  end.

(** The part of [s] before its last ['.'], if it has one. *)
Fixpoint before_last_dot (s : string) : option string :=
  match s with
  | EmptyString => None
  | String c rest =>
      match before_last_dot rest with
      | Some stem => Some (String c stem)
      | None => if decide (c = "."%char) then Some EmptyString else None
      end
  end.

(** [s.rsplit('.', 1)] *)
Definition rsplit_dot (s : string) : list string :=
  match before_last_dot s, after_last_dot s with
  | Some stem, Some ext => [stem; ext]
  | _, _ => [s]
  end.

(** [allowed_file(filename)] *)
Definition allowed_file (filename : string) : bool :=
  AudioProcessor.contains "." filename
  && match rsplit_dot filename !! 1%nat with
     | Some ext => bool_decide (lower ext ∈ ALLOWED_EXTENSIONS)
     | None => false
     end.

Inductive upload_response : Type :=
| NoFileProvided
| NoFileSelected
| TypeNotAllowed
| UploadFailed
| Uploaded (file_id filename : string) (duration : Qc).

(** [upload_file()]: [file] is the name of [request.files['file']] when the
    request has one; [saved] is the identifier and path
    [save_uploaded_file] returns and [measured] what [get_duration] returns
    for that path, [None] standing for an exception. *)
Definition upload_file (file : option string) (saved : option (string * string))
    (measured : option Qc) (analysis_results : gmap string file_info)
    : upload_response * gmap string file_info :=
  match file with
  | None => (NoFileProvided, analysis_results)
  | Some filename =>
      if decide (filename = ""%string) then (NoFileSelected, analysis_results)
      else if negb (allowed_file filename) then (TypeNotAllowed, analysis_results)
      else
        match saved with
        | None => (UploadFailed, analysis_results)
        | Some (file_id, filepath) =>
            let original_name := filename in
            match measured with
            | None => (UploadFailed, analysis_results)
            | Some duration =>
                (Uploaded file_id original_name duration,
                 <[file_id := FileInfo filepath original_name duration
                                       "uploaded" None None]> analysis_results)
            end
        end
  end.

Inductive status_response : Type :=
| StatusNotFound
| Status (file_id status filename : string) (duration : Qc).

(** [get_status(file_id)] *)
Definition get_status (file_id : string)
    (analysis_results : gmap string file_info) : status_response :=
  match analysis_results !! file_id with
  | None => StatusNotFound
  | Some file_info =>
      Status file_id (status file_info) (filename file_info) (duration file_info)
  end.

Inductive click_response : Type :=
| ClickNotFound
| NotAnalyzed
| Clicks (clicks : list BeatDetector.click) (bpm : Qc).

(** [get_click_track(file_id)] *)
Definition get_click_track (file_id : string)
    (analysis_results : gmap string file_info) : click_response :=
  match analysis_results !! file_id with
  | None => ClickNotFound
  | Some file_info =>
      match info_beats file_info with
      | None => NotAnalyzed
      | Some grid =>
          let beats := beats grid in
          let downbeats := downbeats grid in
          let clicks :=
            BeatDetector.generate_click_track_times beats (Some downbeats) in
          Clicks clicks (bpm grid)
      end
  end.

Inductive delete_response : Type := DeleteNotFound | DeleteFailed | Deleted.

(** [delete_file(file_id)] on the results and the audio cache; [removed] is
    false when [os.remove] raises. *)
Definition delete_file (removed : bool) (file_id : string)
    (analysis_results : gmap string file_info)
    (audio_cache : gmap string AudioProcessor.audio)
    : delete_response * gmap string file_info * gmap string AudioProcessor.audio :=
  match analysis_results !! file_id with
  | None => (DeleteNotFound, analysis_results, audio_cache)
  | Some file_info =>
      if removed then
        let audio_cache := AudioProcessor.cleanup file_id audio_cache in
        (Deleted, delete file_id analysis_results, audio_cache)
      else (DeleteFailed, analysis_results, audio_cache)
  end.

End Handlers.

(** ** Auxiliary definitions of the further proofs *)

Module AuxMore.
Import StructureAnalyzer.

(** [chain a sections b]: the sections follow one another without gap from
    time [a] to time [b]. *)
Fixpoint chain (a : Qc) (sections : list section) (b : Qc) : Prop :=
  match sections with
  | [] => a = b
  | s :: rest => start s = a ∧ chain (end_ s) rest b
  end.

(** The labels [_label_segments] can leave in a slot, and those a slot can
    hold while the heuristic runs. *)
Definition final_label (l : string) : Prop :=
  l ∈ ["intro"; "verse"; "chorus"; "bridge"; "outro"]%string.

Definition draft_label (l : string) : Prop :=
  l = "unknown"%string ∨ final_label l.

(** [keeps_known labels labels']: every slot of [labels] that carries a
    label other than "unknown" carries it in [labels'] too. *)
Definition keeps_known (labels labels' : list string) : Prop :=
  ∀ (i : nat) l, labels !! i = Some l → l ≠ "unknown"%string → labels' !! i = Some l.

(** The cluster labels [_label_segments] works with: those of KMeans when
    there are three segments or more and the clustering returns, one
    cluster per segment otherwise. *)
Definition cluster_labels_of (fit_predict : Z → result (list Z)) (n : nat) : list Z :=
  if decide (3 <= n)%nat then
    match fit_predict (Z.min 4 (Z.of_nat n)) with
    | Ok predicted => predicted
    | Raise _ => range 0 (Z.of_nat n)
    end
  else range 0 (Z.of_nat n).

End AuxMore.

(** * Properties *)

Import BeatDetector StructureAnalyzer Aux.

(** ** Loops, indexing and ranges *)

Section Runtime.
Context {A : Type}.
Implicit Types (l : list A) (x : A).

Lemma range_from_zero (n : nat) : range 0 (Z.of_nat n) = Z.of_nat <$> seq 0 n.
Proof.
  unfold range. rewrite Z.sub_0_r, Nat2Z.id.
  apply list_fmap_ext. intros _ k _. lia.
Qed.

Lemma range_length (a b : Z) : length (range a b) = Z.to_nat (b - a).
Proof. unfold range. by rewrite length_fmap, length_seq. Qed.

Lemma range_lookup (a b : Z) (k : nat) :
  (k < Z.to_nat (b - a))%nat → range a b !! k = Some (a + Z.of_nat k).
Proof.
  intros Hk. unfold range. rewrite list_lookup_fmap, lookup_seq_lt by done.
  done.
Qed.

Lemma getitem_lookup l (i : nat) x :
  l !! i = Some x → getitem l (Z.of_nat i) = Ok x.
Proof.
  intros Hi. unfold getitem.
  destruct (decide (Z.of_nat i < 0)) as [|_]; [lia|].
  destruct (decide (Z.of_nat i < 0)) as [|_]; [lia|].
  by rewrite Nat2Z.id, Hi.
Qed.

Lemma getitem_last l x : last l = Some x → getitem l (-1) = Ok x.
Proof.
  intros Hl. unfold getitem, len.
  assert (0 < length l)%nat.
  { destruct l; [done | simpl; lia]. }
  destruct (decide (-1 < 0)) as [_|]; [|lia].
  destruct (decide (-1 + Z.of_nat (length l) < 0)) as [|_]; [lia|].
  rewrite last_lookup in Hl.
  replace (Z.to_nat (-1 + Z.of_nat (length l))) with (pred (length l)) by lia.
  by rewrite Hl.
Qed.

Lemma getitem_last_nil : getitem (@nil A) (-1) = Raise IndexError.
Proof. reflexivity. Qed.

(** A loop whose body appends [f i] to the accumulator. *)
Lemma for_in_append {I : Type} (f : I → list A) (body : list A → I → result (list A))
    (xs : list I) :
  (∀ acc i, i ∈ xs → body acc i = Ok (acc ++ f i)) →
  ∀ acc, for_in xs body acc = Ok (acc ++ concat (f <$> xs)).
Proof.
  induction xs as [|i xs IH]; intros Hbody acc; simpl.
  - by rewrite app_nil_r.
  - rewrite Hbody by left. simpl.
    rewrite IH by (intros; apply Hbody; by right).
    by rewrite app_assoc.
Qed.

Lemma foldl_snoc {B : Type} (f : B → A) (xs : list B) (acc : list A) :
  foldl (λ acc b, acc ++ [f b]) acc xs = acc ++ (f <$> xs).
Proof.
  revert acc. induction xs as [|b xs IH]; intros acc; simpl.
  - by rewrite app_nil_r.
  - rewrite IH. by rewrite <- app_assoc.
Qed.

Lemma slice_index_lt (n step k : nat) :
  (0 < step)%nat → (k < slice_len n step)%nat → (k * step < n)%nat.
Proof.
  unfold slice_len. intros Hstep Hk.
  assert (S k * step <= n + step - 1)%nat as Hle.
  { etrans; [apply Nat.mul_le_mono_r; exact Hk|].
    rewrite Nat.mul_comm. apply Nat.Div0.mul_div_le. }
  rewrite Nat.mul_succ_l in Hle. lia.
Qed.

Lemma slice_index_ge (n step k : nat) :
  (0 < step)%nat → (slice_len n step <= k)%nat → (n <= k * step)%nat.
Proof.
  unfold slice_len. intros Hstep Hk.
  destruct (decide (n <= k * step)%nat) as [|Hlt]; [done|exfalso].
  assert (S k <= (n + step - 1) / step)%nat; [|lia].
  apply Nat.div_le_lower_bound; [lia|].
  rewrite Nat.mul_comm, Nat.mul_succ_l. lia.
Qed.

Lemma omap_stride_lookup (step : nat) l (n m j : nat) :
  (∀ k, (m <= k < m + n)%nat → is_Some (l !! (k * step)%nat)) →
  (j < n)%nat →
  omap (λ k : nat, l !! (k * step)%nat) (seq m n) !! j
  = l !! ((m + j) * step)%nat.
Proof.
  revert m j. induction n as [|n IH]; intros m j Hm Hj; [lia|]. simpl.
  destruct (Hm m) as [y Hy]; [lia|]. rewrite Hy.
  destruct j as [|j]; simpl.
  - by rewrite Nat.add_0_r.
  - rewrite IH; [|intros; apply Hm; lia|lia]. f_equal. lia.
Qed.

Lemma omap_stride_length (step : nat) l (n m : nat) :
  (∀ k, (m <= k < m + n)%nat → is_Some (l !! (k * step)%nat)) →
  length (omap (λ k : nat, l !! (k * step)%nat) (seq m n)) = n.
Proof.
  revert m. induction n as [|n IH]; intros m Hm; simpl; [done|].
  destruct (Hm m) as [y Hy]; [lia|]. rewrite Hy. simpl.
  rewrite IH; [done|]. intros; apply Hm; lia.
Qed.

Lemma take_stride_length (step : nat) l :
  (0 < step)%nat → length (take_stride step l) = slice_len (length l) step.
Proof.
  intros Hstep. unfold take_stride. apply omap_stride_length.
  intros k Hk. apply lookup_lt_is_Some_2, slice_index_lt; [done|lia].
Qed.

Lemma take_stride_lookup (step : nat) l (k : nat) :
  (0 < step)%nat → (k < slice_len (length l) step)%nat →
  take_stride step l !! k = l !! (k * step)%nat.
Proof.
  intros Hstep Hk. unfold take_stride.
  rewrite omap_stride_lookup; [done| |done].
  intros j Hj. apply lookup_lt_is_Some_2, slice_index_lt; [done|lia].
Qed.

Lemma take_stride_one l : take_stride 1 l = l.
Proof.
  apply list_eq. intros k.
  destruct (decide (k < length l)%nat) as [Hk|Hk].
  - rewrite take_stride_lookup; [by rewrite Nat.mul_1_r|lia|].
    unfold slice_len. rewrite Nat.div_1_r. lia.
  - rewrite !lookup_ge_None_2; [done|lia|].
    rewrite take_stride_length by lia.
    unfold slice_len. rewrite Nat.div_1_r. lia.
Qed.

End Runtime.

(** ** Exact arithmetic: truncation and order *)

Section Numbers.
Local Open Scope Qc_scope.
Implicit Types (x y : Qc) (j k : Z).

Lemma float_le j k : (j ≤ k)%Z → float j ≤ float k.
Proof. intros Hjk. unfold Qcle, float. simpl. by rewrite <- Zle_Qle. Qed.

Lemma float_lt j k : (j < k)%Z → float j < float k.
Proof. intros Hjk. unfold Qclt, float. simpl. by rewrite <- Zlt_Qlt. Qed.

Lemma float_lt_inv j k : float j < float k → (j < k)%Z.
Proof. unfold Qclt, float. simpl. by rewrite <- Zlt_Qlt. Qed.

Lemma float_0 : float 0 = 0.
Proof. by apply Qc_is_canon. Qed.

Lemma float_1 : float 1 = 1.
Proof. by apply Qc_is_canon. Qed.

(** On non-negative values [int] is the floor. *)
Lemma int_floor x : 0 ≤ x → int x = Qfloor x.
Proof.
  destruct x as [[n d] Hc]. unfold Qcle, Qle, int, Qfloor. simpl.
  intros Hn. apply Z.quot_div_nonneg; lia.
Qed.

Lemma float_int_le x : 0 ≤ x → float (int x) ≤ x.
Proof.
  intros Hx. rewrite int_floor by done.
  unfold Qcle, float. simpl. apply Qfloor_le.
Qed.

Lemma lt_float_int_succ x : 0 ≤ x → x < float (int x + 1).
Proof.
  intros Hx. rewrite int_floor by done.
  unfold Qclt, float. simpl. apply Qlt_floor.
Qed.

Lemma int_unique x k : float k ≤ x → x < float (k + 1) → (0 ≤ k)%Z → int x = k.
Proof.
  intros Hlo Hhi Hk.
  assert (0 ≤ x) as Hx.
  { trans (float k); [|done]. rewrite <- float_0. by apply float_le. }
  pose proof (float_int_le x Hx) as H1.
  pose proof (lt_float_int_succ x Hx) as H2.
  assert (float k < float (int x + 1)) as H3%float_lt_inv
    by (eapply Qcle_lt_trans; eauto).
  assert (float (int x) < float (k + 1)) as H4%float_lt_inv
    by (eapply Qcle_lt_trans; eauto).
  lia.
Qed.

Lemma int_pos x : 1 < x → (1 ≤ int x)%Z.
Proof.
  intros Hx.
  assert (0 ≤ x) as H0 by (apply Qclt_le_weak; by trans 1).
  pose proof (lt_float_int_succ x H0) as H2.
  assert (float 1 < float (int x + 1)) as H3%float_lt_inv; [|lia].
  rewrite float_1. by trans x.
Qed.

Lemma div_mul_cancel x y : y ≠ 0 → x / y * y = x.
Proof. intros. field. done. Qed.

(** [int(1.0 / m) = 1] for [0.5 < m < 1.0]. *)
Lemma int_inv_between m : Q2Qc 0.5 < m → m < 1 → int (1 / m) = 1%Z.
Proof.
  intros Hlo Hhi.
  assert (0 < m) as Hpos by (by trans (Q2Qc 0.5)).
  assert (m ≠ 0) as Hne by (intros ->; by apply (Qclt_not_eq 0 0)).
  apply int_unique; [| |lia].
  - rewrite float_1. apply (Qcmult_le_mono_pos_r _ _ m); [done|].
    rewrite div_mul_cancel, Qcmult_1_l by done. by apply Qclt_le_weak.
  - apply Qclt_nge. intros Hge.
    apply (Qcmult_le_mono_pos_r _ _ m) in Hge; [|done].
    rewrite div_mul_cancel in Hge by done.
    apply (Qclt_not_le (Q2Qc 0.5 * float 2) (m * float 2)).
    + apply Qcmult_lt_compat_r; [|done]. rewrite <- float_0. by apply float_lt.
    + replace (Q2Qc 0.5 * float 2) with 1 by (by apply Qc_is_canon).
      by rewrite Qcmult_comm.
Qed.

(** A point of the segment from [a] to [b] is non-negative when its ends
    are. *)
Lemma interp_nonneg a b t : 0 ≤ a → 0 ≤ b → 0 ≤ t → t ≤ 1 → 0 ≤ a + (b - a) * t.
Proof.
  intros Ha Hb Ht0 Ht1.
  replace (a + (b - a) * t) with (a * (1 - t) + b * t) by ring.
  apply Qcplus_nonneg_nonneg; apply Qcmult_nonneg_nonneg; try done.
  apply (Qcplus_le_mono_r _ _ t). ring_simplify. done.
Qed.

Lemma filter_nonneg_all (l : list Qc) :
  Forall (λ b, 0 ≤ b) l → filter (λ b, 0 ≤ b) l = l.
Proof.
  induction 1 as [|b l Hb Hl IH]; [done|].
  rewrite filter_cons_True by done. by rewrite IH.
Qed.

Lemma shift_zero (l : list Qc) : (λ b, b + 0) <$> l = l.
Proof.
  rewrite <- (list_fmap_id l) at 2. apply list_fmap_ext.
  intros _ b _. apply Qcplus_0_r.
Qed.

End Numbers.

(** Closed goals over decidable propositions are settled by evaluation. *)
Ltac by_evaluation := apply (bool_decide_unpack _); vm_compute; exact I.

(** ** Sample runs of the embedded functions *)

Section SampleRuns.
Local Open Scope Qc_scope.

Example adjust_beats_run_densify :
  adjust_beats [Q2Qc 1; Q2Qc 2; Q2Qc 4] 0 (Q2Qc 2.5)
  = Ok [Q2Qc 1; Q2Qc 1.4; Q2Qc 2; Q2Qc 2.8; Q2Qc 4].
Proof. by_evaluation. Qed.

(** A negative multiplier gives a negative stride: [int(1.0 / -0.3)] is -3
    and [beats[::-3]] walks backwards from the last beat. *)
Example adjust_beats_run_negative_stride :
  adjust_beats [Q2Qc 1; Q2Qc 2; Q2Qc 3; Q2Qc 4; Q2Qc 5] 0 (Q2Qc (-0.3))
  = Ok [Q2Qc 5; Q2Qc 2].
Proof. by_evaluation. Qed.

(** [int(1.0 / -3.0)] is 0, and a zero slice step raises. *)
Example adjust_beats_run_zero_stride :
  adjust_beats [Q2Qc 1; Q2Qc 2] 0 (Q2Qc (-3)) = Raise ValueError.
Proof. by_evaluation. Qed.

Example adjust_beats_run_zero_multiplier :
  adjust_beats [Q2Qc 1; Q2Qc 2] 0 0 = Raise ZeroDivisionError.
Proof. by_evaluation. Qed.

(** With no beat, [beats[-1]] raises on the densifying branch. *)
Example adjust_beats_run_empty :
  adjust_beats [] 0 (Q2Qc 2) = Raise IndexError.
Proof. by_evaluation. Qed.

Example click_track_run :
  generate_click_track_times [Q2Qc 1; Q2Qc 2; Q2Qc 3]
                             (Some [Q2Qc 1.005; Q2Qc 2.5])
  = [Click (Q2Qc 1) true; Click (Q2Qc 2) false; Click (Q2Qc 3) false].
Proof. by_evaluation. Qed.

(** Frames at one second each: the envelope rises above 0.7 at frame 1,
    returns to the band at frame 3 and falls below 0.3 at frame 4. *)
Example energy_sections_run :
  detect_energy_sections float
    [Q2Qc 0.5; Q2Qc 0.8; Q2Qc 0.9; Q2Qc 0.5; Q2Qc 0.1; Q2Qc 0.2; Q2Qc 0.5]
  = Ok [Section_ (Q2Qc 0) (Q2Qc 1) "verse" "#2196F3";
        Section_ (Q2Qc 1) (Q2Qc 3) "drop" "#F44336";
        Section_ (Q2Qc 3) (Q2Qc 4) "verse" "#2196F3";
        Section_ (Q2Qc 4) (Q2Qc 6) "breakdown" "#00BCD4"].
Proof. by_evaluation. Qed.

End SampleRuns.

(** ** [adjust_beats] *)

Section AdjustBeats.
Local Open Scope Qc_scope.
Implicit Types (beats : list Qc) (offset m : Qc).

(** With the default multiplier only the shift and the filter remain. *)
Lemma adjust_beats_unit_multiplier beats offset :
  adjust_beats beats offset 1
  = Ok (filter (λ b, 0 ≤ b) ((λ b, b + offset) <$> beats)).
Proof. unfold adjust_beats. by rewrite decide_False by (intros H; by apply H). Qed.

(** For a multiplier below 1 whose inverse is a finite float the result is
    the strided slice, filtered. *)
Lemma adjust_beats_decimate beats offset m :
  m < 1 → m ≠ 0 → ¬ float_overflows (1 / m) →
  adjust_beats beats offset m
  = sliced ← slice_step ((λ b, b + offset) <$> beats) (int (1 / m));
    Ok (filter (λ b, 0 ≤ b) sliced).
Proof.
  intros Hlt Hne Hfinite. unfold adjust_beats.
  rewrite decide_True by (by apply Qclt_not_eq).
  rewrite decide_False by (by apply Qcle_not_lt, Qclt_le_weak).
  unfold truediv, int_of_float. rewrite decide_False by done. simpl.
  by rewrite decide_False by done.
Qed.

(** A quotient of magnitude at most 2 is far from overflowing. *)
Lemma float_overflows_small (q : Qc) : - (Q2Qc 2) ≤ q → q ≤ Q2Qc 2 → ¬ float_overflows q.
Proof.
  intros Hlo Hhi Hover. unfold float_overflows in Hover.
  assert (Qcabs q ≤ Q2Qc 2) as Habs by (by apply Qcabs_Qcle_condition).
  assert (Q2Qc (pow2 1024 - pow2 970) ≤ Q2Qc 2) as Hbad by (by etrans).
  revert Hbad. by_evaluation.
Qed.

(** [1.0 / m] lies between 1 and 2 for [0.5 < m < 1.0]. *)
Lemma inv_between m : Q2Qc 0.5 < m → m < 1 → 1 ≤ 1 / m ∧ 1 / m < Q2Qc 2.
Proof.
  intros Hlo Hhi.
  assert (0 < m) as Hpos by (by trans (Q2Qc 0.5)).
  assert (m ≠ 0) as Hne by (intros ->; by apply (Qclt_not_eq 0 0)).
  split.
  - apply (Qcmult_le_mono_pos_r _ _ m); [done|].
    rewrite div_mul_cancel, Qcmult_1_l by done. by apply Qclt_le_weak.
  - apply Qclt_nge. intros Hge.
    apply (Qcmult_le_mono_pos_r _ _ m) in Hge; [|done].
    rewrite div_mul_cancel in Hge by done.
    apply (Qclt_not_le (Q2Qc 0.5 * Q2Qc 2) (m * Q2Qc 2)).
    + apply Qcmult_lt_compat_r; [by_evaluation|done].
    + replace (Q2Qc 0.5 * Q2Qc 2) with 1 by by_evaluation.
      by rewrite Qcmult_comm.
Qed.

Lemma filter_shift_commute beats offset :
  filter (λ b, 0 ≤ b) ((λ b, b + offset) <$> beats)
  = (λ b, b + offset) <$> filter (λ b, 0 ≤ b + offset) beats.
Proof.
  induction beats as [|b beats IH]; [done|]. rewrite fmap_cons.
  destruct (decide (0 ≤ b + offset)) as [Hb|Hb].
  - rewrite !filter_cons_True by done. by rewrite fmap_cons, IH.
  - by rewrite !filter_cons_False by done.
Qed.

End AdjustBeats.

Section AdjustBeatsClaims.
Local Open Scope Qc_scope.
Implicit Types (beats : list Qc) (offset m : Qc).

(** C2, as stated for every list, fails: with offset 0 and multiplier 1 the
  final filter still drops a beat time below zero, so the list [-1.0]
  comes back empty. *)
Lemma adjust_beats_identity_drops_negative :
adjust_beats [Q2Qc (-1)]%list 0 1 = Ok []
∧ adjust_beats [Q2Qc (-1)]%list 0 1 ≠ Ok [Q2Qc (-1)]%list.
Proof. split; by_evaluation. Qed.

(** C2 (amended): for every list of non-negative beat times,
  [adjust_beats(beats, offset=0, multiplier=1.0)] returns a list equal to
  the input list. *)
Theorem adjust_beats_identity beats :
Forall (λ b, 0 ≤ b) beats → adjust_beats beats 0 1 = Ok beats.
Proof.
intros Hnonneg. rewrite adjust_beats_unit_multiplier, shift_zero.
by rewrite filter_nonneg_all.
Qed.

Lemma adjust_beats_identity_witness :
Forall (λ b, 0 ≤ b) [Q2Qc 0; Q2Qc 0.5; Q2Qc 2]
∧ adjust_beats [Q2Qc 0; Q2Qc 0.5; Q2Qc 2] 0 1 = Ok [Q2Qc 0; Q2Qc 0.5; Q2Qc 2].
Proof.
assert (Forall (λ b, 0 ≤ b) [Q2Qc 0; Q2Qc 0.5; Q2Qc 2]) as H
  by (repeat constructor; by_evaluation).
split; [exact H | exact (adjust_beats_identity _ H)].
Defined.

(** C3, as stated, fails: the first shifted value is 1.0 - 1.5 = -0.5, not
  0.0, and the filter drops it, so the result is not [0.0, 0.5, 1.5]. *)
Lemma adjust_beats_example_not_three_elements :
adjust_beats [Q2Qc 1; Q2Qc 2; Q2Qc 3] (Q2Qc (-1.5)) 1
≠ Ok [Q2Qc 0; Q2Qc 0.5; Q2Qc 1.5].
Proof. by_evaluation. Qed.

(** C3 (amended): [adjust_beats([1.0, 2.0, 3.0], offset=-1.5,
  multiplier=1.0)] returns [0.5, 1.5]; the first element, shifted to -0.5,
  is dropped by the negative-time filter. *)
Theorem adjust_beats_example :
adjust_beats [Q2Qc 1; Q2Qc 2; Q2Qc 3] (Q2Qc (-1.5)) 1
= Ok [Q2Qc 0.5; Q2Qc 1.5].
Proof. by_evaluation. Qed.

(** C4: for every list of beat times and every offset [o],
  [adjust_beats(beats, offset=o, multiplier=1.0)] returns, in input order,
  exactly the values [beats[i] + o] of the entries with [beats[i] + o >= 0];
  every value of the output is non-negative, so no shifted value below 0
  occurs in it. *)
Theorem adjust_beats_offset beats o :
∃ out, adjust_beats beats o 1 = Ok out
  ∧ out = (λ b, b + o) <$> filter (λ b, 0 ≤ b + o) beats
  ∧ Forall (λ x, 0 ≤ x) out
  ∧ ∀ x, x < 0 → x ∉ out.
Proof.
rewrite adjust_beats_unit_multiplier.
eexists; split; [done|]. split; [apply filter_shift_commute|].
assert (Forall (λ x, 0 ≤ x) (filter (λ b, 0 ≤ b) ((λ b, b + o) <$> beats))) as Hall.
{ apply Forall_forall. by intros x [Hx _]%list_elem_of_filter. }
split; [done|]. intros x Hneg Hin.
rewrite Forall_forall in Hall. by apply (Qclt_not_le x 0), Hall.
Qed.

(** C5, as stated for every list, fails: a kept beat below zero is dropped
  by the final filter, so [-1.0, 2.0] gives the empty list, whose length is
  0 and not ceil(2/2) = 1. *)
Lemma adjust_beats_halve_drops_negative :
adjust_beats [Q2Qc (-1); Q2Qc 2] 0 (Q2Qc 0.5) = Ok []
∧ ¬ ∃ out, adjust_beats [Q2Qc (-1); Q2Qc 2] 0 (Q2Qc 0.5) = Ok out
           ∧ length out = ((2 + 1) / 2)%nat.
Proof.
assert (adjust_beats [Q2Qc (-1); Q2Qc 2] 0 (Q2Qc 0.5) = Ok []) as E
  by by_evaluation.
split; [done|]. intros (out & Hout & Hlen). rewrite E in Hout.
by injection Hout as <-.
Qed.

(** C5 (amended): for every list of beat times whose elements at the even
  indices 0, 2, 4, ... are non-negative,
  [adjust_beats(beats, offset=0, multiplier=0.5)] returns the elements at
  stride 2 starting at index 0 and has length ceil(len(beats)/2). *)
Theorem adjust_beats_halve beats :
(∀ (k : nat) b, beats !! (2 * k)%nat = Some b → 0 ≤ b) →
∃ out, adjust_beats beats 0 (Q2Qc 0.5) = Ok out
  ∧ length out = ((length beats + 1) / 2)%nat
  ∧ ∀ k : nat, (k < length out)%nat → out !! k = beats !! (2 * k)%nat.
Proof.
intros Heven.
rewrite adjust_beats_decimate by by_evaluation.
replace (int (1 / Q2Qc 0.5)) with 2%Z by by_evaluation.
rewrite shift_zero. unfold slice_step.
rewrite decide_False by lia. rewrite decide_True by lia. simpl.
change (Z.to_nat 2) with 2%nat.
assert (slice_len (length beats) 2 = ((length beats + 1) / 2)%nat) as Hlen.
{ unfold slice_len. f_equal. lia. }
rewrite filter_nonneg_all.
- eexists; split; [done|]. rewrite take_stride_length by lia.
  split; [done|]. intros k Hk.
  rewrite take_stride_lookup by lia. f_equal. lia.
- apply Forall_lookup. intros k b Hk.
  assert (k < slice_len (length beats) 2)%nat as Hlt.
  { rewrite <- (take_stride_length 2 beats) by lia. by eapply lookup_lt_Some. }
  rewrite take_stride_lookup in Hk by lia.
  apply (Heven k). by rewrite Nat.mul_comm.
Qed.

Lemma adjust_beats_halve_witness :
∃ out, adjust_beats [Q2Qc 1; Q2Qc (-2); Q2Qc 3] 0 (Q2Qc 0.5) = Ok out
  ∧ length out = ((length [Q2Qc 1; Q2Qc (-2); Q2Qc 3] + 1) / 2)%nat
  ∧ ∀ k : nat, (k < length out)%nat →
      out !! k = [Q2Qc 1; Q2Qc (-2); Q2Qc 3] !! (2 * k)%nat.
Proof.
apply (adjust_beats_halve [Q2Qc 1; Q2Qc (-2); Q2Qc 3]).
intros k b Hb. destruct k as [|[|k]].
- injection Hb as <-. by_evaluation.
- injection Hb as <-. by_evaluation.
- rewrite lookup_ge_None_2 in Hb by (simpl; lia). discriminate Hb.
Defined.

(** C10: for every list of beat times and every multiplier [m] with
  [0.5 < m < 1.0], [adjust_beats(beats, offset=0, multiplier=m)] does not
  decimate: the stride [int(1.0 / m)] is 1, and the output equals the
  output of [adjust_beats(beats, offset=0, multiplier=1.0)], which is the
  input with its negative entries filtered out. *)
Theorem adjust_beats_no_decimation beats m :
Q2Qc 0.5 < m → m < 1 →
truediv 1 m = Ok (1 / m)
∧ int (1 / m) = 1%Z
∧ adjust_beats beats 0 m = adjust_beats beats 0 1
∧ adjust_beats beats 0 m = Ok (filter (λ b, 0 ≤ b) beats).
Proof.
intros Hlo Hhi.
assert (m ≠ 0) as Hne.
{ intros ->. by apply (Qclt_not_le _ _ Hlo). }
pose proof (int_inv_between m Hlo Hhi) as Hstep.
split; [unfold truediv; by rewrite decide_False by done|].
split; [done|].
destruct (inv_between m Hlo Hhi) as [Hone Htwo].
rewrite adjust_beats_unit_multiplier, adjust_beats_decimate; [|done|done|].
2:{ apply float_overflows_small; [|by apply Qclt_le_weak].
    trans 1; [by_evaluation|done]. }
rewrite Hstep, shift_zero. unfold slice_step.
rewrite decide_False by lia. rewrite decide_True by lia. simpl.
change (Z.to_nat 1) with 1%nat. by rewrite take_stride_one.
Qed.

Lemma adjust_beats_no_decimation_witness :
truediv 1 (Q2Qc 0.75) = Ok (1 / Q2Qc 0.75)
∧ int (1 / Q2Qc 0.75) = 1%Z
∧ adjust_beats [Q2Qc 1; Q2Qc (-2); Q2Qc 3] 0 (Q2Qc 0.75)
  = adjust_beats [Q2Qc 1; Q2Qc (-2); Q2Qc 3] 0 1
∧ adjust_beats [Q2Qc 1; Q2Qc (-2); Q2Qc 3] 0 (Q2Qc 0.75)
  = Ok (filter (λ b, 0 ≤ b) [Q2Qc 1; Q2Qc (-2); Q2Qc 3]).
Proof.
apply (adjust_beats_no_decimation [Q2Qc 1; Q2Qc (-2); Q2Qc 3] (Q2Qc 0.75));
  by_evaluation.
Defined.

End AdjustBeatsClaims.

(** ** [adjust_beats] with a multiplier above 1 *)

Section Densify.
Local Open Scope Qc_scope.
Implicit Types (beats : list Qc) (m : Qc).

Lemma concat_singletons {A B : Type} (f : A → B) (xs : list A) :
  concat ((λ x, [f x]%list) <$> xs) = f <$> xs.
Proof. induction xs as [|x xs IH]; [done|]. csimpl. by rewrite IH. Qed.

(** Lookup in a concatenation of blocks of one length. *)
Lemma concat_uniform_lookup {A : Type} (blocks : list (list A)) (k i j : nat) :
  Forall (λ l, length l = k) blocks → (j < k)%nat →
  concat blocks !! (i * k + j)%nat = blocks !! i ≫= (λ l, l !! j).
Proof.
  intros Hall Hj. revert i. induction Hall as [|l blocks Hl _ IH]; intros i.
  - simpl. by rewrite !lookup_nil.
  - destruct i as [|i]; simpl.
    + apply lookup_app_l. lia.
    + rewrite lookup_app_r by lia. rewrite <- IH. f_equal. lia.
Qed.

Lemma concat_uniform_length {A : Type} (blocks : list (list A)) (k : nat) :
  Forall (λ l, length l = k) blocks →
  length (concat blocks) = (length blocks * k)%nat.
Proof.
  induction 1 as [|l blocks Hl _ IH]; [done|].
  simpl. rewrite length_app, IH. lia.
Qed.

Lemma range_elem_of (a b i : Z) : i ∈ range a b → (a ≤ i < b)%Z.
Proof.
  unfold range. intros (k & -> & Hk%elem_of_seq)%list_elem_of_fmap. lia.
Qed.

Lemma getitem_in_range {A : Type} (l : list A) (i : Z) :
  (0 ≤ i < len l)%Z → ∃ x, getitem l i = Ok x ∧ l !! Z.to_nat i = Some x.
Proof.
  unfold len. intros Hi.
  destruct (lookup_lt_is_Some_2 l (Z.to_nat i)) as [x Hx]; [lia|].
  exists x. split; [|done]. rewrite <- (Z2Nat.id i) by lia.
  by apply getitem_lookup.
Qed.

(** The result of [adjust_beats] on the densifying branch, before any
    reasoning about signs. *)
Lemma adjust_beats_densify_blocks beats m :
  1 < m →
  adjust_beats beats 0 m
  = last_beat ← getitem beats (-1);
    Ok (filter (λ b, 0 ≤ b)
          (concat (densify_block beats m <$> range 0 (len beats - 1))
           ++ [last_beat]%list)).
Proof.
  intros Hm.
  assert (m ≠ 0) as Hne.
  { intros ->. by apply (Qclt_not_le 1 0). }
  unfold adjust_beats. rewrite shift_zero.
  rewrite decide_True by (by apply not_eq_sym, Qclt_not_eq).
  rewrite decide_True by done.
  rewrite (for_in_append (densify_block beats m)).
  { simpl. by destruct (getitem beats (-1)). }
  intros acc i [Hi0 Hi1]%range_elem_of.
  destruct (getitem_in_range beats i) as (a & Ha & _); [lia|].
  destruct (getitem_in_range beats (i + 1)) as (b & Hb & _); [lia|].
  unfold densify_block. rewrite Ha, Hb. simpl.
  rewrite (for_in_append (λ j, [a + (b - a) * (float j / m)]%list)).
  - by rewrite concat_singletons, <- app_assoc.
  - intros acc' j _. unfold truediv. by rewrite decide_False by done.
Qed.

End Densify.

Section DensifyClaim.
Local Open Scope Qc_scope.
Implicit Types (beats : list Qc) (m : Qc).

Lemma densify_block_lookup beats m (i : nat) a b :
  beats !! i = Some a → beats !! S i = Some b →
  densify_block beats m (Z.of_nat i)
  = a :: ((λ j, a + (b - a) * (float j / m)) <$> range 1 (int m)).
Proof.
  intros Ha Hb. unfold densify_block.
  rewrite (getitem_lookup _ _ _ Ha).
  replace (Z.of_nat i + 1)%Z with (Z.of_nat (S i)) by lia.
  by rewrite (getitem_lookup _ _ _ Hb).
Qed.

(** The fraction [j / m] of an inserted point lies in the unit interval. *)
Lemma fraction_unit_interval m (j : Z) :
  1 < m → (1 ≤ j < int m)%Z → 0 ≤ float j / m ∧ float j / m ≤ 1.
Proof.
  intros Hm Hj.
  assert (0 < m) as Hpos by (by trans 1).
  assert (m ≠ 0) as Hne by (intros ->; by apply (Qclt_not_le 1 0)).
  split; apply (Qcmult_le_mono_pos_r _ _ m Hpos);
    rewrite div_mul_cancel by done.
  - rewrite Qcmult_0_l, <- float_0. apply float_le. lia.
  - rewrite Qcmult_1_l. trans (float (int m)).
    + apply float_le. lia.
    + by apply float_int_le, Qclt_le_weak.
Qed.

Lemma densify_block_nonneg beats m (i : nat) :
  1 < m → Forall (λ b, 0 ≤ b) beats → (S i < length beats)%nat →
  Forall (λ b, 0 ≤ b) (densify_block beats m (Z.of_nat i))
  ∧ length (densify_block beats m (Z.of_nat i)) = Z.to_nat (int m).
Proof.
  intros Hm Hall Hi.
  destruct (lookup_lt_is_Some_2 beats i) as [a Ha]; [lia|].
  destruct (lookup_lt_is_Some_2 beats (S i)) as [b Hb]; [lia|].
  rewrite (densify_block_lookup _ _ _ _ _ Ha Hb).
  rewrite Forall_lookup in Hall.
  pose proof (Hall _ _ Ha) as Ha0. pose proof (Hall _ _ Hb) as Hb0.
  pose proof (int_pos m Hm) as Hk.
  split.
  - constructor; [done|]. apply Forall_fmap, Forall_forall.
    intros j Hj%range_elem_of. simpl.
    destruct (fraction_unit_interval m j) as [Ht0 Ht1]; [done|lia|].
    by apply interp_nonneg.
  - simpl. rewrite length_fmap, range_length. lia.
Qed.

(** C6: for every list of at least two non-negative beat times and every
    multiplier [m > 1.0], [adjust_beats(beats, offset=0, multiplier=m)]
    succeeds and, with [k = floor(m)], its output has [(len(beats)-1)*k + 1]
    elements: the beat of index [i] stands at position [i*k], the [k - 1]
    positions [i*k + j], [j = 1 .. k-1], between two consecutive beats hold
    the points [beats[i] + (beats[i+1] - beats[i]) * (j / m)], and the last
    element is the last input beat. *)
Theorem adjust_beats_densify beats m :
  (2 ≤ length beats)%nat → Forall (λ b, 0 ≤ b) beats → 1 < m →
  let k := Z.to_nat (Qfloor m) in
  ∃ out, adjust_beats beats 0 m = Ok out
    ∧ length out = ((length beats - 1) * k + 1)%nat
    ∧ (∀ (i : nat) b, beats !! i = Some b → out !! (i * k)%nat = Some b)
    ∧ (∀ (i j : nat) a b,
         beats !! i = Some a → beats !! S i = Some b → (1 ≤ j < k)%nat →
         out !! (i * k + j)%nat
         = Some (a + (b - a) * (float (Z.of_nat j) / m)))
    ∧ last out = last beats.
Proof.
  intros Hlen Hall Hm k.
  assert (0 ≤ m) as Hm0 by (apply Qclt_le_weak; by trans 1).
  assert (k = Z.to_nat (int m)) as Hk by (unfold k; by rewrite int_floor).
  pose proof (int_pos m Hm) as Hk1.
  destruct (last beats) as [last_beat|] eqn:Hlast;
    [|apply last_None in Hlast; subst beats; simpl in Hlen; lia].
  rewrite adjust_beats_densify_blocks by done.
  rewrite (getitem_last _ _ Hlast). simpl.
  set (blocks := densify_block beats m <$> range 0 (len beats - 1)).
  assert (length blocks = (length beats - 1)%nat) as Hblocks.
  { unfold blocks, len. rewrite length_fmap, range_length. lia. }
  assert (∀ i : nat, (S i < length beats)%nat →
            blocks !! i = Some (densify_block beats m (Z.of_nat i))) as Hblock.
  { intros i Hi. unfold blocks. rewrite list_lookup_fmap.
    rewrite range_lookup by (unfold len; lia). simpl. by rewrite Z.add_0_l. }
  assert (Forall (λ l, Forall (λ b, 0 ≤ b) l ∧ length l = k) blocks) as Hgood.
  { apply Forall_lookup. intros i l Hl.
    assert (S i < length beats)%nat as Hi.
    { apply lookup_lt_Some in Hl. lia. }
    rewrite Hblock in Hl by done. injection Hl as <-.
    rewrite Hk. by apply densify_block_nonneg. }
  assert (Forall (λ l, length l = k) blocks) as Huniform.
  { eapply Forall_impl; [exact Hgood|]. by intros l [_ ?]. }
  assert (0 ≤ last_beat) as Hlast0.
  { rewrite last_lookup in Hlast. rewrite Forall_lookup in Hall. eauto. }
  rewrite filter_nonneg_all.
  2:{ apply Forall_app. split; [|by repeat constructor].
      apply Forall_concat. eapply Forall_impl; [exact Hgood|]. by intros l [? _]. }
  eexists; split; [done|].
  pose proof (concat_uniform_length blocks k Huniform) as Hclen.
  rewrite Hblocks in Hclen.
  split; [rewrite length_app, Hclen; simpl; lia|].
  split; [|split].
  - intros i b Hb.
    destruct (decide (S i < length beats)%nat) as [Hi|Hi].
    + rewrite lookup_app_l.
      2:{ rewrite Hclen. apply lookup_lt_Some in Hb. nia. }
      replace (i * k)%nat with (i * k + 0)%nat by lia.
      rewrite concat_uniform_lookup by (done || lia).
      rewrite Hblock by done. simpl.
      destruct (lookup_lt_is_Some_2 beats (S i)) as [b' Hb']; [lia|].
      by rewrite (densify_block_lookup _ _ _ _ _ Hb Hb').
    + apply lookup_lt_Some in Hb as Hi'.
      assert (i = (length beats - 1)%nat) as -> by lia.
      rewrite lookup_app_r by lia. rewrite Hclen, Nat.sub_diag. simpl.
      rewrite last_lookup in Hlast.
      replace (pred (length beats)) with (length beats - 1)%nat in Hlast by lia.
      congruence.
  - intros i j a b Ha Hb Hj.
    apply lookup_lt_Some in Hb as Hi.
    rewrite lookup_app_l by (rewrite Hclen; nia).
    rewrite concat_uniform_lookup by (done || lia).
    rewrite Hblock by done. simpl.
    rewrite (densify_block_lookup _ _ _ _ _ Ha Hb).
    destruct j as [|j]; [lia|]. simpl.
    rewrite list_lookup_fmap, range_lookup by lia. simpl.
    by replace (1 + Z.of_nat j)%Z with (Z.of_nat (S j)) by lia.
  - by rewrite last_snoc.
Qed.

Lemma adjust_beats_densify_witness :
  let k := Z.to_nat (Qfloor (Q2Qc 2.5)) in
  ∃ out, adjust_beats [Q2Qc 1; Q2Qc 2; Q2Qc 4] 0 (Q2Qc 2.5) = Ok out
    ∧ length out = ((length [Q2Qc 1; Q2Qc 2; Q2Qc 4] - 1) * k + 1)%nat
    ∧ (∀ (i : nat) b, [Q2Qc 1; Q2Qc 2; Q2Qc 4] !! i = Some b →
         out !! (i * k)%nat = Some b)
    ∧ (∀ (i j : nat) a b,
         [Q2Qc 1; Q2Qc 2; Q2Qc 4] !! i = Some a →
         [Q2Qc 1; Q2Qc 2; Q2Qc 4] !! S i = Some b → (1 ≤ j < k)%nat →
         out !! (i * k + j)%nat
         = Some (a + (b - a) * (float (Z.of_nat j) / Q2Qc 2.5)))
    ∧ last out = last [Q2Qc 1; Q2Qc 2; Q2Qc 4].
Proof.
  apply (adjust_beats_densify [Q2Qc 1; Q2Qc 2; Q2Qc 4] (Q2Qc 2.5)).
  - simpl. lia.
  - repeat constructor; by_evaluation.
  - by_evaluation.
Defined.

End DensifyClaim.

(** ** [generate_click_track_times] *)

Section ClickTrack.
Local Open Scope Qc_scope.

(** The set built from [downbeats] has the elements of the list; a missing
    or empty argument gives the empty set. *)
Lemma downbeat_set_elem_of (downbeats : option (list Qc)) (d : Qc) :
  d ∈ elements (match downbeats with
                | Some (d0 :: ds) => list_to_set (d0 :: ds)
                | _ => ∅
                end : gset Qc)
  ↔ d ∈ default [] downbeats.
Proof.
  rewrite elem_of_elements.
  destruct downbeats as [[|d0 ds]|].
  - set_solver.
  - apply elem_of_list_to_set.
  - set_solver.
Qed.

(** C1, as stated with the distance of the two times, fails at the edge of
    the tolerance.  The beat is the double 0.01 and the downbeat the double
    [2 ^ -61]: their distance is below 0.01, but the difference the code
    computes is rounded back to the double 0.01, which is not below the
    literal 0.01, and the click is not accented. *)
Lemma click_track_tolerance_is_rounded :
  fl (fl (Q2Qc 0.01)) = fl (Q2Qc 0.01)
  ∧ fl (Q2Qc (pow2 (-61))) = Q2Qc (pow2 (-61))
  ∧ Qcabs (fl (Q2Qc 0.01) - Q2Qc (pow2 (-61))) < Q2Qc 0.01
  ∧ Qcabs (fl (Q2Qc 0.01) - Q2Qc (pow2 (-61))) < fl (Q2Qc 0.01)
  ∧ fl (fl (Q2Qc 0.01) - Q2Qc (pow2 (-61))) = fl (Q2Qc 0.01)
  ∧ generate_click_track_times [fl (Q2Qc 0.01)]%list (Some [Q2Qc (pow2 (-61))]%list)
    = [Click (fl (Q2Qc 0.01)) false]%list.
Proof. repeat split; by_evaluation. Qed.

(** C1 (amended): for every list of beat times and every list of downbeat
    times (or none), [generate_click_track_times] returns exactly one click
    event per input beat, in input order: the output has the length of
    [beats], its times are [beats], and the event of a beat is accented if
    and only if for some downbeat [d] the difference [beat - d], rounded to
    a double as the code computes it, has an absolute value below the double
    0.01; downbeats add no event. *)
Theorem click_track_one_per_beat (beats : list Qc) (downbeats : option (list Qc)) :
  let clicks := generate_click_track_times beats downbeats in
  length clicks = length beats
  ∧ time <$> clicks = beats
  ∧ ∀ (i : nat) b, beats !! i = Some b →
      ∃ c, clicks !! i = Some c
        ∧ time c = b
        ∧ (accent c = true
           ↔ ∃ d, d ∈ default [] downbeats
                  ∧ Qcabs (fl (b - d)) < fl (Q2Qc 0.01)).
Proof.
  intros clicks. subst clicks. unfold generate_click_track_times.
  cbv zeta. rewrite foldl_snoc, app_nil_l.
  split; [by rewrite length_fmap|].
  split.
  { rewrite <- list_fmap_compose. rewrite <- (list_fmap_id beats) at 2.
    by apply list_fmap_ext. }
  intros i b Hb. rewrite list_lookup_fmap, Hb. simpl.
  eexists; split; [done|]. split; [done|]. simpl.
  rewrite existsb_exists. split.
  - intros (d & Hd%list_elem_of_In%downbeat_set_elem_of & Hnear%bool_decide_eq_true).
    by exists d.
  - intros (d & Hd & Hnear). exists d. split.
    + by apply list_elem_of_In, downbeat_set_elem_of.
    + by apply bool_decide_eq_true.
Qed.

End ClickTrack.

(** ** [update_beats] *)

Section UpdateBeats.
Import App.
Local Open Scope Qc_scope.

(** What the body of the handler leaves in the entry when the request
    carries ['beats'] and no ['offset']. *)
Lemma update_body_beats_only (info : file_info) (grid : beat_grid)
    (new_beats : list Qc) (new_bpm : option json_scalar) :
  info_beats info = Some grid →
  ∃ tempo r,
    update_body (UpdateRequest (Some new_beats) None new_bpm) info
    = (r,
       FileInfo (filepath info) (filename info) (duration info) (status info)
         (Some (BeatGrid new_beats (take_stride 4 new_beats)
                  ((λ i, i `mod` 4 + 1)%Z <$> range 0 (len new_beats))
                  tempo (time_signature grid) (confidence grid)))
         (info_structure info)).
Proof.
  intros Hgrid. destruct info as [path name dur st g structure].
  simpl in Hgrid. subst g.
  destruct new_bpm as [v|]; [|eexists _, _; reflexivity].
  unfold update_body, when_present, and_then, lift. simpl.
  destruct (to_float v) as [x|e]; eexists _, _; reflexivity.
Qed.

(** A request whose ['bpm'] is [null]: [float()] raises after the beats
    have been stored, the handler answers with the error, and the entry keeps
    the new beats. *)
Example update_beats_run_failure :
  let old := BeatGrid [Q2Qc 0.5; Q2Qc 1.5] [Q2Qc 0.5]%list [1; 2]%Z
                      (Q2Qc 60) "4/4" (Q2Qc 0.9) in
  let info := FileInfo "uploads/a.wav" "a.wav" (Q2Qc 9) "analyzed" (Some old) None in
  let out := update_beats "a" (Some (UpdateRequest (Some [Q2Qc 1; Q2Qc 2])
                                                   None (Some JNull)))
                          {[ "a"%string := info ]} in
  out.1 = Failed TypeError
  ∧ (info_beats <$> out.2 !! "a"%string)
    = Some (Some (BeatGrid [Q2Qc 1; Q2Qc 2] [Q2Qc 1]%list [1; 2]%Z
                           (Q2Qc 60) "4/4" (Q2Qc 0.9))).
Proof. vm_compute. split; reflexivity. Qed.

(** C8: for every list of new beat times supplied to the explicit beat
    update of an analysed file (a request with ['beats'] and no ['offset']),
    the stored beats are the new ones, the stored downbeats are exactly
    every 4th beat starting at index 0 ([ceil(n/4)] of them, the [k]-th being
    [beats[4k]]), and the stored beat numbers are [i mod 4 + 1], cycling
    1, 2, 3, 4 over the beats in order. *)
Theorem update_beats_recomputes_grid (analysis_results : gmap string file_info)
    (file_id : string) (info : file_info) (grid : beat_grid)
    (new_beats : list Qc) (new_bpm : option json_scalar) :
  analysis_results !! file_id = Some info →
  info_beats info = Some grid →
  ∃ info' grid',
    (update_beats file_id (Some (UpdateRequest (Some new_beats) None new_bpm))
                  analysis_results).2 !! file_id = Some info'
    ∧ info_beats info' = Some grid'
    ∧ beats grid' = new_beats
    ∧ length (downbeats grid') = ((length new_beats + 3) / 4)%nat
    ∧ (∀ k : nat, (k < length (downbeats grid'))%nat →
         downbeats grid' !! k = new_beats !! (4 * k)%nat)
    ∧ length (beat_numbers grid') = length new_beats
    ∧ (∀ i : nat, (i < length new_beats)%nat →
         beat_numbers grid' !! i = Some (Z.of_nat i `mod` 4 + 1)%Z).
Proof.
  intros Hinfo Hgrid. unfold update_beats. rewrite Hinfo.
  destruct (update_body_beats_only info grid new_beats new_bpm Hgrid)
    as (tempo & r & ->).
  eexists _, _. split.
  { destruct r; simpl; apply lookup_insert_eq. }
  split; [done|]. simpl. split; [done|].
  assert (slice_len (length new_beats) 4 = ((length new_beats + 3) / 4)%nat) as Hlen.
  { unfold slice_len. f_equal. lia. }
  split; [by rewrite take_stride_length by lia|].
  split.
  { intros k Hk. rewrite take_stride_length in Hk by lia.
    rewrite take_stride_lookup by (done || lia). f_equal. lia. }
  split; [unfold len; rewrite length_fmap, range_length; lia|].
  intros i Hi. rewrite list_lookup_fmap, range_lookup by (unfold len; lia).
  simpl. by rewrite Z.add_0_l.
Qed.

(** The example of C8: beats 1.0 .. 8.0 with downbeats [1.0, 5.0] and beat
    numbers 1,2,3,4,1,2,3,4, read off the general statement. *)
Lemma update_beats_recomputes_grid_witness :
  let new_beats := Q2Qc <$> [1; 2; 3; 4; 5; 6; 7; 8]%Q in
  let old := BeatGrid (Q2Qc <$> [0.5; 1.5; 2.5]%Q) [Q2Qc 0.5]%list [1; 2; 3]%Z
                      (Q2Qc 60) "4/4" (Q2Qc 0.9) in
  let info := FileInfo "uploads/a.wav" "a.wav" (Q2Qc 9) "analyzed" (Some old) None in
  ∃ info' grid',
    (update_beats "a" (Some (UpdateRequest (Some new_beats) None None))
                  {[ "a"%string := info ]}).2 !! "a"%string = Some info'
    ∧ info_beats info' = Some grid'
    ∧ beats grid' = new_beats
    ∧ downbeats grid' = Q2Qc <$> [1; 5]%Q
    ∧ beat_numbers grid' = [1; 2; 3; 4; 1; 2; 3; 4]%Z.
Proof.
  intros new_beats old info.
  destruct (update_beats_recomputes_grid {[ "a"%string := info ]} "a" info old
              new_beats None (lookup_singleton_eq _ _) eq_refl)
    as (info' & grid' & Hstored & Hgrid & Hbeats & Hdlen & Hd & Hnlen & Hn).
  exists info', grid'. do 3 (split; [done|]). split.
  - apply (list_eq_same_length _ _ 2); [done|done|].
    intros k x y Hk Hx Hy. rewrite Hd in Hx by (rewrite Hdlen; done).
    destruct k as [|[|k]]; [| |lia]; vm_compute in Hx, Hy; congruence.
  - apply (list_eq_same_length _ _ 8); [done|done|].
    intros i x y Hi Hx Hy. rewrite Hn in Hx by done.
    do 8 (destruct i as [|i]; [vm_compute in Hx, Hy; congruence|]). lia.
Defined.

End UpdateBeats.

(** ** [detect_energy_sections] *)

Section EnergySections.
Local Open Scope Qc_scope.
Variable frames_to_time : Z → Qc.
Implicit Types (rms_norm : list Qc) (st : scan).

Lemma for_in_app {S I : Type} (xs ys : list I) (body : S → I → result S) (s : S) :
  for_in (xs ++ ys) body s = s' ← for_in xs body s; for_in ys body s'.
Proof.
  revert s. induction xs as [|x xs IH]; intros s; simpl; [done|].
  destruct (body s x) as [s1|e]; simpl; [apply IH|done].
Qed.

Lemma times_getitem (n : nat) (i : Z) :
  (0 ≤ i < Z.of_nat n)%Z →
  getitem (frames_to_time <$> range 0 (Z.of_nat n)) i = Ok (frames_to_time i).
Proof.
  intros Hi. rewrite <- (Z2Nat.id i) at 1 by lia. apply getitem_lookup.
  rewrite list_lookup_fmap, range_lookup by lia. simpl.
  f_equal. f_equal. lia.
Qed.

(** One iteration at frame [i], when the open section started before [i]. *)
Lemma scan_body_step rms_norm st (i : nat) (v : Qc) :
  rms_norm !! i = Some v → (0 ≤ section_start st < Z.of_nat i)%Z →
  scan_body rms_norm (frames_to_time <$> range 0 (len rms_norm)) st (Z.of_nat i)
  = Ok (if decide (next_state (current_state st) v = current_state st) then st
        else Scan (next_state (current_state st) v) (Z.of_nat i)
                  (energy_sections st ++ [closed_section frames_to_time st (Z.of_nat i)]%list)).
Proof.
  intros Hv Hstart. unfold scan_body.
  rewrite (getitem_lookup _ _ _ Hv). simpl.
  destruct (decide (next_state (current_state st) v = current_state st)) as [Heq|Hne].
  - by rewrite decide_False by (by intros ?).
  - rewrite decide_True by done. rewrite decide_True by lia.
    apply lookup_lt_Some in Hv. unfold len.
    rewrite !times_getitem by lia. done.
Qed.

Lemma state_label_ok (c : energy_state) :
  state_label c ∈ ["drop"; "breakdown"; "verse"]%string.
Proof. destruct c; vm_compute; set_solver. Qed.

Lemma scan_upto_succ rms_norm (k : nat) st (v : Qc) :
  scan_upto frames_to_time rms_norm k = Ok st → scan_invariant k st →
  rms_norm !! S k = Some v →
  scan_upto frames_to_time rms_norm (S k)
  = Ok (if decide (next_state (current_state st) v = current_state st) then st
        else Scan (next_state (current_state st) v) (Z.of_nat (S k))
                  (energy_sections st ++ [closed_section frames_to_time st (Z.of_nat (S k))]%list)).
Proof.
  intros Hrun [Hstart _] Hv. unfold scan_upto in *.
  apply lookup_lt_Some in Hv as Hk.
  rewrite (take_S_r _ _ (Z.of_nat (S k))).
  2:{ rewrite range_lookup by (unfold len; lia). f_equal. lia. }
  rewrite for_in_app, Hrun. simpl.
  rewrite (scan_body_step _ _ (S k) v) by (done || lia). done.
Qed.

Lemma scan_upto_invariant rms_norm (k : nat) :
  (k <= length rms_norm - 1)%nat →
  ∃ st, scan_upto frames_to_time rms_norm k = Ok st ∧ scan_invariant k st.
Proof.
  induction k as [|k IH]; intros Hk.
  - exists (Scan normal 0 []). split; [done|]. split; simpl; [lia|constructor].
  - destruct IH as (st & Hrun & Hinv); [lia|].
    destruct (lookup_lt_is_Some_2 rms_norm (S k)) as [v Hv]; [lia|].
    rewrite (scan_upto_succ _ _ _ _ Hrun Hinv Hv).
    eexists; split; [done|]. destruct Hinv as [Hstart Hlabels].
    case_decide; split; simpl; try lia; try done.
    apply Forall_app; split; [done|].
    constructor; [apply state_label_ok|constructor].
Qed.

Lemma scan_upto_all rms_norm :
  scan_upto frames_to_time rms_norm (length rms_norm - 1)
  = for_in (range 1 (len rms_norm))
      (scan_body rms_norm (frames_to_time <$> range 0 (len rms_norm)))
      (Scan normal 0 []).
Proof.
  unfold scan_upto. rewrite take_ge; [done|].
  rewrite range_length. unfold len. lia.
Qed.

Lemma times_getitem_last (n : nat) :
  (0 < n)%nat →
  getitem (frames_to_time <$> range 0 (Z.of_nat n)) (-1)
  = Ok (frames_to_time (Z.of_nat n - 1)).
Proof.
  intros Hn. rewrite <- (times_getitem n (Z.of_nat n - 1)) by lia.
  unfold getitem, len. rewrite length_fmap, range_length.
  rewrite Z.sub_0_r, Nat2Z.id.
  rewrite (decide_True (P := (-1 < 0)%Z)) by lia.
  rewrite (decide_False (P := (Z.of_nat n - 1 < 0)%Z)) by lia.
  by replace (-1 + Z.of_nat n)%Z with (Z.of_nat n - 1)%Z by lia.
Qed.

(** C9: for every input envelope [detect_energy_sections] returns, and
    every section it emits has a label among drop, breakdown and verse.  The
    loop starts in state normal with no section; at every frame [k+1] the
    state becomes [next_state] of the current state and the frame value, and
    when that differs from the current state exactly one section is appended,
    from the start of the open section to the frame, labelled by the state
    being left: high gives "drop", low gives "breakdown", normal gives
    "verse"; otherwise nothing changes.  The trailing section, emitted when
    the open section starts before the last frame, is labelled by the last
    state under the same mapping. *)
Theorem energy_sections_labelled rms_norm :
  let run := scan_upto frames_to_time rms_norm in
  let n := length rms_norm in
  ∃ final sections,
    run 0%nat = Ok (Scan normal 0 [])
    ∧ run (n - 1)%nat = Ok final
    ∧ detect_energy_sections frames_to_time rms_norm = Ok sections
    ∧ Forall (λ s, label s ∈ ["drop"; "breakdown"; "verse"]%string) sections
    ∧ (∀ k : nat, (S k < n)%nat →
         ∃ st st' v,
           run k = Ok st ∧ run (S k) = Ok st' ∧ rms_norm !! S k = Some v
           ∧ current_state st' = next_state (current_state st) v
           ∧ if decide (current_state st' = current_state st) then st' = st
             else section_start st' = Z.of_nat (S k)
                  ∧ ∃ s, energy_sections st' = (energy_sections st ++ [s])%list
                       ∧ label s = state_label (current_state st)
                       ∧ start s = frames_to_time (section_start st)
                       ∧ end_ s = frames_to_time (Z.of_nat (S k)))
    ∧ (if decide (section_start final < Z.of_nat n - 1)%Z
       then ∃ s, sections = (energy_sections final ++ [s])%list
                 ∧ label s = state_label (current_state final)
                 ∧ start s = frames_to_time (section_start final)
                 ∧ end_ s = frames_to_time (Z.of_nat n - 1)
       else sections = energy_sections final)
    ∧ state_label high = "drop"%string
    ∧ state_label low = "breakdown"%string
    ∧ state_label normal = "verse"%string.
Proof.
  intros run n.
  destruct (scan_upto_invariant rms_norm (n - 1)) as (final & Hfinal & Hstart & Hlabels);
    [done|].
  exists final.
  assert (∃ sections,
            detect_energy_sections frames_to_time rms_norm = Ok sections
            ∧ if decide (section_start final < Z.of_nat n - 1)%Z
              then sections
                   = (energy_sections final
                      ++ [closed_section frames_to_time final (Z.of_nat n - 1)])%list
              else sections = energy_sections final) as (sections & Hrun & Htail).
  { unfold detect_energy_sections. rewrite <- scan_upto_all. fold n.
    rewrite Hfinal. simpl.
    assert (len (frames_to_time <$> range 0 (len rms_norm)) = Z.of_nat n) as ->.
    { unfold len. rewrite length_fmap, range_length. lia. }
    destruct (decide (section_start final < Z.of_nat n - 1)%Z) as [Hlt|Hge].
    - unfold len. fold n.
      rewrite (times_getitem n (section_start final)) by lia.
      rewrite times_getitem_last by lia. simpl. eauto.
    - eauto. }
  exists sections. split; [done|]. split; [done|]. split; [done|].
  split.
  { destruct (decide (section_start final < Z.of_nat n - 1)%Z); subst sections;
      [|done].
    apply Forall_app; split; [done|].
    constructor; [apply state_label_ok|constructor]. }
  split.
  { intros k Hk.
    destruct (scan_upto_invariant rms_norm k) as (st & Hst & Hinv); [lia|].
    destruct (lookup_lt_is_Some_2 rms_norm (S k)) as [v Hv]; [done|].
    pose proof (scan_upto_succ _ _ _ _ Hst Hinv Hv) as Hnext.
    eexists st, _, v. split; [done|]. split; [exact Hnext|]. split; [done|].
    destruct (decide (next_state (current_state st) v = current_state st))
      as [Heq|Hne]; simpl.
    - split; [done|]. by rewrite decide_True by done.
    - split; [done|]. rewrite decide_False by done.
      split; [done|]. by eexists. }
  split.
  { destruct (decide (section_start final < Z.of_nat n - 1)%Z); [|done].
    by eexists. }
  done.
Qed.

End EnergySections.

(** ** The section list of [analyze_structure] *)

Section BuildSections.
Implicit Types (bound_times : list Qc) (labels : list string).

(** The sections are cut at the boundary times: section [i] runs from
    [bound_times[i]] to [bound_times[i+1]] and carries [labels[i]]. *)
Lemma build_sections_lookup bound_times labels :
  (length bound_times - 1 <= length labels)%nat →
  ∃ sections, build_sections bound_times labels = Ok sections
    ∧ length sections = (length bound_times - 1)%nat
    ∧ ∀ (i : nat) s, sections !! i = Some s →
        bound_times !! i = Some (start s)
        ∧ bound_times !! S i = Some (end_ s)
        ∧ labels !! i = Some (label s).
Proof.
  intros Hlabels. unfold build_sections.
  set (block := λ i : Z,
         match getitem bound_times i, getitem bound_times (i + 1),
               getitem labels i with
         | Ok s, Ok e, Ok l => [Section_ s e l (section_color l)]
         | _, _, _ => []
         end).
  assert (∀ i : nat, (S i < length bound_times)%nat →
            ∃ s e l, bound_times !! i = Some s ∧ bound_times !! S i = Some e
                     ∧ labels !! i = Some l
                     ∧ block (Z.of_nat i) = [Section_ s e l (section_color l)])
    as Hblock.
  { intros i Hi.
    destruct (lookup_lt_is_Some_2 bound_times i) as [s Hs]; [lia|].
    destruct (lookup_lt_is_Some_2 bound_times (S i)) as [e He]; [lia|].
    destruct (lookup_lt_is_Some_2 labels i) as [l Hl]; [lia|].
    exists s, e, l. do 3 (split; [done|]). unfold block.
    rewrite (getitem_lookup _ _ _ Hs), (getitem_lookup _ _ _ Hl).
    replace (Z.of_nat i + 1)%Z with (Z.of_nat (S i)) by lia.
    by rewrite (getitem_lookup _ _ _ He). }
  rewrite (for_in_append block).
  2:{ intros acc i [Hi0 Hi1]%range_elem_of. unfold len in Hi1.
      destruct (Hblock (Z.to_nat i)) as (s & e & l & Hs & He & Hl & Hb); [lia|].
      rewrite Z2Nat.id in Hb by lia. rewrite Hb.
      rewrite <- (Z2Nat.id i) by lia.
      rewrite (getitem_lookup _ _ _ Hs), (getitem_lookup _ _ _ Hl).
      replace (Z.of_nat (Z.to_nat i) + 1)%Z with (Z.of_nat (S (Z.to_nat i))) by lia.
      by rewrite (getitem_lookup _ _ _ He). }
  eexists; split; [done|]. rewrite app_nil_l.
  assert (length (block <$> range 0 (len bound_times - 1))
          = (length bound_times - 1)%nat) as Hlen.
  { rewrite length_fmap, range_length. unfold len. lia. }
  assert (Forall (λ l, length l = 1%nat) (block <$> range 0 (len bound_times - 1)))
    as Huniform.
  { apply Forall_fmap, Forall_forall. intros i [Hi0 Hi1]%range_elem_of.
    unfold len in Hi1. simpl.
    destruct (Hblock (Z.to_nat i)) as (s & e & l & _ & _ & _ & Hb); [lia|].
    rewrite Z2Nat.id in Hb by lia. by rewrite Hb. }
  split.
  { rewrite (concat_uniform_length _ 1) by done. lia. }
  intros i s Hs.
  assert (i < length bound_times - 1)%nat as Hi.
  { apply lookup_lt_Some in Hs.
    rewrite (concat_uniform_length _ 1) in Hs by done. lia. }
  replace i with (i * 1 + 0)%nat in Hs by lia.
  rewrite (concat_uniform_lookup _ 1) in Hs by (done || lia).
  rewrite list_lookup_fmap, range_lookup in Hs by (unfold len; lia).
  simpl in Hs. rewrite Z.add_0_l in Hs.
  destruct (Hblock i) as (s0 & e & l & Hs0 & He & Hl & Hb); [lia|].
  rewrite Hb in Hs. injection Hs as <-. done.
Qed.

(** Consecutive sections share their boundary; the first starts at the
    first boundary time and the last ends at the last one. *)
Lemma build_sections_contiguous bound_times labels sections :
  build_sections bound_times labels = Ok sections →
  (length bound_times - 1 <= length labels)%nat →
  (∀ (i : nat) s s', sections !! i = Some s → sections !! S i = Some s' →
     end_ s = start s')
  ∧ (∀ s, head sections = Some s → head bound_times = Some (start s))
  ∧ (∀ s, last sections = Some s → last bound_times = Some (end_ s)).
Proof.
  intros Hrun Hlabels.
  destruct (build_sections_lookup bound_times labels Hlabels)
    as (sections' & Hrun' & Hlen & Hcut).
  rewrite Hrun in Hrun'. injection Hrun' as <-.
  split; [|split].
  - intros i s s' Hs Hs'.
    destruct (Hcut _ _ Hs) as (_ & He & _).
    destruct (Hcut _ _ Hs') as (Hs0 & _ & _). congruence.
  - intros s Hs. rewrite head_lookup in Hs.
    destruct (Hcut _ _ Hs) as (Hs0 & _ & _). by rewrite head_lookup.
  - intros s Hs. rewrite last_lookup in Hs.
    destruct (Hcut _ _ Hs) as (_ & He & _). rewrite last_lookup.
    apply lookup_lt_Some in Hs as Hlt.
    replace (pred (length bound_times)) with (S (pred (length sections))) by lia.
    done.
Qed.

End BuildSections.


(** * Further properties of the embedded code *)

(** ** Order reasoning on exact rationals *)

Lemma Qc_eq_this (x y : Qc) : x = y ↔ (this x == this y)%Q.
Proof. split; [by intros -> | apply Qc_is_canon]. Qed.

(** Goals on [Qc] are moved to [Q], where linear arithmetic decides them. *)
Ltac qc_unfold :=
  repeat match goal with
  | H : @eq Qc _ _ |- _ => apply Qc_eq_this in H
  | H : ¬ @eq Qc _ _ |- _ => rewrite Qc_eq_this in H
  | |- @eq Qc _ _ => apply Qc_eq_this
  | |- ¬ @eq Qc _ _ => rewrite Qc_eq_this
  end;
  unfold Qcle, Qclt, Qcminus, Qcdiv, Qcplus, Qcmult, Qcopp, Q2Qc in *;
  cbn [this] in *;
  repeat match goal with
  | H : context [Qred ?q] |- _ => setoid_rewrite (Qred_correct q) in H
  | |- context [Qred ?q] => setoid_rewrite (Qred_correct q)
  end.


(** ** [adjust_beats]: when it raises *)

Section AdjustBeatsMore.
Local Open Scope Qc_scope.
Implicit Types (beats : list Qc) (offset m : Qc).







(** The smallest positive double, [2 ^ -1074], as multiplier: its inverse
    is beyond every double. *)
Example adjust_beats_run_overflow :
  adjust_beats [Q2Qc 1; Q2Qc 2] 0 (Q2Qc (pow2 (-1074))) = Raise OverflowError.
Proof. by_evaluation. Qed.

End AdjustBeatsMore.

(** ** [detect_energy_sections]: the sections as a partition *)

Section EnergyPartition.
Import AuxMore.
Local Open Scope Qc_scope.
Variable frames_to_time : Z → Qc.
Implicit Types (rms_norm : list Qc) (st : scan).

Lemma chain_snoc (a b c : Qc) (sections : list section) (s : section) :
  chain a sections b → start s = b → end_ s = c →
  chain a (sections ++ [s]%list) c.
Proof.
  revert a. induction sections as [|s0 sections IH]; intros a; simpl.
  - intros -> -> ->. done.
  - intros [Hs Hrest] Hb Hc. split; [done|]. by apply IH.
Qed.

Lemma chain_lookup (a b : Qc) (sections : list section) :
  chain a sections b →
  (∀ s, head sections = Some s → start s = a)
  ∧ (∀ (i : nat) s s', sections !! i = Some s → sections !! S i = Some s' →
       end_ s = start s')
  ∧ (∀ s, last sections = Some s → end_ s = b).
Proof.
  revert a. induction sections as [|s0 sections IH]; intros a; simpl.
  - intros _. split; [done|]. split; [|done]. intros i s s' Hs. by rewrite lookup_nil in Hs.
  - intros [Hs0 Hrest]. destruct (IH _ Hrest) as (Hhead & Hadj & Hlast).
    split; [by intros s [= <-]|]. split.
    + intros [|i] s s'; simpl.
      * intros [= <-] Hs'. symmetry. apply Hhead. by rewrite head_lookup.
      * apply Hadj.
    + intros s Hs. destruct sections as [|s1 sections]; simpl in *.
      * injection Hs as <-. done.
      * by apply Hlast.
Qed.

(** Induction over the iterations of the scanning loop. *)
Lemma scan_upto_induction rms_norm (P : nat → scan → Prop) :
  P 0%nat (Scan normal 0 []) →
  (∀ (k : nat) st v,
     (S k < length rms_norm)%nat → scan_invariant k st → P k st →
     rms_norm !! S k = Some v →
     P (S k)
       (if decide (next_state (current_state st) v = current_state st) then st
        else Scan (next_state (current_state st) v) (Z.of_nat (S k))
               (energy_sections st
                ++ [closed_section frames_to_time st (Z.of_nat (S k))]%list))) →
  ∀ k : nat, (k <= length rms_norm - 1)%nat →
    ∃ st, scan_upto frames_to_time rms_norm k = Ok st
          ∧ scan_invariant k st ∧ P k st.
Proof.
  intros Hinit Hstep. induction k as [|k IH]; intros Hk.
  - exists (Scan normal 0 []). split; [done|]. split; [|done].
    split; simpl; [lia|constructor].
  - destruct IH as (st & Hrun & Hinv & HP); [lia|].
    destruct (lookup_lt_is_Some_2 rms_norm (S k)) as [v Hv]; [lia|].
    destruct (scan_upto_invariant frames_to_time rms_norm (S k)) as (st' & Hrun' & Hinv');
      [done|].
    exists st'. split; [done|]. split; [done|].
    rewrite (scan_upto_succ _ _ _ _ _ Hrun Hinv Hv) in Hrun'.
    injection Hrun' as <-. apply Hstep; (done || lia).
Qed.

(** The value [detect_energy_sections] returns, from the final loop state. *)
Lemma detect_energy_sections_final rms_norm (P : nat → scan → Prop) :
  P 0%nat (Scan normal 0 []) →
  (∀ (k : nat) st v,
     (S k < length rms_norm)%nat → scan_invariant k st → P k st →
     rms_norm !! S k = Some v →
     P (S k)
       (if decide (next_state (current_state st) v = current_state st) then st
        else Scan (next_state (current_state st) v) (Z.of_nat (S k))
               (energy_sections st
                ++ [closed_section frames_to_time st (Z.of_nat (S k))]%list))) →
  let n := length rms_norm in
  ∃ final,
    scan_invariant (n - 1) final ∧ P (n - 1)%nat final
    ∧ detect_energy_sections frames_to_time rms_norm
      = Ok (energy_sections final
            ++ (if decide (section_start final < Z.of_nat n - 1)%Z
                then [closed_section frames_to_time final (Z.of_nat n - 1)]%list
                else [])).
Proof.
  intros Hinit Hstep n.
  destruct (scan_upto_induction rms_norm P Hinit Hstep (n - 1))
    as (final & Hfinal & Hinv & HP); [done|].
  exists final. split; [done|]. split; [done|].
  unfold detect_energy_sections. rewrite <- scan_upto_all. fold n.
  rewrite Hfinal. simpl.
  assert (len (frames_to_time <$> range 0 (len rms_norm)) = Z.of_nat n) as ->.
  { unfold len. rewrite length_fmap, range_length. lia. }
  destruct Hinv as [Hstart _].
  destruct (decide (section_start final < Z.of_nat n - 1)%Z) as [Hlt|Hge].
  - unfold len. fold n.
    rewrite (times_getitem frames_to_time n (section_start final)) by lia.
    rewrite times_getitem_last by lia. done.
  - by rewrite app_nil_r.
Qed.

(** For every envelope the emitted sections tile the scanned frames: the
    first starts at the time of frame 0, each ends where the next starts, the
    last ends at the time of the last frame, every section runs from a frame
    to a strictly later one, and an envelope of at least two frames yields at
    least one section. *)
Theorem energy_sections_partition rms_norm :
  let n := length rms_norm in
  ∃ sections,
    detect_energy_sections frames_to_time rms_norm = Ok sections
    ∧ (∀ s, head sections = Some s → start s = frames_to_time 0)
    ∧ (∀ (i : nat) s s', sections !! i = Some s → sections !! S i = Some s' →
         end_ s = start s')
    ∧ (∀ s, last sections = Some s → end_ s = frames_to_time (Z.of_nat n - 1))
    ∧ Forall (λ s, ∃ i j : Z, (0 ≤ i < j)%Z ∧ (j < Z.of_nat n)%Z
                              ∧ start s = frames_to_time i
                              ∧ end_ s = frames_to_time j) sections
    ∧ ((2 <= n)%nat → sections ≠ []).
Proof.
  intros n.
  set (P := λ (k : nat) st,
         chain (frames_to_time 0) (energy_sections st)
               (frames_to_time (section_start st))
         ∧ Forall (λ s, ∃ i j : Z, (0 ≤ i < j)%Z ∧ (j ≤ Z.of_nat k)%Z
                                   ∧ start s = frames_to_time i
                                   ∧ end_ s = frames_to_time j)
                  (energy_sections st)
         ∧ (energy_sections st = [] → section_start st = 0%Z)).
  destruct (detect_energy_sections_final rms_norm P)
    as (final & [Hstart _] & (Hchain & Hspan & Hzero) & Hrun).
  { split; [done|]. split; [constructor|done]. }
  { intros k st v Hk [Hstart _] (Hchain & Hspan & Hzero) Hv.
    assert (Forall (λ s, ∃ i j : Z, (0 ≤ i < j)%Z ∧ (j ≤ Z.of_nat (S k))%Z
                                    ∧ start s = frames_to_time i
                                    ∧ end_ s = frames_to_time j)
                   (energy_sections st)) as Hspan'.
    { eapply Forall_impl; [exact Hspan|]. intros s (i & j & ? & ? & ?).
      exists i, j. split; [done|]. split; [lia|done]. }
    case_decide; [by split|]. split; [|split]; simpl.
    - by eapply chain_snoc.
    - apply Forall_app. split; [done|]. constructor; [|constructor].
      exists (section_start st), (Z.of_nat (S k)). simpl. repeat split; lia || done.
    - by intros [_ ?]%app_eq_nil. }
  fold n in Hrun.
  eexists. split; [exact Hrun|].
  assert (chain (frames_to_time 0)
            (energy_sections final
             ++ (if decide (section_start final < Z.of_nat n - 1)%Z
                 then [closed_section frames_to_time final (Z.of_nat n - 1)]%list
                 else []))
            (frames_to_time (Z.of_nat n - 1)) ∨ n = 0%nat) as Hall.
  { destruct (decide (n = 0%nat)) as [|Hn]; [by right|left].
    case_decide.
    - by eapply chain_snoc.
    - rewrite app_nil_r. unfold n in *.
      by replace (Z.of_nat (length rms_norm) - 1)%Z with (section_start final) by lia. }
  assert (n = 0%nat → energy_sections final
             ++ (if decide (section_start final < Z.of_nat n - 1)%Z
                 then [closed_section frames_to_time final (Z.of_nat n - 1)]%list
                 else []) = []) as Hempty.
  { intros Hn. rewrite decide_False by lia. rewrite app_nil_r.
    destruct (energy_sections final) as [|s rest]; [done|].
    apply Forall_cons_1 in Hspan as [(i & j & ? & ? & _) _].
    unfold n in Hn. lia. }
  split; [|split; [|split; [|split]]].
  - destruct Hall as [Hall| ->%Hempty]; [|done].
    by apply chain_lookup in Hall as (? & _ & _).
  - destruct Hall as [Hall| ->%Hempty].
    + by apply chain_lookup in Hall as (_ & ? & _).
    + intros i s s' H. by rewrite lookup_nil in H.
  - destruct Hall as [Hall| ->%Hempty]; [|done].
    by apply chain_lookup in Hall as (_ & _ & ?).
  - apply Forall_app. split.
    + eapply Forall_impl; [exact Hspan|]. intros s (i & j & ? & ? & ?).
      exists i, j. split; [done|]. split; [unfold n; lia|done].
    + case_decide; constructor; [|constructor].
      exists (section_start final), (Z.of_nat n - 1)%Z. simpl.
      repeat split; lia || done.
  - intros Hn. case_decide.
    + by intros [_ ?]%app_eq_nil.
    + rewrite app_nil_r. intros Hnil. specialize (Hzero Hnil). lia.
Qed.

End EnergyPartition.

Section EnergyLabels.
Import AuxMore.
Local Open Scope Qc_scope.
Variable frames_to_time : Z → Qc.
Implicit Types (rms_norm : list Qc) (st : scan).

Lemma state_label_inj (c c' : energy_state) :
  state_label c = state_label c' → c = c'.
Proof. by destruct c, c'. Qed.

(** Neighbouring sections never carry the same label: a section is closed
    only when the state changes, and the three states have three labels. *)
Theorem energy_sections_alternate rms_norm :
  ∃ sections,
    detect_energy_sections frames_to_time rms_norm = Ok sections
    ∧ ∀ (i : nat) s s', sections !! i = Some s → sections !! S i = Some s' →
        label s ≠ label s'.
Proof.
  set (differ := λ sections : list section,
         ∀ (i : nat) s s', sections !! i = Some s → sections !! S i = Some s' →
           label s ≠ label s').
  assert (∀ sections s, differ sections →
            (∀ s0, last sections = Some s0 → label s0 ≠ label s) →
            differ (sections ++ [s]%list)) as Hsnoc.
  { intros sections s Hdiff Hlast i s0 s1 H0 H1.
    apply lookup_lt_Some in H1 as Hlen. rewrite length_app in Hlen. simpl in Hlen.
    rewrite lookup_app_l in H0 by lia.
    destruct (decide (S i < length sections)%nat) as [Hi|Hi].
    - rewrite lookup_app_l in H1 by done. by eapply Hdiff.
    - assert (S i = length sections) as Hi' by lia.
      rewrite lookup_app_r, Hi', Nat.sub_diag in H1 by lia.
      injection H1 as <-. apply Hlast. rewrite last_lookup.
      by replace (pred (length sections)) with i by lia. }
  set (P := λ (k : nat) st,
         differ (energy_sections st)
         ∧ ∀ s, last (energy_sections st) = Some s →
                label s ≠ state_label (current_state st)).
  destruct (detect_energy_sections_final frames_to_time rms_norm P)
    as (final & _ & [Hdiff Hlast] & Hrun).
  { split; [|done]. intros i s s' H. simpl in H. discriminate H. }
  { intros k st v _ _ [Hdiff Hlast] _.
    destruct (decide (next_state (current_state st) v = current_state st))
      as [Heq|Hne]; [done|].
    split; simpl.
    - by apply Hsnoc.
    - intros s. rewrite last_snoc. intros [= <-]. simpl.
      by intros ?%state_label_inj. }
  eexists. split; [exact Hrun|]. case_decide.
  - by apply Hsnoc.
  - by rewrite app_nil_r.
Qed.

Lemma for_in_ext {S I : Type} (xs : list I) (body body' : S → I → result S) :
  (∀ s i, i ∈ xs → body s i = body' s i) →
  ∀ s, for_in xs body s = for_in xs body' s.
Proof.
  induction xs as [|x xs IH]; intros Hext s; simpl; [done|].
  rewrite Hext by left. destruct (body' s x); simpl; [|done].
  apply IH. intros; apply Hext. by right.
Qed.

(** The scan never reads entry 0 of the normalised envelope [rms_norm]: it
    starts at index 1, in state normal with the open section at frame 0, so
    two normalised envelopes that differ only at index 0 give the same
    sections.  (The raw energy of frame 0 still reaches the other entries
    through the smoothing and the normalisation, which come before the
    scan.) *)
Theorem energy_sections_ignore_first_frame (v v' : Qc) rms_norm :
  detect_energy_sections frames_to_time (v :: rms_norm)
  = detect_energy_sections frames_to_time (v' :: rms_norm).
Proof.
  unfold detect_energy_sections.
  change (len (v :: rms_norm)) with (len (v' :: rms_norm)).
  erewrite for_in_ext; [done|].
  intros st i [Hi _]%range_elem_of. unfold scan_body.
  assert (getitem (v :: rms_norm) i = getitem (v' :: rms_norm) i) as ->; [|done].
  unfold getitem. change (len (v :: rms_norm)) with (len (v' :: rms_norm)).
  destruct (decide (i < 0)%Z); [lia|]. destruct (decide (i < 0)%Z); [lia|].
  by replace (Z.to_nat i) with (S (Z.to_nat (i - 1))) by lia.
Qed.

End EnergyLabels.

(** ** [_label_segments] and [analyze_structure] *)

Section LabelSegments.
Import Labelling AuxMore.
Local Open Scope Qc_scope.
Implicit Types (labels : list string) (bound_times : list Qc).

(** A loop whose body keeps an invariant indexed by the iteration count. *)
Lemma for_in_invariant {St I : Type} (xs : list I) (body : St → I → result St)
    (Inv : nat → St → Prop) (s0 : St) :
  Inv 0%nat s0 →
  (∀ (k : nat) s x, xs !! k = Some x → Inv k s →
     ∃ s', body s x = Ok s' ∧ Inv (S k) s') →
  ∃ s', for_in xs body s0 = Ok s' ∧ Inv (length xs) s'.
Proof.
  revert Inv s0. induction xs as [|x xs IH]; intros Inv s0 H0 Hstep; simpl.
  - by exists s0.
  - destruct (Hstep 0%nat s0 x) as (s1 & -> & H1); [done|done|]. simpl.
    apply (IH (λ k, Inv (S k))); [done|].
    intros k s y Hy Hs. by apply (Hstep (S k)).
Qed.

Lemma getitem_from_end {A : Type} (l : list A) (k : nat) :
  (0 < k <= length l)%nat →
  ∃ x, getitem l (- Z.of_nat k) = Ok x ∧ l !! (length l - k)%nat = Some x.
Proof.
  intros Hk.
  destruct (lookup_lt_is_Some_2 l (length l - k)) as [x Hx]; [lia|].
  exists x. split; [|done]. unfold getitem, len.
  destruct (decide (- Z.of_nat k < 0)%Z); [|lia].
  destruct (decide (- Z.of_nat k + Z.of_nat (length l) < 0)%Z); [lia|].
  replace (Z.to_nat (- Z.of_nat k + Z.of_nat (length l)))
    with (length l - k)%nat by lia.
  by rewrite Hx.
Qed.

Lemma label_of_position_final (pos : Np.scalar) : final_label (label_of_position pos).
Proof.
  unfold label_of_position, final_label.
  repeat case_match; rewrite !elem_of_cons; tauto.
Qed.

(** Steps 1 and 2 succeed when there are two boundary times; they write
    nothing but "intro" and "outro". *)
Lemma label_by_position_ok (Q : string → Prop) (n : nat) bound_times duration labels :
  Q "intro"%string → Q "outro"%string →
  (2 <= length bound_times)%nat → length labels = n →
  Forall (λ l, l = "unknown"%string ∨ Q l) labels →
  ∃ labels', label_by_position n bound_times duration labels = Ok labels'
    ∧ length labels' = n ∧ Forall (λ l, l = "unknown"%string ∨ Q l) labels'.
Proof.
  intros Hintro Houtro Hbt Hlen Hall. unfold label_by_position.
  destruct (getitem_in_range bound_times 0) as (b0 & -> & _); [unfold len; lia|].
  destruct (getitem_from_end bound_times 2) as (b2 & Hb2 & _); [lia|].
  change (- Z.of_nat 2)%Z with (-2)%Z in Hb2. rewrite Hb2.
  simpl. eexists. split; [done|].
  split; repeat case_decide; rewrite ?length_insert; try done;
    repeat apply Forall_insert; try done; by right.
Qed.

Lemma count_one_keys (cl : Z) (counts : list (Z * Z)) (k : Z) :
  k ∈ (count_one cl counts).*1 ↔ k = cl ∨ k ∈ counts.*1.
Proof.
  induction counts as [|[k0 c0] counts IH]; simpl.
  - rewrite list_elem_of_singleton, elem_of_nil. tauto.
  - case_decide; simpl; rewrite !elem_of_cons; [subst|rewrite IH]; tauto.
Qed.

Lemma cluster_counts_keys (cluster_labels : list Z) (k : Z) :
  k ∈ (foldl (λ counts cl, count_one cl counts) [] cluster_labels).*1
  ↔ k ∈ cluster_labels.
Proof.
  assert (∀ counts,
            k ∈ (foldl (λ counts cl, count_one cl counts) counts cluster_labels).*1
            ↔ k ∈ counts.*1 ∨ k ∈ cluster_labels) as G.
  { induction cluster_labels as [|cl cluster_labels IH]; intros counts; simpl.
    - rewrite elem_of_nil. tauto.
    - rewrite IH, count_one_keys, elem_of_cons. tauto. }
  rewrite G. simpl. rewrite elem_of_nil. tauto.
Qed.

Lemma count_of_key (counts : list (Z * Z)) (cl : Z) :
  cl ∈ counts.*1 → ∃ c, count_of counts cl = Ok c.
Proof.
  intros ([k c] & -> & Hin)%list_elem_of_fmap. unfold count_of.
  destruct (list_find _ counts) as [[i [k' c']]|] eqn:Hfind; [by eexists|].
  apply list_find_None in Hfind. rewrite Forall_forall in Hfind.
  by destruct (Hfind _ Hin).
Qed.

Lemma enumerate_lookup {A : Type} (l : list A) (k : nat) (x : A) :
  l !! k = Some x → enumerate l !! k = Some (Z.of_nat k, x).
Proof. intros Hx. unfold enumerate. by rewrite list_lookup_imap, Hx. Qed.

Lemma enumerate_lookup_inv {A : Type} (l : list A) (k : nat) (p : Z * A) :
  enumerate l !! k = Some p → p.1 = Z.of_nat k ∧ l !! k = Some p.2.
Proof.
  unfold enumerate. rewrite list_lookup_imap.
  destruct (l !! k) as [x|]; simpl; [|done]. by intros [= <-].
Qed.

Lemma keeps_known_insert labels labels' (i : nat) (l : string) :
  keeps_known labels labels' → labels' !! i = Some "unknown"%string →
  keeps_known labels (<[i := l]> labels').
Proof.
  intros Hkeep Hi j l' Hj Hl'.
  destruct (decide (i = j)) as [->|Hne].
  - specialize (Hkeep _ _ Hj Hl'). congruence.
  - rewrite list_lookup_insert_ne by done. by apply Hkeep.
Qed.

(** Step 3 succeeds when there are no more cluster labels than segments. *)
Lemma label_by_cluster_ok (n : nat) (cluster_labels : list Z) labels :
  length labels = n → Forall draft_label labels →
  (length cluster_labels <= n)%nat →
  ∃ labels',
    label_by_cluster cluster_labels
      (foldl (λ counts cl, count_one cl counts) [] cluster_labels) labels
    = Ok labels'
    ∧ length labels' = n ∧ Forall draft_label labels' ∧ keeps_known labels labels'.
Proof.
  intros Hlen Hall Hn. unfold label_by_cluster.
  set (counts := foldl (λ counts cl, count_one cl counts) [] cluster_labels).
  assert (∀ cl, cl ∈ cluster_labels → ∃ c, count_of counts cl = Ok c) as Hcount.
  { intros cl Hcl. apply count_of_key. by apply cluster_counts_keys. }
  clearbody counts.
  destruct counts as [|first rest].
  { exists labels. do 3 (split; [done|]). by intros i l. }
  set (most := most_common first rest).
  set (second := if decide (1 < len (first :: rest))%Z
                 then match sorted_by_count (first :: rest) !! 1%nat with
                      | Some kc => Some kc.1
                      | None => None
                      end
                 else None).
  clearbody most second.
  destruct (for_in_invariant (enumerate cluster_labels)
              (λ labels '(i, cl),
                 current ← getitem labels i;
                 if decide (current = "unknown"%string) then
                   if decide (cl = most) then
                     c ← count_of (first :: rest) cl;
                     if decide (1 < c)%Z then Ok (<[Z.to_nat i := "chorus"%string]> labels)
                     else
                       match second with
                       | Some second =>
                           if decide (cl = second) then
                             c ← count_of (first :: rest) cl;
                             if decide (1 < c)%Z
                             then Ok (<[Z.to_nat i := "verse"%string]> labels)
                             else Ok labels
                           else Ok labels
                       | None => Ok labels
                       end
                   else
                     match second with
                     | Some second =>
                         if decide (cl = second) then
                           c ← count_of (first :: rest) cl;
                           if decide (1 < c)%Z
                           then Ok (<[Z.to_nat i := "verse"%string]> labels)
                           else Ok labels
                         else Ok labels
                     | None => Ok labels
                     end
                 else Ok labels)
              (λ _ s, length s = n ∧ Forall draft_label s ∧ keeps_known labels s)
              labels) as (labels' & Hrun & Hinv).
  { split; [done|]. split; [done|]. by intros i l. }
  { intros k s [i cl] [Hi Hcl]%enumerate_lookup_inv (Hs & Hdraft & Hkeep).
    simpl in Hi, Hcl. subst i.
    apply lookup_lt_Some in Hcl as Hk.
    destruct (lookup_lt_is_Some_2 s k) as [current Hcur]; [lia|].
    rewrite (getitem_lookup _ _ _ Hcur). simpl. rewrite Nat2Z.id.
    destruct (Hcount cl) as [c Hc]; [by eapply list_elem_of_lookup_2|].
    assert (∀ l, final_label l → current = "unknown"%string →
              length (<[k := l]> s) = n ∧ Forall draft_label (<[k := l]> s)
              ∧ keeps_known labels (<[k := l]> s)) as Hset.
    { intros l Hl ->. rewrite length_insert. split; [done|].
      split; [apply Forall_insert; [done|by right]|].
      by apply keeps_known_insert. }
    assert (final_label "chorus") as Hchorus
      by (unfold final_label; rewrite !elem_of_cons; tauto).
    assert (final_label "verse") as Hverse
      by (unfold final_label; rewrite !elem_of_cons; tauto).
    rewrite ?Hc. simpl.
    repeat (case_decide || case_match || rewrite ?Hc || simpl);
      eexists; (split; [reflexivity|]); eauto. }
  exists labels'. by rewrite Hrun.
Qed.

(** Step 4 leaves no slot unknown when every segment has its two boundary
    times; what it writes is a label of [label_of_position]. *)
Lemma label_remaining_ok (Q : string → Prop) (n : nat) bound_times duration labels :
  (∀ pos, Q (label_of_position pos)) →
  length labels = n → Forall (λ l, l = "unknown"%string ∨ Q l) labels →
  (n + 1 <= length bound_times)%nat →
  ∃ labels',
    label_remaining n bound_times duration labels = Ok labels'
    ∧ length labels' = n ∧ Forall Q labels' ∧ keeps_known labels labels'.
Proof.
  intros HQ Hlen Hall Hbt. unfold label_remaining.
  destruct (for_in_invariant (range 0 (Z.of_nat n))
              (λ labels i,
                 current ← getitem labels i;
                 if decide (current = "unknown"%string) then
                   s ← getitem bound_times i;
                   e ← getitem bound_times (i + 1);
                   let pos := Np.round (Np.divide (fl (fl (s + e) / Q2Qc 2)) duration) in
                   Ok (<[Z.to_nat i := label_of_position pos]> labels)
                 else Ok labels)
              (λ k s, length s = n ∧ Forall (λ l, l = "unknown"%string ∨ Q l) s
                      ∧ Forall Q (take k s) ∧ keeps_known labels s)
              labels) as (labels' & Hrun & Hn & _ & Hfinal & Hkeep).
  { split; [done|]. split; [done|]. split; [by rewrite take_0|]. by intros i l. }
  { intros k s i Hi (Hs & Hdraft & Hfinal & Hkeep).
    apply lookup_lt_Some in Hi as Hk. rewrite range_length in Hk.
    rewrite range_lookup in Hi by lia. injection Hi as <-. rewrite Z.add_0_l.
    destruct (lookup_lt_is_Some_2 s k) as [current Hcur]; [lia|].
    rewrite (getitem_lookup _ _ _ Hcur). simpl. rewrite Nat2Z.id.
    destruct (decide (current = "unknown"%string)) as [->|Hknown].
    - destruct (getitem_in_range bound_times (Z.of_nat k)) as (b & -> & _);
        [unfold len; lia|].
      destruct (getitem_in_range bound_times (Z.of_nat k + 1)) as (e & -> & _);
        [unfold len; lia|].
      simpl. eexists. split; [done|].
      pose proof (HQ (Np.round (Np.divide (fl (fl (b + e) / Q2Qc 2)) duration))) as Hl.
      rewrite length_insert. split; [done|].
      split; [apply Forall_insert; [done|by right]|].
      split; [|by apply keeps_known_insert].
      rewrite (take_S_r _ _ (label_of_position (Np.round (Np.divide (fl (fl (b + e) / Q2Qc 2)) duration))))
        by (apply list_lookup_insert_eq; lia).
      rewrite take_insert_ge by lia.
      apply Forall_app. split; [done|]. by constructor.
    - eexists. split; [done|]. split; [done|]. split; [done|]. split; [|done].
      rewrite (take_S_r _ _ current) by done.
      apply Forall_app. split; [done|]. constructor; [|constructor].
      rewrite Forall_lookup in Hdraft. by destruct (Hdraft _ _ Hcur). }
  exists labels'. split; [exact Hrun|]. split; [done|]. split; [|done].
  rewrite range_length in Hfinal.
  by rewrite take_ge in Hfinal by lia.
Qed.

(** The three steps of [_label_segments] in a row. *)
Lemma label_segments_steps (fit_predict : Z → result (list Z)) (n : nat)
    bound_times duration :
  (0 < n)%nat → (n + 1 <= length bound_times)%nat →
  (∀ predicted, fit_predict (Z.min 4 (Z.of_nat n)) = Ok predicted →
     (length predicted <= n)%nat) →
  ∃ labels1 labels2 labels,
    label_by_position n bound_times duration (replicate n "unknown"%string)
    = Ok labels1
    ∧ label_by_cluster (cluster_labels_of fit_predict n)
        (foldl (λ counts cl, count_one cl counts) [] (cluster_labels_of fit_predict n))
        labels1 = Ok labels2
    ∧ label_remaining n bound_times duration labels2 = Ok labels
    ∧ _label_segments fit_predict n bound_times duration = Ok labels
    ∧ length labels1 = n ∧ length labels = n
    ∧ Forall final_label labels
    ∧ keeps_known labels1 labels2 ∧ keeps_known labels2 labels.
Proof.
  intros Hn Hbt Hfit.
  assert (final_label "intro") as Hintro
    by (unfold final_label; rewrite !elem_of_cons; tauto).
  assert (final_label "outro") as Houtro
    by (unfold final_label; rewrite !elem_of_cons; tauto).
  destruct (label_by_position_ok final_label n bound_times duration
              (replicate n "unknown"%string))
    as (labels1 & H1 & Hlen1 & Hall1); [done|done|lia|by rewrite length_replicate| |].
  { apply Forall_replicate. by left. }
  assert (length (cluster_labels_of fit_predict n) <= n)%nat as Hcl.
  { unfold cluster_labels_of. case_decide.
    - destruct (fit_predict _) as [predicted|e] eqn:Hp; [by apply Hfit|].
      rewrite range_length. lia.
    - rewrite range_length. lia. }
  destruct (label_by_cluster_ok n (cluster_labels_of fit_predict n) labels1)
    as (labels2 & H2 & Hlen2 & Hall2 & Hkeep2); [done|done|done|].
  destruct (label_remaining_ok final_label n bound_times duration labels2)
    as (labels & H3 & Hlen3 & Hall3 & Hkeep3);
    [apply label_of_position_final|done|done|done|].
  exists labels1, labels2, labels. do 3 (split; [done|]).
  split; [|done].
  unfold _label_segments. rewrite decide_False by lia.
  fold (cluster_labels_of fit_predict n). rewrite H1. simpl. rewrite H2. simpl.
  done.
Qed.

(** Whenever every segment has its two boundary times and the clustering,
    if it returns, returns at most one cluster label per segment,
    [_label_segments] returns one label per segment and each of them is
    intro, verse, chorus, bridge or outro: no segment is left "unknown". *)
Theorem label_segments_total (fit_predict : Z → result (list Z)) (n : nat)
    bound_times duration :
  (n + 1 <= length bound_times)%nat →
  (∀ predicted, fit_predict (Z.min 4 (Z.of_nat n)) = Ok predicted →
     (length predicted <= n)%nat) →
  ∃ labels,
    _label_segments fit_predict n bound_times duration = Ok labels
    ∧ length labels = n
    ∧ Forall (λ l, l ∈ ["intro"; "verse"; "chorus"; "bridge"; "outro"]%string) labels.
Proof.
  intros Hbt Hfit. destruct n as [|n].
  - exists []. by split.
  - destruct (label_segments_steps fit_predict (S n) bound_times duration)
      as (_ & _ & labels & _ & _ & _ & Hrun & _ & Hlen & Hall & _); [lia|done|done|].
    by exists labels.
Qed.

Lemma label_segments_total_witness :
  ∃ labels,
    _label_segments (λ _, Ok [0; 1; 1; 2]%Z) 4
      (Q2Qc <$> [0; 10; 40; 70; 90]%Q) (Q2Qc 90) = Ok labels
    ∧ length labels = 4%nat
    ∧ Forall (λ l, l ∈ ["intro"; "verse"; "chorus"; "bridge"; "outro"]%string) labels.
Proof.
  apply (label_segments_total (λ _, Ok [0; 1; 1; 2]%Z) 4
           (Q2Qc <$> [0; 10; 40; 70; 90]%Q) (Q2Qc 90)).
  - simpl. lia.
  - intros predicted [= <-]. simpl. lia.
Defined.

(** The position rules win over everything that follows: when the start of
    the last segment, [bound_times[-2]], is above [duration * 0.85] the last
    label is "outro", and with two segments or more, when the first boundary
    [bound_times[0]] is below [duration * 0.1] the first label is "intro",
    whatever the clusters are.  The products are the rounded ones the code
    compares with. *)
Theorem label_segments_intro_outro (fit_predict : Z → result (list Z)) (n : nat)
    bound_times duration :
  (0 < n)%nat → (n + 1 <= length bound_times)%nat →
  (∀ predicted, fit_predict (Z.min 4 (Z.of_nat n)) = Ok predicted →
     (length predicted <= n)%nat) →
  ∃ labels,
    _label_segments fit_predict n bound_times duration = Ok labels
    ∧ (∀ b, bound_times !! (length bound_times - 2)%nat = Some b →
         fl (duration * fl (Q2Qc 0.85)) < b → last labels = Some "outro"%string)
    ∧ (∀ b, bound_times !! 0%nat = Some b → b < fl (duration * fl (Q2Qc 0.1)) →
         (2 <= n)%nat → head labels = Some "intro"%string).
Proof.
  intros Hn Hbt Hfit.
  destruct (label_segments_steps fit_predict n bound_times duration)
    as (labels1 & labels2 & labels & H1 & _ & _ & Hrun & Hlen1 & Hlen & _ & Hk2 & Hk3);
    [done|done|done|].
  exists labels. split; [done|].
  unfold label_by_position in H1.
  destruct (getitem_in_range bound_times 0) as (b0 & Hb0 & Hb0'); [unfold len; lia|].
  destruct (getitem_from_end bound_times 2) as (b2 & Hb2 & Hb2'); [lia|].
  change (- Z.of_nat 2)%Z with (-2)%Z in Hb2. rewrite Hb0, Hb2 in H1.
  simpl in H1. injection H1 as H1. split.
  - intros b Hb Hlate.
    assert (b = b2) as -> by congruence.
    rewrite decide_True in H1 by done.
    rewrite last_lookup, Hlen. replace (pred n) with (n - 1)%nat by lia.
    apply Hk3; [|discriminate]. apply Hk2; [|discriminate]. rewrite <- H1.
    apply list_lookup_insert_eq.
    case_decide; rewrite ?length_insert, length_replicate; lia.
  - intros b Hb Hearly Hn2. change (Z.to_nat 0) with 0%nat in Hb0'.
    assert (b = b0) as -> by congruence.
    rewrite (decide_True (P := b0 < fl (duration * fl (Q2Qc 0.1)))) in H1 by done.
    rewrite head_lookup.
    apply Hk3; [|discriminate]. apply Hk2; [|discriminate]. rewrite <- H1.
    case_decide.
    + rewrite list_lookup_insert_ne by lia.
      apply list_lookup_insert_eq. rewrite length_replicate. lia.
    + apply list_lookup_insert_eq. rewrite length_replicate. lia.
Qed.

Lemma label_segments_intro_outro_witness :
  ∃ labels,
    _label_segments (λ _, Ok [0; 1; 1; 2]%Z) 4
      (Q2Qc <$> [0; 10; 40; 80; 90]%Q) (Q2Qc 90) = Ok labels
    ∧ (∀ b, (Q2Qc <$> [0; 10; 40; 80; 90]%Q)
              !! (length (Q2Qc <$> [0; 10; 40; 80; 90]%Q) - 2)%nat = Some b →
         fl (Q2Qc 90 * fl (Q2Qc 0.85)) < b → last labels = Some "outro"%string)
    ∧ (∀ b, (Q2Qc <$> [0; 10; 40; 80; 90]%Q) !! 0%nat = Some b →
         b < fl (Q2Qc 90 * fl (Q2Qc 0.1)) →
         (2 <= 4)%nat → head labels = Some "intro"%string).
Proof.
  apply (label_segments_intro_outro (λ _, Ok [0; 1; 1; 2]%Z) 4
           (Q2Qc <$> [0; 10; 40; 80; 90]%Q) (Q2Qc 90)).
  - lia.
  - simpl. lia.
  - intros predicted [= <-]. simpl. lia.
Defined.

(** Four segments of a song of 90 seconds: the first boundary is below 9 s,
    the last segment starts after 76.5 s, and the cluster that occurs twice
    is the chorus. *)
Example label_segments_run :
  _label_segments (λ _, Ok [0; 1; 1; 2]%Z) 4
                  (Q2Qc <$> [0; 10; 40; 80; 90]%Q) (Q2Qc 90)
  = Ok ["intro"; "chorus"; "chorus"; "outro"]%string.
Proof. by_evaluation. Qed.

Lemma count_one_fresh (cl : Z) (counts : list (Z * Z)) :
  cl ∉ counts.*1 → count_one cl counts = counts ++ [(cl, 1%Z)].
Proof.
  induction counts as [|[k c] counts IH]; simpl; [done|].
  rewrite not_elem_of_cons. intros [Hne Hnot].
  rewrite decide_False by done. by rewrite IH.
Qed.

Lemma cluster_counts_nodup (cluster_labels : list Z) (counts : list (Z * Z)) :
  NoDup cluster_labels → (∀ cl, cl ∈ cluster_labels → cl ∉ counts.*1) →
  foldl (λ counts cl, count_one cl counts) counts cluster_labels
  = counts ++ ((λ cl, (cl, 1%Z)) <$> cluster_labels).
Proof.
  revert counts. induction cluster_labels as [|cl cluster_labels IH];
    intros counts Hnodup Hfresh; simpl.
  - by rewrite app_nil_r.
  - apply NoDup_cons in Hnodup as [Hcl Hnodup].
    rewrite count_one_fresh by (apply Hfresh; left).
    rewrite IH, <- app_assoc; [done|done|].
    intros cl' Hcl'. rewrite fmap_app, elem_of_app. simpl.
    rewrite list_elem_of_singleton. intros [Hin| ->]; [|done].
    by apply (Hfresh cl'); [right|].
Qed.

Lemma count_of_singles (cluster_labels : list Z) (cl : Z) :
  cl ∈ cluster_labels →
  count_of ((λ cl, (cl, 1%Z)) <$> cluster_labels) cl = Ok 1%Z.
Proof.
  unfold count_of. induction cluster_labels as [|x cluster_labels IH]; [by intros ?%elem_of_nil|].
  intros Hin. csimpl. case_decide as Hx; [done|].
  apply elem_of_cons in Hin as [->|Hin]; [done|].
  specialize (IH Hin).
  destruct (list_find _ _) as [[i [k c]]|]; simpl in *; [done|done].
Qed.

(** When no cluster repeats, step 3 changes nothing. *)
Lemma label_by_cluster_singles (cluster_labels : list Z) labels :
  NoDup cluster_labels → (length cluster_labels <= length labels)%nat →
  label_by_cluster cluster_labels
    (foldl (λ counts cl, count_one cl counts) [] cluster_labels) labels
  = Ok labels.
Proof.
  intros Hnodup Hlen. rewrite cluster_counts_nodup by (done || set_solver).
  rewrite app_nil_l. unfold label_by_cluster.
  destruct ((λ cl, (cl, 1%Z)) <$> cluster_labels) as [|first rest] eqn:Hcounts;
    [done|].
  rewrite <- Hcounts.
  set (counts := (λ cl, (cl, 1%Z)) <$> cluster_labels).
  set (most := most_common first rest).
  set (second := if decide (1 < len counts)%Z
                 then match sorted_by_count counts !! 1%nat with
                      | Some kc => Some kc.1
                      | None => None
                      end
                 else None).
  clearbody most second.
  destruct (for_in_invariant (enumerate cluster_labels)
              (λ labels '(i, cl),
                 current ← getitem labels i;
                 if decide (current = "unknown"%string) then
                   if decide (cl = most) then
                     c ← count_of counts cl;
                     if decide (1 < c)%Z then Ok (<[Z.to_nat i := "chorus"%string]> labels)
                     else
                       match second with
                       | Some second =>
                           if decide (cl = second) then
                             c ← count_of counts cl;
                             if decide (1 < c)%Z
                             then Ok (<[Z.to_nat i := "verse"%string]> labels)
                             else Ok labels
                           else Ok labels
                       | None => Ok labels
                       end
                   else
                     match second with
                     | Some second =>
                         if decide (cl = second) then
                           c ← count_of counts cl;
                           if decide (1 < c)%Z
                           then Ok (<[Z.to_nat i := "verse"%string]> labels)
                           else Ok labels
                         else Ok labels
                     | None => Ok labels
                     end
                 else Ok labels)
              (λ _ s, s = labels) labels) as (labels' & Hrun & ->); [done| |exact Hrun].
  intros k s [i cl] [Hi Hcl]%enumerate_lookup_inv ->. simpl in Hi, Hcl. subst i.
  apply lookup_lt_Some in Hcl as Hk.
  destruct (lookup_lt_is_Some_2 labels k) as [current Hcur]; [lia|].
  rewrite (getitem_lookup _ _ _ Hcur). simpl.
  assert (count_of counts cl = Ok 1%Z) as Hc
    by (apply count_of_singles; by eapply list_elem_of_lookup_2).
  exists labels. split; [|done].
  repeat (case_decide || case_match || rewrite ?Hc || simpl); done || lia.
Qed.

Lemma range_NoDup (a b : Z) : NoDup (range a b).
Proof.
  unfold range. apply NoDup_fmap_2; [|apply NoDup_seq].
  intros x y. lia.
Qed.

(** With fewer than three segments KMeans is not consulted and every
    segment is its own cluster, so no label comes from the clusters: each
    segment is labelled by position alone, as intro, outro, bridge or verse,
    and never as chorus. *)
Theorem label_segments_few (fit_predict : Z → result (list Z)) (n : nat)
    bound_times duration :
  (n < 3)%nat → (n + 1 <= length bound_times)%nat →
  ∃ labels,
    _label_segments fit_predict n bound_times duration = Ok labels
    ∧ (∀ other : Z → result (list Z),
         _label_segments other n bound_times duration = Ok labels)
    ∧ length labels = n
    ∧ Forall (λ l, l ∈ ["intro"; "outro"; "bridge"; "verse"]%string) labels.
Proof.
  intros Hn Hbt.
  set (Q := λ l : string, l ∈ ["intro"; "outro"; "bridge"; "verse"]%string).
  assert (∃ labels, (∀ f, _label_segments f n bound_times duration = Ok labels)
                    ∧ length labels = n ∧ Forall Q labels) as (labels & Hrun & Hlen & Hall).
  { destruct n as [|n]; [by exists []|].
    destruct (label_by_position_ok Q (S n) bound_times duration
                (replicate (S n) "unknown"%string))
      as (labels1 & H1 & Hlen1 & Hall1).
    { unfold Q. rewrite !elem_of_cons. tauto. }
    { unfold Q. rewrite !elem_of_cons. tauto. }
    { lia. }
    { by rewrite length_replicate. }
    { apply Forall_replicate. by left. }
    destruct (label_remaining_ok Q (S n) bound_times duration labels1)
      as (labels & H3 & Hlen3 & Hall3 & _); [|done|done|done|].
    { intros pos. unfold Q, label_of_position.
      repeat case_match; rewrite !elem_of_cons; tauto. }
    exists labels. split; [|done]. intros f.
    unfold _label_segments. rewrite decide_False by lia.
    rewrite (decide_False (P := (3 <= S n)%nat)) by lia.
    rewrite H1. simpl.
    rewrite label_by_cluster_singles;
      [done|apply range_NoDup|rewrite range_length; lia]. }
  exists labels. by repeat split.
Qed.

Lemma label_segments_few_witness :
  ∃ labels,
    _label_segments (λ _, Raise ValueError) 2
      (Q2Qc <$> [0; 30; 60]%Q) (Q2Qc 60) = Ok labels
    ∧ (∀ other : Z → result (list Z),
         _label_segments other 2 (Q2Qc <$> [0; 30; 60]%Q) (Q2Qc 60) = Ok labels)
    ∧ length labels = 2%nat
    ∧ Forall (λ l, l ∈ ["intro"; "outro"; "bridge"; "verse"]%string) labels.
Proof.
  apply (label_segments_few (λ _, Raise ValueError) 2
           (Q2Qc <$> [0; 30; 60]%Q) (Q2Qc 60)); simpl; lia.
Defined.

End LabelSegments.

Section AnalyzeStructure.
Import Labelling AuxMore.
Local Open Scope Qc_scope.

Lemma for_in_preserves {St I : Type} (xs : list I) (body : St → I → result St)
    (Inv : St → Prop) (s0 s' : St) :
  Inv s0 →
  (∀ s x s1, x ∈ xs → Inv s → body s x = Ok s1 → Inv s1) →
  for_in xs body s0 = Ok s' → Inv s'.
Proof.
  revert s0. induction xs as [|x xs IH]; intros s0 H0 Hstep; simpl.
  - by intros [= <-].
  - destruct (body s0 x) as [s1|e] eqn:Hbody; simpl; [|done].
    apply IH.
    + eapply Hstep; [left|done|done].
    + intros s y s2 Hy. apply Hstep. by right.
Qed.

(** What a loop that has returned leaves behind, by an invariant indexed by
    the iteration count. *)
Lemma for_in_returned {St I : Type} (xs : list I) (body : St → I → result St)
    (Inv : nat → St → Prop) (s0 s' : St) :
  Inv 0%nat s0 →
  (∀ (k : nat) s x s1, xs !! k = Some x → Inv k s → body s x = Ok s1 →
     Inv (S k) s1) →
  for_in xs body s0 = Ok s' → Inv (length xs) s'.
Proof.
  revert Inv s0. induction xs as [|x xs IH]; intros Inv s0 H0 Hstep; simpl.
  - by intros [= <-].
  - destruct (body s0 x) as [s1|e] eqn:Hbody; simpl; [|done].
    apply (IH (λ k, Inv (S k))).
    + by apply (Hstep 0%nat s0 x).
    + intros k s y s2 Hy. by apply (Hstep (S k)).
Qed.

Lemma getitem_returned {A : Type} (l : list A) (i : Z) (x : A) :
  (0 ≤ i)%Z → getitem l i = Ok x → l !! Z.to_nat i = Some x.
Proof.
  intros Hi. unfold getitem.
  destruct (decide (i < 0)%Z); [lia|]. destruct (decide (i < 0)%Z); [lia|].
  by destruct (l !! Z.to_nat i); intros [= <-].
Qed.

(** Every section carries the colour of its label. *)
Lemma build_sections_colors (bound_times : list Qc) (labels : list string)
    (sections : list section) :
  build_sections bound_times labels = Ok sections →
  Forall (λ s, color s = section_color (label s)) sections.
Proof.
  unfold build_sections. apply for_in_preserves; [constructor|].
  intros acc i acc' _ Hacc Hbody.
  destruct (getitem bound_times i) as [s|]; simpl in Hbody; [|done].
  destruct (getitem bound_times (i + 1)) as [e|]; simpl in Hbody; [|done].
  destruct (getitem labels i) as [l|]; simpl in Hbody; [|done].
  injection Hbody as <-. apply Forall_app. split; [done|]. by repeat constructor.
Qed.

(** Whenever the section loop returns, it has cut one section per pair of
    consecutive boundary times. *)
Lemma build_sections_returned (bound_times : list Qc) (labels : list string)
    (sections : list section) :
  build_sections bound_times labels = Ok sections →
  length sections = (length bound_times - 1)%nat
  ∧ ∀ (i : nat) s, sections !! i = Some s →
      bound_times !! i = Some (start s)
      ∧ bound_times !! S i = Some (end_ s)
      ∧ labels !! i = Some (label s).
Proof.
  unfold build_sections. intros Hrun.
  apply (for_in_returned _ _
           (λ k acc, length acc = k
                     ∧ ∀ (i : nat) s, acc !! i = Some s →
                         bound_times !! i = Some (start s)
                         ∧ bound_times !! S i = Some (end_ s)
                         ∧ labels !! i = Some (label s))) in Hrun.
  - rewrite range_length in Hrun. unfold len in Hrun.
    destruct Hrun as [Hlen Hcut]. split; [lia|done].
  - split; [done|]. intros i s Hs. by rewrite lookup_nil in Hs.
  - intros k acc x acc' Hx [Hlen Hcut] Hbody.
    apply lookup_lt_Some in Hx as Hk. rewrite range_length in Hk.
    rewrite range_lookup in Hx by done. injection Hx as <-.
    rewrite Z.add_0_l in Hbody.
    destruct (getitem bound_times (Z.of_nat k)) as [s|] eqn:Hs;
      simpl in Hbody; [|done].
    destruct (getitem bound_times (Z.of_nat k + 1)) as [e|] eqn:He;
      simpl in Hbody; [|done].
    destruct (getitem labels (Z.of_nat k)) as [l|] eqn:Hl; simpl in Hbody; [|done].
    injection Hbody as <-.
    apply getitem_returned in Hs, He, Hl; [|lia..].
    rewrite Nat2Z.id in Hs, Hl.
    replace (Z.to_nat (Z.of_nat k + 1)) with (S k) in He by lia.
    split; [rewrite length_app; simpl; lia|].
    intros i sec Hsec. destruct (decide (i = k)) as [->|Hik].
    + rewrite <- Hlen in Hsec at 1. rewrite list_lookup_middle in Hsec by done.
      by injection Hsec as <-.
    + apply Hcut. rewrite lookup_app_l in Hsec; [done|].
      apply lookup_lt_Some in Hsec. rewrite length_app in Hsec. simpl in Hsec. lia.
Qed.


(** [analyze_structure] returns when KMeans returns at most one cluster
    label per segment (or raises), with labels that are intro, verse,
    chorus, bridge or outro. *)
Lemma analyze_structure_returns (frames_to_time : Z → Qc)
    (fit_predict : Z → result (list Z)) (agglomerative : result (list Z))
    (n_frames num_sections : Z) (interior bound_frames : list Z) (duration : Qc) :
  segment_bounds agglomerative n_frames num_sections interior = Ok bound_frames →
  (∀ predicted,
     fit_predict (Z.min 4 (Z.of_nat (length bound_frames - 1))) = Ok predicted →
     (length predicted <= length bound_frames - 1)%nat) →
  ∃ labels secs,
    _label_segments fit_predict (length bound_frames - 1)
                    (frames_to_time <$> bound_frames) duration = Ok labels
    ∧ Forall final_label labels
    ∧ build_sections (frames_to_time <$> bound_frames) labels = Ok secs
    ∧ analyze_structure frames_to_time fit_predict agglomerative n_frames
                        num_sections interior duration
      = Ok (Structure secs (len secs) duration).
Proof.
  intros Hbounds Hfit. unfold analyze_structure. rewrite Hbounds. simpl.
  set (n := (length bound_frames - 1)%nat) in *.
  set (bound_times := frames_to_time <$> bound_frames).
  assert (length bound_times = length bound_frames) as Hlen
    by (unfold bound_times; by rewrite length_fmap).
  assert (∃ labels, _label_segments fit_predict n bound_times duration = Ok labels
                    ∧ length labels = n ∧ Forall final_label labels)
    as (labels & Hlabels & Hn & Hfinal).
  { destruct (decide (n = 0%nat)) as [Hn|Hn].
    - rewrite Hn. by exists [].
    - destruct (label_segments_steps fit_predict n bound_times duration)
        as (_ & _ & labels & _ & _ & _ & Hrun & _ & Hl & Hall & _);
        [lia|unfold n in *; lia|done|].
      by exists labels. }
  destruct (build_sections_lookup bound_times labels)
    as (secs & Hsecs & _); [unfold n in *; lia|].
  exists labels, secs. rewrite Hlabels. simpl. rewrite Hsecs. done.
Qed.




(** [analyze_structure] returns for whatever boundaries the segmentation
    (or its uniform fallback) yields, provided KMeans returns at most one
    cluster label per segment: there is one section per pair of consecutive
    boundary frames, [num_sections] is their number, section [i] runs from
    the time of boundary [i] to the time of boundary [i+1], its label is
    intro, verse, chorus, bridge or outro and its colour is the one of its
    label. *)
Theorem analyze_structure_partition (frames_to_time : Z → Qc)
    (fit_predict : Z → result (list Z)) (agglomerative : result (list Z))
    (n_frames num_sections : Z) (interior bound_frames : list Z) (duration : Qc) :
  segment_bounds agglomerative n_frames num_sections interior = Ok bound_frames →
  (∀ predicted,
     fit_predict (Z.min 4 (Z.of_nat (length bound_frames - 1))) = Ok predicted →
     (length predicted <= length bound_frames - 1)%nat) →
  ∃ r,
    analyze_structure frames_to_time fit_predict agglomerative n_frames
                      num_sections interior duration = Ok r
    ∧ length (sections r) = (length bound_frames - 1)%nat
    ∧ Labelling.num_sections r = Z.of_nat (length bound_frames - 1)
    ∧ Labelling.duration r = duration
    ∧ (∀ (i : nat) s, sections r !! i = Some s →
         ∃ f g, bound_frames !! i = Some f ∧ bound_frames !! S i = Some g
                ∧ start s = frames_to_time f ∧ end_ s = frames_to_time g
                ∧ label s ∈ ["intro"; "verse"; "chorus"; "bridge"; "outro"]%string
                ∧ color s = section_color (label s)).
Proof.
  intros Hbounds Hfit.
  destruct (analyze_structure_returns frames_to_time fit_predict agglomerative
              n_frames num_sections interior bound_frames duration Hbounds Hfit)
    as (labels & secs & _ & Hfinal & Hsecs & Hrun).
  pose proof (build_sections_colors _ _ _ Hsecs) as Hcolors.
  apply build_sections_returned in Hsecs as [Hn Hcut].
  rewrite length_fmap in Hn.
  eexists. split; [exact Hrun|]. simpl.
  split; [done|]. split; [unfold len; by rewrite Hn|]. split; [done|].
  intros i s Hs. destruct (Hcut _ _ Hs) as (Hstart & Hend & Hlabel).
  rewrite list_lookup_fmap in Hstart, Hend.
  destruct (bound_frames !! i) as [f|]; [|done].
  destruct (bound_frames !! S i) as [g|]; [|done].
  simpl in Hstart, Hend. injection Hstart as Hstart. injection Hend as Hend.
  exists f, g. do 4 (split; [done|]). split.
  - rewrite Forall_lookup in Hfinal. apply (Hfinal _ _ Hlabel).
  - rewrite Forall_lookup in Hcolors. apply (Hcolors _ _ Hs).
Qed.

Lemma analyze_structure_partition_witness :
  ∃ r,
    analyze_structure float (λ _, Ok [0; 1; 1; 2]%Z) (Raise ValueError) 40 4
                      [10; 20; 30]%Z (Q2Qc 40) = Ok r
    ∧ length (sections r) = (length [0; 10; 20; 30; 40]%Z - 1)%nat
    ∧ Labelling.num_sections r = Z.of_nat (length [0; 10; 20; 30; 40]%Z - 1)
    ∧ Labelling.duration r = Q2Qc 40
    ∧ (∀ (i : nat) s, sections r !! i = Some s →
         ∃ f g, [0; 10; 20; 30; 40]%Z !! i = Some f
                ∧ [0; 10; 20; 30; 40]%Z !! S i = Some g
                ∧ start s = float f ∧ end_ s = float g
                ∧ label s ∈ ["intro"; "verse"; "chorus"; "bridge"; "outro"]%string
                ∧ color s = section_color (label s)).
Proof.
  apply (analyze_structure_partition float (λ _, Ok [0; 1; 1; 2]%Z)
           (Raise ValueError) 40 4 [10; 20; 30]%Z [0; 10; 20; 30; 40]%Z (Q2Qc 40)).
  - reflexivity.
  - intros predicted [= <-]. simpl. lia.
Defined.

End AnalyzeStructure.

Section DetectBeats.
Import Detection.

Lemma slice_len_cons (n s : nat) :
  slice_len (S n) (S s) = S (slice_len (n - s) (S s)).
Proof.
  unfold slice_len. destruct (decide (s ≤ n)%nat) as [Hle|Hgt].
  - replace (S n + S s - 1)%nat with (n + 1 * S s)%nat by lia.
    rewrite Nat.div_add by lia.
    replace (n - s + S s - 1)%nat with n by lia. lia.
  - replace (S n + S s - 1)%nat with (n + 1 * S s)%nat by lia.
    rewrite Nat.div_add by lia.
    rewrite (Nat.div_small n) by lia.
    rewrite (Nat.div_small (n - s + S s - 1)) by lia. lia.
Qed.

(** [l[::step]] keeps the head and continues [step] elements later. *)
Lemma take_stride_cons {A : Type} (s : nat) (x : A) (l : list A) :
  take_stride (S s) (x :: l) = x :: take_stride (S s) (drop s l).
Proof.
  apply (list_eq_same_length _ _ (slice_len (S (length l)) (S s))).
  - cbn [length]. by rewrite take_stride_length, length_drop, slice_len_cons by lia.
  - by rewrite take_stride_length by lia.
  - intros k a b Hk Ha Hb.
    rewrite take_stride_lookup in Ha by (cbn [length]; lia).
    destruct k as [|k]; [simpl in *; congruence|].
    rewrite slice_len_cons in Hk.
    simpl in Hb.
    rewrite (take_stride_lookup (S s) (drop s l) k) in Hb;
      [|lia|rewrite length_drop; lia].
    rewrite lookup_drop in Hb.
    replace (S k * S s)%nat with (S (s + k * S s)) in Ha by lia.
    change (l !! (s + k * S s)%nat = Some a) in Ha.
    congruence.
Qed.

Lemma take_stride_sublist {A : Type} (s : nat) (l : list A) :
  take_stride (S s) l `sublist_of` l.
Proof.
  remember (length l) as n eqn:Hn. revert l Hn.
  induction n as [n IH] using lt_wf_ind. intros l ->.
  destruct l as [|x l].
  { replace (take_stride (S s) (@nil A)) with (@nil A); [done|].
    symmetry. apply nil_length_inv. rewrite take_stride_length by lia.
    unfold slice_len. cbn [length]. apply Nat.div_small. lia. }
  rewrite take_stride_cons. apply sublist_skip.
  etrans; [|apply (sublist_drop l s)].
  apply (IH (length (drop s l))); [rewrite length_drop; simpl; lia|done].
Qed.

Lemma range_step_four (n : nat) :
  range_step 0 (Z.of_nat n) 4 = (λ k : nat, Z.of_nat (k * 4)) <$> seq 0 (slice_len n 4).
Proof.
  unfold range_step, slice_len.
  replace (Z.to_nat ((Z.of_nat n - 0 + 4 - 1) `div` 4)) with ((n + 4 - 1) / 4)%nat.
  - apply list_fmap_ext. intros _ k _. lia.
  - rewrite <- (Nat2Z.id ((n + 4 - 1) / 4)). f_equal.
    rewrite Nat2Z.inj_div. f_equal. lia.
Qed.

(** The two comprehensions that assume 4/4 time never fail; the second one
    is the slice [beats[::4]]. *)
Lemma assume_four_four_slice (beats : list Qc) :
  assume_four_four beats
  = Ok ((λ i, i `mod` 4 + 1) <$> range 0 (len beats), take_stride 4 beats).
Proof.
  unfold assume_four_four, len. rewrite range_step_four.
  destruct (for_in_invariant
              ((λ k : nat, Z.of_nat (k * 4)) <$> seq 0 (slice_len (length beats) 4))
              (λ acc i, b ← getitem beats i; Ok (acc ++ [b]))
              (λ k acc, acc = take k (take_stride 4 beats)) [])
    as (db & -> & Hdb).
  - done.
  - intros k acc i Hi ->.
    rewrite list_lookup_fmap in Hi.
    destruct (seq 0 (slice_len (length beats) 4) !! k) as [j|] eqn:Hj; [|done].
    apply lookup_seq in Hj as [-> Hk]. simpl in Hi. injection Hi as <-.
    destruct (lookup_lt_is_Some_2 (take_stride 4 beats) k) as [b Hb];
      [by rewrite take_stride_length by lia|].
    pose proof Hb as Hb'. rewrite take_stride_lookup in Hb' by (done || lia).
    rewrite (getitem_lookup _ _ _ Hb'). simpl. eexists. split; [done|].
    by rewrite (take_S_r _ _ _ Hb).
  - simpl. f_equal. f_equal. rewrite Hdb, length_fmap, length_seq.
    rewrite <- (take_stride_length 4 beats) by lia. apply firstn_all.
Qed.

Lemma foldl_filter_snoc {A B : Type} (P : A → Prop) `{∀ x, Decision (P x)}
    (f : A → B) (rows : list A) (acc : list B) :
  foldl (λ acc row, if decide (P row) then acc ++ [f row] else acc) acc rows
  = acc ++ (f <$> filter P rows).
Proof.
  revert acc. induction rows as [|row rows IH]; intros acc; simpl.
  - by rewrite app_nil_r.
  - rewrite IH, filter_cons. destruct (decide (P row)); [|done].
    by rewrite <- app_assoc.
Qed.

(** [detect_beats] returns for whatever the trackers deliver, with either
    strategy; the result has one beat number per beat, its downbeats are a
    subsequence of its beats, and the time signature is always 4/4. *)
Theorem detect_beats_invariant (d : detector) (MADMOM_AVAILABLE : bool)
    (tracked : list Qc) (downbeat_info : result (list (Qc * Qc)))
    (tempo : tempo_value) (beat_times : list Qc) :
  ∃ r, detect_beats d MADMOM_AVAILABLE tracked downbeat_info tempo beat_times
       = Ok r
       ∧ length (beat_numbers r) = length (beats r)
       ∧ downbeats r `sublist_of` beats r
       ∧ time_signature r = "4/4"%string.
Proof.
  assert (∀ bs : list Qc,
            length ((λ i, i `mod` 4 + 1) <$> range 0 (len bs)) = length bs) as Hnum.
  { intros bs. rewrite length_fmap, range_length. unfold len. lia. }
  destruct d as [has_downbeat|]; simpl.
  - unfold _detect_beats_madmom.
    destruct has_downbeat; [destruct downbeat_info as [rows|e]|].
    + simpl. eexists. split; [done|]. simpl.
      split; [by rewrite !length_fmap|]. split; [|done].
      rewrite (foldl_filter_snoc (λ row, row.2 = 1%Qc) fst). simpl.
      apply fmap_sublist, sublist_filter.
    + rewrite assume_four_four_slice. simpl. eexists. split; [done|]. simpl.
      split; [apply Hnum|]. split; [apply take_stride_sublist|done].
    + rewrite assume_four_four_slice. simpl. eexists. split; [done|]. simpl.
      split; [apply Hnum|]. split; [apply take_stride_sublist|done].
  - unfold _detect_beats_librosa. rewrite assume_four_four_slice.
    assert (∃ bpm, match tempo with
                   | TempoArray l =>
                       if decide (0 < len l) then getitem l 0 else Ok (Q2Qc 120)
                   | TempoScalar x => Ok x
                   end = Ok bpm) as [bpm ->].
    { destruct tempo as [[|x l]|x]; simpl; eauto. }
    simpl. eexists. split; [done|]. simpl.
    split; [apply Hnum|]. split; [apply take_stride_sublist|done].
Qed.

(** Whenever the downbeat model is not used (librosa, madmom without its
    downbeat processors, or a failing downbeat tracker) the beats are the
    tracked ones, numbered 1, 2, 3, 4, 1, ... from the first beat, and the
    downbeats are every fourth beat starting with the first: downbeat [k] is
    beat [4 k], the beats numbered 1. *)
Theorem detect_beats_four_four (d : detector) (MADMOM_AVAILABLE : bool)
    (tracked : list Qc) (downbeat_info : result (list (Qc * Qc)))
    (tempo : tempo_value) (beat_times : list Qc) :
  let bs := match d with Librosa => beat_times | Madmom _ => tracked end in
  match d, downbeat_info with Madmom true, Ok _ => False | _, _ => True end →
  ∃ r, detect_beats d MADMOM_AVAILABLE tracked downbeat_info tempo beat_times
       = Ok r
       ∧ beats r = bs
       ∧ length (downbeats r) = slice_len (length bs) 4
       ∧ (∀ (i : nat) b, bs !! i = Some b →
            beat_numbers r !! i = Some (Z.of_nat i `mod` 4 + 1)
            ∧ (beat_numbers r !! i = Some 1 ↔ downbeats r !! (i / 4)%nat = Some b
                                               ∧ (i `mod` 4 = 0)%nat)).
Proof.
  intros bs Hpath.
  assert (∀ (i : nat) b, bs !! i = Some b →
            ((λ i, i `mod` 4 + 1) <$> range 0 (len bs)) !! i
              = Some (Z.of_nat i `mod` 4 + 1)
            ∧ (((λ i, i `mod` 4 + 1) <$> range 0 (len bs)) !! i = Some 1
               ↔ take_stride 4 bs !! (i / 4)%nat = Some b ∧ (i `mod` 4 = 0)%nat))
    as Hnum.
  { intros i b Hb. apply lookup_lt_Some in Hb as Hi.
    assert (((λ i, i `mod` 4 + 1) <$> range 0 (len bs)) !! i
            = Some (Z.of_nat i `mod` 4 + 1)) as Hlook.
    { rewrite list_lookup_fmap, range_lookup by (unfold len; lia). done. }
    split; [done|]. rewrite Hlook.
    pose proof (Nat.div_mod_eq i 4) as Hdiv.
    pose proof (Nat.mod_upper_bound i 4) as Hmod.
    assert (Z.of_nat i `mod` 4 = Z.of_nat (i `mod` 4)) as Hz
      by (by rewrite Nat2Z.inj_mod).
    split.
    - intros [= Hone]. assert (i `mod` 4 = 0)%nat as H0 by lia.
      split; [|done]. rewrite take_stride_lookup.
      + rewrite <- Hb. f_equal. lia.
      + lia.
      + unfold slice_len.
        assert ((i + 1 * 4) / 4 ≤ (length bs + 4 - 1) / 4)%nat as Hle
          by (apply Nat.Div0.div_le_mono; lia).
        rewrite Nat.div_add in Hle by lia. lia.
    - intros [_ H0]. f_equal. lia. }
  destruct d as [has_downbeat|]; simpl.
  - unfold _detect_beats_madmom.
    destruct has_downbeat; [destruct downbeat_info as [rows|e]; [done|]|];
      rewrite assume_four_four_slice; simpl; (eexists; split; [done|]); simpl;
      (split; [done|]); (split; [by rewrite take_stride_length by lia|done]).
  - unfold _detect_beats_librosa. rewrite assume_four_four_slice.
    assert (∃ bpm, match tempo with
                   | TempoArray l =>
                       if decide (0 < len l) then getitem l 0 else Ok (Q2Qc 120)
                   | TempoScalar x => Ok x
                   end = Ok bpm) as [bpm ->].
    { destruct tempo as [[|x l]|x]; simpl; eauto. }
    simpl. eexists. split; [done|]. simpl.
    split; [done|]. split; [by rewrite take_stride_length by lia|done].
Qed.

End DetectBeats.

Section DetectBpm.
Import Detection.
Local Open Scope Qc_scope.

Lemma detect_beats_four_four_witness :
  let bs := [Q2Qc 0.5; Q2Qc 1; Q2Qc 1.5; Q2Qc 2; Q2Qc 2.5]%list in
  ∃ r, detect_beats Librosa false []%list (Raise ValueError)
                    (TempoScalar (Q2Qc 120)) bs = Ok r
       ∧ beats r = bs
       ∧ length (downbeats r) = slice_len (length bs) 4
       ∧ (∀ (i : nat) b, bs !! i = Some b →
            beat_numbers r !! i = Some (Z.of_nat i `mod` 4 + 1)%Z
            ∧ (beat_numbers r !! i = Some 1%Z
               ↔ downbeats r !! (i / 4)%nat = Some b ∧ (i `mod` 4 = 0)%nat)).
Proof.
  apply (detect_beats_four_four Librosa false []%list (Raise ValueError)
           (TempoScalar (Q2Qc 120))
           [Q2Qc 0.5; Q2Qc 1; Q2Qc 1.5; Q2Qc 2; Q2Qc 2.5]%list).
  exact I.
Defined.

Lemma half_sum (d : Qc) : (d + d) / Q2Qc 2 = d.
Proof. unfold Qcdiv, Qcinv. qc_unfold. field. Qed.

(** The median of a constant array is the constant. *)
Lemma median_replicate (n : nat) (d : Qc) :
  (0 < n)%nat → Np.median (replicate n d) = Np.Finite d.
Proof.
  intros Hn. unfold Np.median.
  rewrite <- (replicate_Permutation n d (merge_sort Qcle (replicate n d)))
    by (symmetry; apply merge_sort_Permutation).
  rewrite length_replicate.
  destruct (decide (n = 0%nat)) as [|_]; [lia|].
  assert (n / 2 < n)%nat as Hhalf by (apply Nat.div_lt; lia).
  destruct (decide (n `mod` 2 = 1)%nat) as [_|_].
  - by rewrite lookup_replicate_2.
  - rewrite !lookup_replicate_2 by lia. by rewrite half_sum.
Qed.

Lemma diff_uniform (l : list Qc) (d : Qc) :
  (∀ (i : nat) a b, l !! i = Some a → l !! S i = Some b → b - a = d) →
  Np.diff l = replicate (length l - 1) d.
Proof.
  induction l as [|a [|b l] IH]; intros Hl; [done|done|].
  change (Np.diff (a :: b :: l)) with ((b - a) :: Np.diff (b :: l))%list.
  rewrite (Hl 0%nat a b) by done.
  rewrite IH by (intros i; apply (Hl (S i))).
  cbn [length].
  by replace (S (S (length l)) - 1)%nat with (S (S (length l) - 1)) by lia.
Qed.

(** [_detect_beats_madmom] returns on every path, with the tempo of the
    beat tracker's beats. *)
Lemma madmom_bpm (has_downbeat MADMOM_AVAILABLE : bool)
    (tracked : list Qc) (downbeat_info : result (list (Qc * Qc))) :
  ∃ r, _detect_beats_madmom has_downbeat MADMOM_AVAILABLE tracked downbeat_info
       = Ok r
       ∧ bpm r = if decide (1 < len tracked)%Z
                 then Np.divide_by (Q2Qc 60) (Np.median (Np.diff tracked))
                 else Np.Finite (Q2Qc 120).
Proof.
  unfold _detect_beats_madmom.
  destruct has_downbeat; [destruct downbeat_info|];
    rewrite ?assume_four_four_slice; simpl; by eexists.
Qed.

(** With madmom, [bpm] is computed from the beat tracker's beats alone.  For
    two or more beats at a constant spacing [d] it is [60 / d]; when all
    beats coincide ([d = 0]) the numpy division gives infinity instead of
    raising. *)
Theorem detect_beats_bpm_uniform (has_downbeat MADMOM_AVAILABLE : bool)
    (tracked : list Qc) (downbeat_info : result (list (Qc * Qc))) (d : Qc) :
  (2 ≤ length tracked)%nat →
  (∀ (i : nat) a b, tracked !! i = Some a → tracked !! S i = Some b → b - a = d) →
  ∃ r, _detect_beats_madmom has_downbeat MADMOM_AVAILABLE tracked downbeat_info
       = Ok r
       ∧ bpm r = if decide (d = 0) then Np.PosInf else Np.Finite (Q2Qc 60 / d).
Proof.
  intros Hlen Hd.
  destruct (madmom_bpm has_downbeat MADMOM_AVAILABLE tracked downbeat_info)
    as (r & Hr & Hbpm).
  exists r. split; [done|]. rewrite Hbpm.
  destruct (decide (1 < len tracked)%Z) as [_|Hn]; [|unfold len in Hn; lia].
  rewrite (diff_uniform _ _ Hd), median_replicate by lia.
  unfold Np.divide_by, Np.divide. destruct (decide (d = 0)); [|done].
  by destruct (decide (0 < Q2Qc 60)).
Qed.

Lemma detect_beats_bpm_uniform_witness :
  ∃ r, _detect_beats_madmom false true [Q2Qc 0.5; Q2Qc 1; Q2Qc 1.5]%list
                            (Raise ValueError) = Ok r
       ∧ bpm r = if decide (Q2Qc 0.5 = 0) then Np.PosInf
                 else Np.Finite (Q2Qc 60 / Q2Qc 0.5).
Proof.
  apply (detect_beats_bpm_uniform false true [Q2Qc 0.5; Q2Qc 1; Q2Qc 1.5]%list
           (Raise ValueError) (Q2Qc 0.5)).
  - simpl. lia.
  - intros [|[|[|i]]] a b; simpl; try done; intros [= <-] [= <-]; by_evaluation.
Defined.

(** When the downbeat tracker succeeds, the returned beats, downbeats and
    beat numbers all come from its rows: the beats are the row times, the
    downbeats the times of the rows whose number equals 1.  The beat tracker's
    beats survive only in [bpm], which is the one computed without the
    downbeat model; with fewer than two tracked beats it is 120 however many
    beats are returned. *)
Theorem detect_beats_downbeat_model (MADMOM_AVAILABLE : bool)
    (tracked : list Qc) (rows : list (Qc * Qc)) :
  ∃ r, _detect_beats_madmom true MADMOM_AVAILABLE tracked (Ok rows) = Ok r
       ∧ beats r = rows.*1
       ∧ downbeats r = (filter (λ row, row.2 = 1) rows).*1
       ∧ beat_numbers r = (λ row, int row.2) <$> rows
       ∧ (∀ r', _detect_beats_madmom false MADMOM_AVAILABLE tracked (Ok rows)
                = Ok r' → bpm r = bpm r')
       ∧ ((length tracked ≤ 1)%nat → bpm r = Np.Finite (Q2Qc 120)).
Proof.
  unfold _detect_beats_madmom. simpl. eexists. split; [done|]. simpl.
  split; [done|]. split; [by rewrite (foldl_filter_snoc (λ row, row.2 = 1) fst)|].
  split; [done|]. split.
  - rewrite assume_four_four_slice. simpl. by intros r' [= <-].
  - intros Hlen. destruct (decide (1 < len tracked)%Z) as [Hn|_]; [|done].
    unfold len in Hn. lia.
Qed.

End DetectBpm.

(** ** [get_waveform_data] *)

Section Waveform.
Import AudioProcessor.

Lemma max_spec (l : list Qc) (m : Qc) :
  Np.max l = Ok m → m ∈ l ∧ ∀ x, x ∈ l → (x ≤ m)%Qc.
Proof.
  destruct l as [|x rest]; [done|]. simpl. intros [= <-].
  revert x. induction rest as [|y rest IH]; intros x; simpl.
  - split; [left|]. intros z ->%list_elem_of_singleton. apply Qcle_refl.
  - destruct (IH (if decide (x < y)%Qc then y else x)) as [Hin Hle].
    split.
    + apply elem_of_cons in Hin as [->|Hin].
      * destruct (decide (x < y)%Qc); [right; left|left].
      * by do 2 right.
    + intros z Hz.
      assert (x ≤ if decide (x < y)%Qc then y else x)%Qc as Hx.
      { destruct (decide (x < y)%Qc); [by apply Qclt_le_weak|apply Qcle_refl]. }
      assert (y ≤ if decide (x < y)%Qc then y else x)%Qc as Hy.
      { destruct (decide (x < y)%Qc); [apply Qcle_refl|by apply Qcnot_lt_le]. }
      apply elem_of_cons in Hz as [->|[->|Hz]%elem_of_cons].
      * etrans; [exact Hx|]. apply Hle. left.
      * etrans; [exact Hy|]. apply Hle. left.
      * apply Hle. by right.
Qed.

Lemma min_spec (l : list Qc) (m : Qc) :
  Np.min l = Ok m → m ∈ l ∧ ∀ x, x ∈ l → (m ≤ x)%Qc.
Proof.
  destruct l as [|x rest]; [done|]. simpl. intros [= <-].
  revert x. induction rest as [|y rest IH]; intros x; simpl.
  - split; [left|]. intros z ->%list_elem_of_singleton. apply Qcle_refl.
  - destruct (IH (if decide (y < x)%Qc then y else x)) as [Hin Hle].
    split.
    + apply elem_of_cons in Hin as [->|Hin].
      * destruct (decide (y < x)%Qc); [right; left|left].
      * by do 2 right.
    + intros z Hz.
      assert ((if decide (y < x)%Qc then y else x) ≤ x)%Qc as Hx.
      { destruct (decide (y < x)%Qc); [by apply Qclt_le_weak|apply Qcle_refl]. }
      assert ((if decide (y < x)%Qc then y else x) ≤ y)%Qc as Hy.
      { destruct (decide (y < x)%Qc); [apply Qcle_refl|by apply Qcnot_lt_le]. }
      apply elem_of_cons in Hz as [->|[->|Hz]%elem_of_cons].
      * etrans; [|exact Hx]. apply Hle. left.
      * etrans; [|exact Hy]. apply Hle. left.
      * apply Hle. by right.
Qed.

(** The samples of [y[start:stop]]. *)
Lemma elem_of_slice {A : Type} (y : list A) (start stop : nat) (v : A) :
  v ∈ slice y (Z.of_nat start) (Z.of_nat stop)
  ↔ ∃ j : nat, (start ≤ j < stop)%nat ∧ y !! j = Some v.
Proof.
  unfold slice. rewrite !Nat2Z.id, list_elem_of_lookup. split.
  - intros [i Hi]. rewrite lookup_drop in Hi.
    apply lookup_take_Some in Hi as [Hi Hlt]. exists (start + i)%nat.
    split; [lia|done].
  - intros (j & Hj & Hv). exists (j - start)%nat.
    rewrite lookup_drop. replace (start + (j - start))%nat with j by lia.
    apply lookup_take_Some. split; [done|lia].
Qed.

Lemma range_split (a m b : Z) :
  a ≤ m ≤ b → range a b = range a m ++ range m b.
Proof.
  intros Hm. unfold range.
  replace (Z.to_nat (b - a)) with (Z.to_nat (m - a) + Z.to_nat (b - m))%nat by lia.
  rewrite seq_app, fmap_app. f_equal.
  replace (seq (0 + Z.to_nat (m - a)) (Z.to_nat (b - m)))
    with ((λ x, Z.to_nat (m - a) + x)%nat <$> seq 0 (Z.to_nat (b - m)))
    by (rewrite fmap_add_seq; f_equal; lia).
  rewrite <- list_fmap_compose.
  apply list_fmap_ext. intros _ k _. simpl. lia.
Qed.

(** A loop with [break] whose first iterations all continue. *)
Lemma for_in_break_continue {St I : Type} (xs ys : list I)
    (body : St → I → result (step St)) (Inv : nat → St → Prop) (s0 : St) :
  Inv 0%nat s0 →
  (∀ (k : nat) s x, xs !! k = Some x → Inv k s →
     ∃ s', body s x = Ok (Continue s') ∧ Inv (S k) s') →
  ∃ s', for_in_break (xs ++ ys) body s0 = for_in_break ys body s'
        ∧ Inv (length xs) s'.
Proof.
  revert Inv s0. induction xs as [|x xs IH]; intros Inv s0 H0 Hstep; simpl.
  - by exists s0.
  - destruct (Hstep 0%nat s0 x) as (s1 & -> & H1); [done|done|]. simpl.
    apply (IH (λ k, Inv (S k))); [done|].
    intros k s y Hy Hs. by apply (Hstep (S k)).
Qed.

Lemma for_in_break_ext {St I : Type} (xs : list I)
    (body body' : St → I → result (step St)) :
  (∀ s x, x ∈ xs → body s x = body' s x) →
  ∀ s, for_in_break xs body s = for_in_break xs body' s.
Proof.
  induction xs as [|x xs IH]; intros Hbody s; simpl; [done|].
  rewrite Hbody by left. destruct (body' s x) as [[s'|s']|e]; simpl; [|done|done].
  apply IH. intros s1 y Hy. apply Hbody. by right.
Qed.

(** The number of samples per point, and that the first
    [min(num_points, len(y))] points start inside the signal. *)
Lemma samples_per_point_bounds (n num_points : Z) :
  0 ≤ n → 1 ≤ num_points →
  let spp := if decide (n `div` num_points < 1) then 1 else n `div` num_points in
  1 ≤ spp
  ∧ (∀ i, 0 ≤ i < Z.min num_points n → i * spp < n)
  ∧ (n < num_points → spp = 1).
Proof.
  intros Hn Hp spp. subst spp.
  pose proof (Z.mul_div_le n num_points) as Hmul.
  pose proof (Z.div_pos n num_points) as Hpos.
  destruct (decide (n `div` num_points < 1)) as [Hsmall|Hbig].
  - split; [lia|]. split; [lia|done].
  - split; [lia|]. split; [|intros Hlt; rewrite Z.div_small in Hbig; lia].
    intros i Hi. nia.
Qed.

(** For one point or more, [get_waveform_data] returns
    [min(num_points, len(y))] points, and reports that number.  Point [i]
    covers the samples [i * spp .. i * spp + spp - 1] with
    [spp = max(1, len(y) // num_points)]: its positive peak and its negative
    peak are values of samples in that window, and every sample of the
    window lies between them. *)
Theorem get_waveform_data_points (get_duration : list Qc → Z → Qc)
    (y : list Qc) (sr : Z) (points : Z) :
  1 ≤ points →
  let spp := Z.max 1 (len y `div` points) in
  ∃ w, get_waveform_data get_duration y sr points = Ok w
    ∧ num_points w = Z.min points (len y)
    ∧ len (peaks_positive w) = num_points w
    ∧ len (peaks_negative w) = num_points w
    ∧ sample_rate w = sr
    ∧ duration w = get_duration y sr
    ∧ ∀ i : nat, Z.of_nat i < Z.min points (len y) →
        ∃ hi lo, peaks_positive w !! i = Some hi
          ∧ peaks_negative w !! i = Some lo
          ∧ (∃ j : nat, Z.of_nat i * spp ≤ Z.of_nat j < Z.of_nat i * spp + spp
                        ∧ y !! j = Some hi)
          ∧ (∃ j : nat, Z.of_nat i * spp ≤ Z.of_nat j < Z.of_nat i * spp + spp
                        ∧ y !! j = Some lo)
          ∧ ∀ (j : nat) v,
              Z.of_nat i * spp ≤ Z.of_nat j < Z.of_nat i * spp + spp →
              y !! j = Some v → (lo ≤ v ≤ hi)%Qc.
Proof.
  intros Hp spp. unfold get_waveform_data, floordiv.
  destruct (decide (points = 0)) as [|_]; [lia|]. simpl.
  assert (0 ≤ len y) as Hn by (unfold len; lia).
  destruct (samples_per_point_bounds (len y) points Hn Hp)
    as (Hspp1 & Hstart & Hshort).
  assert ((if decide (len y `div` points < 1) then 1 else len y `div` points) = spp)
    as Hsppeq.
  { unfold spp. destruct (decide (len y `div` points < 1)); lia. }
  rewrite Hsppeq in *. clear Hsppeq.
  set (count := Z.min points (len y)).
  set (body := λ '(peaks_positive, peaks_negative) i, _).
  rewrite (range_split 0 count points) by (unfold count; lia).
  destruct (for_in_break_continue (range 0 count) (range count points) body
    (λ k '(pp, pn),
       length pp = k ∧ length pn = k
       ∧ ∀ i : nat, (i < k)%nat →
           ∃ hi lo, pp !! i = Some hi ∧ pn !! i = Some lo
             ∧ Np.max (slice y (Z.of_nat i * spp)
                             (Z.min (Z.of_nat i * spp + spp) (len y))) = Ok hi
             ∧ Np.min (slice y (Z.of_nat i * spp)
                             (Z.min (Z.of_nat i * spp + spp) (len y))) = Ok lo)
    ([], [])) as ([pp pn] & Hrun & Hpp & Hpn & Hpeaks).
  { do 2 (split; [done|]). intros i Hi. lia. }
  { intros k [pp pn] x Hx (Hpp & Hpn & Hpeaks).
    apply lookup_lt_Some in Hx as Hk. rewrite range_length in Hk.
    rewrite range_lookup in Hx by done. injection Hx as <-.
    rewrite Z.add_0_l. unfold body.
    destruct (decide (len y ≤ Z.of_nat k * spp)) as [Hout|_].
    { specialize (Hstart (Z.of_nat k)). unfold count in Hk. lia. }
    specialize (Hstart (Z.of_nat k)).
    set (segment := slice y (Z.of_nat k * spp)
                          (Z.min (Z.of_nat k * spp + spp) (len y))).
    assert (segment ≠ []) as Hne.
    { intros Hnil. apply (f_equal length) in Hnil. unfold segment, slice in Hnil.
      rewrite length_drop, length_take in Hnil. unfold count, len in *.
      assert (Z.of_nat k * spp < Z.of_nat (length y)) as Hs by (apply Hstart; lia).
      assert (0 ≤ Z.of_nat k * spp) as H0 by nia.
      clear Hstart Hpeaks Hshort. clearbody spp. revert Hnil Hs H0.
      generalize (Z.of_nat k * spp). intros t Hnil Hs H0.
      cbn [length] in Hnil. lia. }
    assert (∃ top, Np.max segment = Ok top) as [top Htop]
      by (destruct segment; [done|by eexists]).
    assert (∃ bottom, Np.min segment = Ok bottom) as [bottom Hbottom]
      by (destruct segment; [done|by eexists]).
    rewrite Htop, Hbottom. simpl. eexists. split; [done|]. simpl.
    rewrite !length_app. simpl. split; [lia|]. split; [lia|].
    intros i Hi. destruct (decide (i = k)) as [->|Hik].
    - exists top, bottom. rewrite <- Hpp at 1. rewrite <- Hpn at 1.
      rewrite !list_lookup_middle by done. done.
    - destruct (Hpeaks i) as (hi & lo & Hhi & Hlo & Hmax & Hmin); [lia|].
      exists hi, lo. rewrite !lookup_app_l by lia. done. }
  rewrite Hrun, range_length in *.
  assert (for_in_break (range count points) body (pp, pn) = Ok (pp, pn)) as ->.
  { destruct (decide (count = points)) as [->|Hlt].
    - unfold range. by rewrite Z.sub_diag.
    - assert (range count points = count :: range (count + 1) points) as ->.
      { rewrite (range_split count (count + 1) points) by (unfold count; lia).
        unfold range at 1. replace (count + 1 - count) with 1 by lia.
        simpl. by rewrite Z.add_0_r. }
      simpl. destruct (decide (len y ≤ count * spp)) as [_|Hin]; [done|].
      unfold count in *. rewrite Hshort in Hin by lia. lia. }
  simpl. eexists. split; [done|]. simpl. unfold len. rewrite Hpp, Hpn.
  assert (Z.of_nat (Z.to_nat (count - 0)) = count) as -> by (unfold count; lia).
  do 5 (split; [done|]).
  intros i Hi. destruct (Hpeaks i) as (hi & lo & Hhi & Hlo & Hmax & Hmin); [lia|].
  exists hi, lo. do 2 (split; [done|]).
  apply max_spec in Hmax as [Hmaxin Hmaxle]. apply min_spec in Hmin as [Hminin Hminle].
  assert (∀ v, v ∈ slice y (Z.of_nat i * spp)
                       (Z.min (Z.of_nat i * spp + spp) (len y))
               ↔ ∃ j : nat, Z.of_nat i * spp ≤ Z.of_nat j < Z.of_nat i * spp + spp
                            ∧ y !! j = Some v) as Hslice.
  { intros v.
    replace (Z.of_nat i * spp) with (Z.of_nat (i * Z.to_nat spp)) at 1 by lia.
    replace (Z.min (Z.of_nat i * spp + spp) (len y))
      with (Z.of_nat (Nat.min (i * Z.to_nat spp + Z.to_nat spp) (length y)))
      by (unfold len; lia).
    rewrite elem_of_slice. split.
    - intros (j & Hj & Hv). exists j. split; [lia|done].
    - intros (j & Hj & Hv). exists j. split; [|done].
      apply lookup_lt_Some in Hv. lia. }
  split; [by apply Hslice|]. split; [by apply Hslice|].
  intros j v Hj Hv. split; [apply Hminle|apply Hmaxle]; apply Hslice; by exists j.
Qed.

Lemma get_waveform_data_points_witness :
  let y := Q2Qc <$> [0.5; -0.25; 0.75; -1; 0.125]%Q in
  let spp := Z.max 1 (len y `div` 2) in
  ∃ w, get_waveform_data (λ y sr, float (len y) / float sr)%Qc y 22050 2 = Ok w
    ∧ num_points w = Z.min 2 (len y)
    ∧ len (peaks_positive w) = num_points w
    ∧ len (peaks_negative w) = num_points w
    ∧ sample_rate w = 22050
    ∧ duration w = (float (len y) / float 22050)%Qc
    ∧ ∀ i : nat, Z.of_nat i < Z.min 2 (len y) →
        ∃ hi lo, peaks_positive w !! i = Some hi
          ∧ peaks_negative w !! i = Some lo
          ∧ (∃ j : nat, Z.of_nat i * spp ≤ Z.of_nat j < Z.of_nat i * spp + spp
                        ∧ y !! j = Some hi)
          ∧ (∃ j : nat, Z.of_nat i * spp ≤ Z.of_nat j < Z.of_nat i * spp + spp
                        ∧ y !! j = Some lo)
          ∧ ∀ (j : nat) v,
              Z.of_nat i * spp ≤ Z.of_nat j < Z.of_nat i * spp + spp →
              y !! j = Some v → (lo ≤ v ≤ hi)%Qc.
Proof.
  apply (get_waveform_data_points (λ y sr, float (len y) / float sr)%Qc
           (Q2Qc <$> [0.5; -0.25; 0.75; -1; 0.125]%Q) 22050 2).
  lia.
Defined.

End Waveform.

Section WaveformEdges.
Import AudioProcessor.

(** When the signal is longer than a multiple of [num_points] by fewer than
    [num_points] samples, those trailing samples are never looked at: the
    result is the one of the signal without them, except for the duration,
    which is the one of the whole signal. *)
Theorem get_waveform_data_ignores_tail (get_duration : list Qc → Z → Qc)
    (y tail : list Qc) (sr : Z) (points q : Z) :
  1 ≤ points → 1 ≤ q → len y = points * q → len tail < points →
  get_waveform_data get_duration (y ++ tail) sr points
  = get_waveform_data (λ _ _, get_duration (y ++ tail) sr) y sr points.
Proof.
  intros Hp Hq Hlen Htail.
  assert (len (y ++ tail) = points * q + len tail) as Hlen'.
  { unfold len in *. rewrite length_app. lia. }
  assert (0 ≤ len tail) as Ht by (unfold len; lia).
  unfold get_waveform_data, floordiv.
  destruct (decide (points = 0)) as [|_]; [lia|]. simpl.
  rewrite Hlen', Hlen.
  replace ((points * q + len tail) `div` points) with q.
  2:{ rewrite (Z.mul_comm points q), Z.div_add_l, (Z.div_small (len tail)) by lia.
      lia. }
  replace ((points * q) `div` points) with q
    by (rewrite (Z.mul_comm points q), Z.div_mul by lia; done).
  destruct (decide (q < 1)) as [|_]; [lia|].
  erewrite for_in_break_ext; [done|].
  intros [pp pn] i Hi. simpl.
  apply list_elem_of_lookup in Hi as [k Hk].
  apply lookup_lt_Some in Hk as Hklt. rewrite range_length in Hklt.
  rewrite range_lookup in Hk by done. injection Hk as <-.
  assert (0 ≤ Z.of_nat k < points) as Hkz by lia.
  assert ((0 + Z.of_nat k) * q + q ≤ points * q) as Hstop by nia.
  assert (0 ≤ (0 + Z.of_nat k) * q) as Hstart by nia.
  revert Hstop Hstart. generalize ((0 + Z.of_nat k) * q). intros t Hstop Hstart.
  destruct (decide (points * q + len tail ≤ t)) as [|_]; [lia|].
  destruct (decide (points * q ≤ t)) as [|_]; [lia|].
  rewrite !Z.min_l by lia. unfold slice.
  rewrite take_app_le; [done|]. unfold len in Hlen. lia.
Qed.

Lemma get_waveform_data_ignores_tail_witness :
  get_waveform_data (λ y sr, float (len y) / float sr)%Qc
    ((Q2Qc <$> [0.5; -0.25; 0.75; -1]%Q) ++ (Q2Qc <$> [9]%Q)) 22050 2
  = get_waveform_data
      (λ _ _, Qcdiv (float (len ((Q2Qc <$> [0.5; -0.25; 0.75; -1]%Q)
                                   ++ (Q2Qc <$> [9]%Q))))
                     (float 22050))
      (Q2Qc <$> [0.5; -0.25; 0.75; -1]%Q) 22050 2.
Proof.
  apply (get_waveform_data_ignores_tail (λ y sr, float (len y) / float sr)%Qc
           (Q2Qc <$> [0.5; -0.25; 0.75; -1]%Q) (Q2Qc <$> [9]%Q) 22050 2 2);
    unfold len; simpl; lia.
Defined.

(** Without a positive number of points there is no waveform: zero points
    is a division by zero, a negative number gives no point at all. *)
Theorem get_waveform_data_no_points (get_duration : list Qc → Z → Qc)
    (y : list Qc) (sr : Z) (points : Z) :
  points ≤ 0 →
  get_waveform_data get_duration y sr points
  = if decide (points = 0) then Raise ZeroDivisionError
    else Ok (Waveform [] [] (get_duration y sr) sr 0).
Proof.
  intros Hp. unfold get_waveform_data, floordiv.
  destruct (decide (points = 0)) as [|Hneg]; [done|]. simpl.
  unfold range. by replace (Z.to_nat (points - 0)) with 0%nat by lia.
Qed.

Lemma get_waveform_data_no_points_witness :
  get_waveform_data (λ y sr, float (len y) / float sr)%Qc
                    [Q2Qc 0.5; Q2Qc 1] 22050 (-3)
  = if decide (-3 = 0) then Raise ZeroDivisionError
    else Ok (Waveform [] [] (float (len [Q2Qc 0.5; Q2Qc 1]) / float 22050)%Qc
                      22050 0).
Proof.
  apply (get_waveform_data_no_points (λ y sr, float (len y) / float sr)%Qc
           [Q2Qc 0.5; Q2Qc 1] 22050 (-3)). lia.
Defined.

End WaveformEdges.

(** ** The audio cache *)

Section AudioCache.
Import AudioProcessor.

(** Once a path has been loaded, every later [load_audio] of it returns the
    cached samples and rate and leaves the cache alone, whatever sample rate
    is asked for and without consulting the loader. *)
Theorem load_audio_cached (librosa_load librosa_load' : string → Z → result audio)
    (filepath : string) (sr sr' : Z) (audio_cache cache : gmap string audio)
    (loaded : audio) :
  load_audio librosa_load filepath sr audio_cache = (Ok loaded, cache) →
  load_audio librosa_load' filepath sr' cache = (Ok loaded, cache).
Proof.
  unfold load_audio. intros Hload.
  destruct (audio_cache !! filepath) as [cached|] eqn:Hcached.
  - injection Hload as <- <-. by rewrite Hcached.
  - destruct (librosa_load filepath sr) as [a|e]; [|done].
    injection Hload as <- <-. by rewrite lookup_insert_eq.
Qed.

Lemma load_audio_cached_witness :
  load_audio (λ _ _, Raise ValueError) "a.wav" 44100
             {[ "a.wav"%string := ([Q2Qc 0.5], 22050) ]}
  = (Ok ([Q2Qc 0.5], 22050), {[ "a.wav"%string := ([Q2Qc 0.5], 22050) ]}).
Proof.
  apply (load_audio_cached (λ _ sr, Ok ([Q2Qc 0.5], sr)) (λ _ _, Raise ValueError)
           "a.wav" 22050 44100 ∅). reflexivity.
Defined.

Lemma foldl_delete_lookup {A : Type} (keys : list string) (m : gmap string A)
    (k : string) :
  foldl (λ cache key, delete key cache) m keys !! k
  = if decide (k ∈ keys) then None else m !! k.
Proof.
  revert m. induction keys as [|key keys IH]; intros m; simpl.
  - destruct (decide (k ∈ [])) as [Hin|_]; [by apply elem_of_nil in Hin|done].
  - rewrite IH. destruct (decide (k ∈ keys)) as [Hin|Hout].
    + rewrite decide_True; [done|by right].
    + destruct (decide (k = key)) as [->|Hne].
      * rewrite decide_True by left. apply lookup_delete_eq.
      * rewrite decide_False; [by apply lookup_delete_ne|].
        rewrite elem_of_cons. tauto.
Qed.

(** [cleanup] removes from the cache exactly the entries whose key contains
    [file_id] as a substring and keeps every other entry as it is. *)
Theorem cleanup_lookup (file_id : string) (audio_cache : gmap string audio)
    (k : string) :
  cleanup file_id audio_cache !! k
  = if contains file_id k then None else audio_cache !! k.
Proof.
  unfold cleanup. rewrite foldl_delete_lookup.
  destruct (contains file_id k) eqn:Hk.
  - destruct (audio_cache !! k) as [a|] eqn:Ha.
    + rewrite decide_True; [done|].
      apply list_elem_of_filter. split; [done|].
      apply list_elem_of_fmap. exists (k, a). split; [done|].
      by apply elem_of_map_to_list.
    + by destruct (decide _).
  - rewrite decide_False; [done|].
    intros [Hc _]%list_elem_of_filter. congruence.
Qed.

End AudioCache.

(** ** The handlers of [backend/app.py] *)

Section AllowedFile.
Import AudioProcessor Handlers.
Local Open Scope string_scope.

Lemma prefix_dot (s : string) :
  String.prefix "." s
  = match s with
    | String c _ => bool_decide (c = "."%char)
    | EmptyString => false
    end.
Proof.
  destruct s as [|c rest]; [done|].
  change (String.prefix "." (String c rest))
    with (if ascii_dec "." c then String.prefix "" rest else false).
  destruct (ascii_dec "." c) as [<-|Hne].
  - rewrite bool_decide_eq_true_2 by done. by destruct rest.
  - by rewrite bool_decide_eq_false_2 by congruence.
Qed.

Lemma contains_dot_cons (c : ascii) (rest : string) :
  contains "." (String c rest) = bool_decide (c = "."%char) || contains "." rest.
Proof.
  change (contains "." (String c rest))
    with (String.prefix "." (String c rest) || contains "." rest).
  by rewrite prefix_dot.
Qed.

Lemma contains_dot_append (stem ext : string) :
  contains "." (stem ++ String "." ext) = true.
Proof.
  induction stem as [|c stem IH].
  - change ("" ++ String "." ext) with (String "." ext).
    rewrite contains_dot_cons. by rewrite bool_decide_eq_true_2.
  - change (String c stem ++ String "." ext) with (String c (stem ++ String "." ext)).
    rewrite contains_dot_cons, IH. apply orb_true_r.
Qed.

(** What the two halves of [rsplit('.', 1)] are. *)
Lemma last_dot_spec (s : string) :
  match before_last_dot s, after_last_dot s with
  | Some stem, Some ext => s = stem ++ String "." ext ∧ contains "." ext = false
  | None, None => contains "." s = false
  | _, _ => False
  end.
Proof.
  induction s as [|c rest IH]; [done|]. cbn [before_last_dot after_last_dot].
  destruct (before_last_dot rest) as [stem|], (after_last_dot rest) as [ext|];
    try done.
  - destruct IH as [-> Hext]. done.
  - destruct (decide (c = "."%char)) as [->|Hne].
    + done.
    + rewrite contains_dot_cons, IH. by rewrite bool_decide_eq_false_2.
Qed.

Lemma last_dot_append (stem ext : string) :
  contains "." ext = false →
  before_last_dot (stem ++ String "." ext) = Some stem
  ∧ after_last_dot (stem ++ String "." ext) = Some ext.
Proof.
  intros Hext. induction stem as [|c stem [IHb IHa]].
  - change ("" ++ String "." ext) with (String "." ext). simpl.
    pose proof (last_dot_spec ext) as Hspec.
    destruct (before_last_dot ext) as [stem'|], (after_last_dot ext) as [ext'|];
      try done.
    destruct Hspec as [-> _]. by rewrite contains_dot_append in Hext.
  - change (String c stem ++ String "." ext) with (String c (stem ++ String "." ext)).
    simpl. by rewrite IHb, IHa.
Qed.

(** A file name is accepted exactly when it has a dot and the text after its
    last dot, in lower case, is one of the six extensions; the guard
    ['.' in filename] is what makes the index [1] of the split safe. *)
Theorem allowed_file_iff (filename : string) :
  allowed_file filename = true
  ↔ ∃ stem ext, filename = stem ++ String "." ext
                ∧ contains "." ext = false
                ∧ lower ext ∈ ALLOWED_EXTENSIONS.
Proof.
  unfold allowed_file, rsplit_dot. split.
  - intros [Hdot Hext]%andb_true_iff.
    pose proof (last_dot_spec filename) as Hspec.
    destruct (before_last_dot filename) as [stem|],
             (after_last_dot filename) as [ext|]; try done; try congruence.
    destruct Hspec as [-> Hnodot]. exists stem, ext.
    do 2 (split; [done|]). simpl in Hext. by apply bool_decide_eq_true in Hext.
  - intros (stem & ext & -> & Hnodot & Hext).
    destruct (last_dot_append stem ext Hnodot) as [-> ->].
    rewrite contains_dot_append. simpl. by apply bool_decide_eq_true.
Qed.

End AllowedFile.

Section HandlerProperties.
Import App Handlers.
Local Open Scope Qc_scope.

(** What [upload_file] does to the store: only a successful upload touches
    it, and then it writes one entry without beat grid, which the status
    route reports as uploaded and the click-track route as not analysed. *)
Theorem upload_file_outcome (file : option string)
    (saved : option (string * string)) (measured : option Qc)
    (analysis_results : gmap string file_info) :
  let out := upload_file file saved measured analysis_results in
  match out.1 with
  | Uploaded file_id name seconds =>
      file = Some name ∧ name ≠ ""%string ∧ allowed_file name = true
      ∧ measured = Some seconds
      ∧ (∃ path, saved = Some (file_id, path)
                 ∧ out.2 = <[file_id := FileInfo path name seconds "uploaded"
                                                 None None]> analysis_results)
      ∧ get_status file_id out.2 = Status file_id "uploaded" name seconds
      ∧ get_click_track file_id out.2 = NotAnalyzed
  | _ => out.2 = analysis_results
  end.
Proof.
  unfold upload_file. destruct file as [name|]; [|done].
  destruct (decide (name = ""%string)) as [|Hname]; [done|].
  destruct (allowed_file name) eqn:Hallowed; [|done]. simpl.
  destruct saved as [[file_id path]|]; [|done].
  destruct measured as [seconds|]; [|done]. simpl.
  do 4 (split; [done|]). split; [by exists path|].
  unfold get_status, get_click_track. by rewrite lookup_insert_eq.
Qed.

(** [update_beats] on an entry that has no beat grid yet (a file uploaded
    but not analysed) always fails, for every request object, and leaves the
    store as it was.  The error is the missing ['beats'] key, unless the
    request carries no beats and the first number it does carry, the offset,
    or without offset the tempo, cannot be converted: then it is the error
    of [float()]. *)
Theorem update_beats_before_analysis (analysis_results : gmap string file_info)
    (file_id : string) (info : file_info) (data : update_request) :
  analysis_results !! file_id = Some info →
  info_beats info = None →
  let converted :=
    match req_beats data, req_offset data, req_bpm data with
    | None, Some v, _ | None, None, Some v => Some v
    | _, _, _ => None
    end in
  update_beats file_id (Some data) analysis_results
  = (Failed match converted with
            | Some v => match to_float v with Ok _ => KeyError | Raise e => e end
            | None => KeyError
            end,
     analysis_results).
Proof.
  intros Hinfo Hgrid. unfold update_beats. rewrite Hinfo.
  destruct info as [path name seconds st grid structure]. simpl in Hgrid. subst grid.
  unfold update_body, when_present, and_then, lift, get_grid, set_grid, pure.
  destruct data as [[new_beats|] [offset|] [tempo|]]; simpl;
    try destruct (to_float offset) as [x|e]; simpl;
    try destruct (to_float tempo) as [y|e']; simpl;
    by rewrite insert_id.
Qed.

Lemma update_beats_before_analysis_witness :
  update_beats "a" (Some (UpdateRequest None (Some (JString None)) None))
    {[ "a"%string := FileInfo "uploads/a.wav" "a.wav" (Q2Qc 9) "uploaded"
                              None None ]}
  = (Failed ValueError,
     {[ "a"%string := FileInfo "uploads/a.wav" "a.wav" (Q2Qc 9) "uploaded"
                               None None ]}).
Proof.
  apply (update_beats_before_analysis
           {[ "a"%string := FileInfo "uploads/a.wav" "a.wav" (Q2Qc 9) "uploaded"
                                     None None ]}
           "a" (FileInfo "uploads/a.wav" "a.wav" (Q2Qc 9) "uploaded" None None)
           (UpdateRequest None (Some (JString None)) None)).
  - apply lookup_singleton_eq.
  - reflexivity.
Defined.

(** A request with an offset and no beats shifts the stored beats, drops
    the ones that become negative and takes every fourth of the rest as
    downbeats, but leaves the stored beat numbers (and tempo) as they were,
    so after a drop there are more beat numbers than beats. *)
Theorem update_beats_offset_only (analysis_results : gmap string file_info)
    (file_id : string) (info : file_info) (grid : beat_grid) (offset : Qc) :
  analysis_results !! file_id = Some info →
  info_beats info = Some grid →
  ∃ info' grid',
    update_beats file_id (Some (UpdateRequest None (Some (JNumber offset)) None))
                 analysis_results
    = (Updated file_id grid', <[file_id := info']> analysis_results)
    ∧ info_beats info' = Some grid'
    ∧ beats grid' = filter (λ b, 0 ≤ b) ((λ b, b + offset) <$> beats grid)
    ∧ downbeats grid' = take_stride 4 (beats grid')
    ∧ beat_numbers grid' = beat_numbers grid
    ∧ bpm grid' = bpm grid
    ∧ (length (beats grid') ≤ length (beats grid))%nat.
Proof.
  intros Hinfo Hgrid. unfold update_beats. rewrite Hinfo.
  destruct info as [path name seconds st g structure]. simpl in Hgrid. subst g.
  unfold update_body, when_present, and_then, lift, get_grid, set_grid, pure.
  simpl.
  eexists _, _. split; [done|]. simpl. do 5 (split; [done|]).
  etrans; [apply length_filter|]. by rewrite length_fmap.
Qed.

Lemma update_beats_offset_only_witness :
  let grid := BeatGrid [Q2Qc 0.5; Q2Qc 1.5] [Q2Qc 0.5]%list [1; 2]%Z
                       (Q2Qc 60) "4/4" (Q2Qc 0.9) in
  let info := FileInfo "uploads/a.wav" "a.wav" (Q2Qc 9) "analyzed" (Some grid) None in
  ∃ info' grid',
    update_beats "a" (Some (UpdateRequest None (Some (JNumber (Q2Qc (-1)))) None))
                 {[ "a"%string := info ]}
    = (Updated "a" grid', <[ "a"%string := info' ]> {[ "a"%string := info ]})
    ∧ info_beats info' = Some grid'
    ∧ beats grid' = filter (λ b, 0 ≤ b) ((λ b, b + Q2Qc (-1)) <$> beats grid)
    ∧ downbeats grid' = take_stride 4 (beats grid')
    ∧ beat_numbers grid' = beat_numbers grid
    ∧ bpm grid' = bpm grid
    ∧ (length (beats grid') ≤ length (beats grid))%nat.
Proof.
  intros grid info.
  apply (update_beats_offset_only {[ "a"%string := info ]} "a" info grid (Q2Qc (-1))).
  - apply lookup_singleton_eq.
  - reflexivity.
Defined.

(** [update_beats] writes nothing but the beat grid of the entry it is
    called for: the other entries, and the path, name, duration, status and
    structure of its own entry, are as before, whether the request succeeds
    or fails; an unknown identifier or a missing body leave the whole store
    untouched. *)
Theorem update_beats_frame (analysis_results : gmap string file_info)
    (file_id : string) (data : option update_request) :
  let out := update_beats file_id data analysis_results in
  (∀ other, other ≠ file_id → out.2 !! other = analysis_results !! other)
  ∧ (out.1 = NotFound ↔ analysis_results !! file_id = None)
  ∧ (out.1 = NotFound ∨ out.1 = NoData → out.2 = analysis_results)
  ∧ match analysis_results !! file_id with
    | Some info =>
        ∃ info', out.2 !! file_id = Some info'
          ∧ filepath info' = filepath info
          ∧ filename info' = filename info
          ∧ duration info' = duration info
          ∧ status info' = status info
          ∧ info_structure info' = info_structure info
          ∧ (is_Some (info_beats info') ↔ is_Some (info_beats info))
    | None => out.2 !! file_id = None
    end.
Proof.
  unfold update_beats.
  destruct (analysis_results !! file_id) as [info|] eqn:Hinfo; simpl.
  2:{ do 2 (split; [done|]). done. }
  destruct data as [data|]; simpl.
  2:{ split; [done|]. split; [done|]. split; [done|].
      rewrite Hinfo. by exists info. }
  assert (∃ r info', update_body data info = (r, info')
            ∧ filepath info' = filepath info
            ∧ filename info' = filename info
            ∧ duration info' = duration info
            ∧ status info' = status info
            ∧ info_structure info' = info_structure info
            ∧ (is_Some (info_beats info') ↔ is_Some (info_beats info)))
    as (r & info' & -> & Hkept).
  { destruct info as [path name seconds st [g|] structure];
      destruct data as [[new_beats|] [offset|] [tempo|]];
      unfold update_body, when_present, and_then, lift, get_grid, set_grid, pure;
      simpl;
      try destruct (to_float offset) as [x|e]; simpl;
      try destruct (to_float tempo) as [y|e']; simpl;
      eexists _, _; (split; [done|]); simpl; by rewrite ?is_Some_alt. }
  assert (∀ resp, (match r with
                   | Ok grid => (Updated file_id grid,
                                 <[file_id := info']> analysis_results)
                   | Raise e => (Failed e, <[file_id := info']> analysis_results)
                   end = resp) →
                  resp.2 = <[file_id := info']> analysis_results
                  ∧ resp.1 ≠ NotFound ∧ resp.1 ≠ NoData) as Hresp.
  { intros resp <-. by destruct r. }
  destruct (Hresp _ eq_refl) as (-> & Hnf & Hnd).
  split; [intros other Hother; by rewrite lookup_insert_ne|].
  split; [done|]. split; [by intros [|]|].
  exists info'. by rewrite lookup_insert_eq.
Qed.

(** After an explicit beat update, the click track has one click per new
    beat, at the new beat times, and every fourth click, starting with the
    first, is accented. *)
Theorem click_track_after_update (analysis_results : gmap string file_info)
    (file_id : string) (info : file_info) (grid : beat_grid)
    (new_beats : list Qc) (new_bpm : option json_scalar) :
  analysis_results !! file_id = Some info →
  info_beats info = Some grid →
  let out := update_beats file_id
               (Some (UpdateRequest (Some new_beats) None new_bpm))
               analysis_results in
  ∃ clicks tempo,
    get_click_track file_id out.2 = Clicks clicks tempo
    ∧ BeatDetector.time <$> clicks = new_beats
    ∧ ∀ (k : nat) b, new_beats !! (4 * k)%nat = Some b →
        clicks !! (4 * k)%nat = Some (BeatDetector.Click b true).
Proof.
  intros Hinfo Hgrid out. subst out. unfold update_beats. rewrite Hinfo.
  destruct (update_body_beats_only info grid new_beats new_bpm Hgrid)
    as (tempo & r & ->).
  assert (∀ resp, (match r with
                   | Ok g => (Updated file_id g, resp)
                   | Raise e => (Failed e, resp)
                   end).2 = resp) as -> by (intros; by destruct r).
  unfold get_click_track. rewrite lookup_insert_eq.
  cbn [info_beats beats downbeats bpm].
  eexists _, _. split; [done|].
  unfold generate_click_track_times. cbv zeta. rewrite foldl_snoc, app_nil_l.
  split.
  { rewrite <- list_fmap_compose. rewrite <- (list_fmap_id new_beats) at 2.
    by apply list_fmap_ext. }
  intros k b Hb. rewrite list_lookup_fmap, Hb.
  cbn [fmap option_fmap option_map]. do 2 f_equal.
  apply existsb_exists. exists b. split.
  - apply list_elem_of_In.
    apply (downbeat_set_elem_of (Some (take_stride 4 new_beats)) b).
    change (b ∈ take_stride 4 new_beats). apply list_elem_of_lookup. exists k.
    rewrite take_stride_lookup; [by rewrite Nat.mul_comm|lia|].
    apply lookup_lt_Some in Hb.
    destruct (decide (k < slice_len (length new_beats) 4)%nat) as [|Hge]; [done|].
    pose proof (slice_index_ge (length new_beats) 4 k). lia.
  - apply bool_decide_eq_true. unfold abs.
    replace (b - b) with 0 by ring. by_evaluation.
Qed.

Lemma click_track_after_update_witness :
  let grid := BeatGrid [Q2Qc 0.5; Q2Qc 1.5] [Q2Qc 0.5]%list [1; 2]%Z
                       (Q2Qc 60) "4/4" (Q2Qc 0.9) in
  let info := FileInfo "uploads/a.wav" "a.wav" (Q2Qc 9) "analyzed" (Some grid) None in
  let new_beats := Q2Qc <$> [1; 2; 3; 4; 5]%Q in
  let out := update_beats "a" (Some (UpdateRequest (Some new_beats) None None))
                          {[ "a"%string := info ]} in
  ∃ clicks tempo,
    get_click_track "a" out.2 = Clicks clicks tempo
    ∧ BeatDetector.time <$> clicks = new_beats
    ∧ ∀ (k : nat) b, new_beats !! (4 * k)%nat = Some b →
        clicks !! (4 * k)%nat = Some (BeatDetector.Click b true).
Proof.
  intros grid info new_beats.
  apply (click_track_after_update {[ "a"%string := info ]} "a" info grid
           new_beats None).
  - apply lookup_singleton_eq.
  - reflexivity.
Defined.

(** [delete_file] removes the entry only when the file could be removed;
    then the identifier is unknown to the status route and to a second
    delete, and the other entries are as before.  When the entry is unknown
    or the removal fails, the store and the cache are untouched. *)
Theorem delete_file_outcome (removed : bool) (file_id : string)
    (analysis_results : gmap string file_info)
    (audio_cache : gmap string AudioProcessor.audio) :
  let out := delete_file removed file_id analysis_results audio_cache in
  match out.1.1 with
  | Deleted =>
      is_Some (analysis_results !! file_id) ∧ removed = true
      ∧ out.1.2 = delete file_id analysis_results
      ∧ out.2 = AudioProcessor.cleanup file_id audio_cache
      ∧ get_status file_id out.1.2 = StatusNotFound
      ∧ (∀ removed', delete_file removed' file_id out.1.2 out.2
                     = (DeleteNotFound, out.1.2, out.2))
      ∧ (∀ other, other ≠ file_id →
           get_status other out.1.2 = get_status other analysis_results)
  | DeleteFailed =>
      is_Some (analysis_results !! file_id) ∧ removed = false
      ∧ out.1.2 = analysis_results ∧ out.2 = audio_cache
  | DeleteNotFound =>
      analysis_results !! file_id = None
      ∧ out.1.2 = analysis_results ∧ out.2 = audio_cache
  end.
Proof.
  unfold delete_file.
  destruct (analysis_results !! file_id) as [info|] eqn:Hinfo; [|done].
  destruct removed; simpl; [|by eauto].
  split; [by eauto|]. do 3 (split; [done|]).
  unfold get_status, delete_file. rewrite lookup_delete_eq.
  do 2 (split; [done|]). intros other Hother. by rewrite lookup_delete_ne.
Qed.

End HandlerProperties.
